(** * tumanako-inverter-fw-lib: the [tFixedPoint] fixed-point template

    A shallow embedding of [include/FixedPoint.h] (the class template
    [tFixedPoint<QBits,DataType>], its support macros and its free operator
    helpers) together with the properties the specification states about it.

    Conventions of the embedding.

    - A storage type [DataType] is one of the four C++ integer types of rank
      [int] or above: [int], [unsigned], [long long], [unsigned long long]
      (32 and 64 bits wide, two's complement). Their values are integers [Z]
      and every arithmetic result is reduced to the type by [wrap]; this is
      the "silently wraps" behaviour the library documents for overflow.
    - An expression has a type and a value ([cval]); a binary operator first
      brings its operands to their common type (the usual arithmetic
      conversions), so mixed signed/unsigned arithmetic behaves as in C++.
    - What C++ leaves undefined because no value exists for it (a shift count
      that is negative or not below the width of the shifted type, a zero
      divisor, a quotient that is not a value of its type, a floating value
      outside the target integer type) makes the embedded expression return
      [None].
    - The template parameter [QBits] is an integer index of the record type
      [tFixedPoint QBits D]: two instantiations are two different types, as
      in the source.
    - A [double] is an IEEE 754 binary64 number ([spec_float] of the Standard
      Library), so the floating-point overloads compute.
    - A macro argument that is a run of digits is a token; it is read as the
      C++ integer literal it spells. *)

From Stdlib Require Import ZArith Lia Bool.
From Stdlib Require Import Floats.SpecFloat.
Local Open Scope Z_scope.

(** ** The option monad used for partial C++ expressions *)

Definition obind {A B : Type} (m : option A) (k : A -> option B) : option B :=
  match m with
  | Some a => k a
  | None => None
  end.

Notation "x <- m ;; k" := (obind m (fun x => k))
  (at level 61, m at next level, right associativity).

(** ** Integer types and their arithmetic *)

Inductive DataType : Set :=
| TInt        (* int *)
| TUInt       (* unsigned int *)
| TLongLong   (* long long *)
| TULongLong. (* unsigned long long *)

Definition width (D : DataType) : Z :=
  match D with
  | TInt | TUInt => 32
  | TLongLong | TULongLong => 64
  end.

Definition is_signed (D : DataType) : bool :=
  match D with
  | TInt | TLongLong => true
  | TUInt | TULongLong => false
  end.

Definition modulus (D : DataType) : Z := 2 ^ width D.

Definition min_value (D : DataType) : Z :=
  if is_signed D then - 2 ^ (width D - 1) else 0.

Definition max_value (D : DataType) : Z :=
  if is_signed D then 2 ^ (width D - 1) - 1 else 2 ^ width D - 1.

(** Conversion of an integer to the type [D]: reduction modulo [2^width],
    read as two's complement when [D] is signed. *)
Definition wrap (D : DataType) (z : Z) : Z :=
  if is_signed D
  then (z + 2 ^ (width D - 1)) mod modulus D - 2 ^ (width D - 1)
  else z mod modulus D.

Definition in_range (D : DataType) (z : Z) : Prop :=
  min_value D <= z <= max_value D.

Definition in_rangeb (D : DataType) (z : Z) : bool :=
  (min_value D <=? z) && (z <=? max_value D).

(** The usual arithmetic conversions on the four types: the common type of
    two operands is the one of greater rank, and at equal rank the unsigned
    one ([long long] holds every [unsigned], so it wins over it). *)
Definition common_type (D1 D2 : DataType) : DataType :=
  match D1, D2 with
  | TULongLong, _ | _, TULongLong => TULongLong
  | TLongLong, _ | _, TLongLong => TLongLong
  | TUInt, _ | _, TUInt => TUInt
  | TInt, TInt => TInt
  end.

(** A typed value: what a C++ integer expression evaluates to. *)
Record cval : Set := CV { ty : DataType; val : Z }.

(** Implicit or explicit conversion of an expression to type [D]. *)
Definition convert (D : DataType) (c : cval) : cval := CV D (wrap D (val c)).

Definition arith (f : Z -> Z -> Z) (a b : cval) : cval :=
  let T := common_type (ty a) (ty b) in
  CV T (wrap T (f (wrap T (val a)) (wrap T (val b)))).

Definition c_add : cval -> cval -> cval := arith Z.add.
Definition c_sub : cval -> cval -> cval := arith Z.sub.
Definition c_mul : cval -> cval -> cval := arith Z.mul.
Definition c_and : cval -> cval -> cval := arith Z.land.

Definition c_neg (a : cval) : cval := CV (ty a) (wrap (ty a) (- val a)).

(** [a / b]: truncation toward zero. There is no value when the divisor is
    zero, nor when the quotient is not a value of the common type, which
    happens for the minimum of a signed type divided by [-1]. *)
Definition c_div (a b : cval) : option cval :=
  let T := common_type (ty a) (ty b) in
  let q := Z.quot (wrap T (val a)) (wrap T (val b)) in
  if wrap T (val b) =? 0 then None
  else if in_rangeb T q then Some (CV T q) else None.

(** [a << n] and [a >> n]: the result has the type of the left operand; the
    count must lie in [0, width). The right shift of a signed value is the
    arithmetic one. *)
Definition c_shl (a : cval) (n : Z) : option cval :=
  if (0 <=? n) && (n <? width (ty a))
  then Some (CV (ty a) (wrap (ty a) (Z.shiftl (val a) n)))
  else None.

Definition c_shr (a : cval) (n : Z) : option cval :=
  if (0 <=? n) && (n <? width (ty a))
  then Some (CV (ty a) (Z.shiftr (val a) n))
  else None.

Definition compare_with (f : Z -> Z -> bool) (a b : cval) : bool :=
  let T := common_type (ty a) (ty b) in
  f (wrap T (val a)) (wrap T (val b)).

Definition c_lt : cval -> cval -> bool := compare_with Z.ltb.
Definition c_le : cval -> cval -> bool := compare_with Z.leb.
Definition c_gt : cval -> cval -> bool := compare_with Z.gtb.
Definition c_ge : cval -> cval -> bool := compare_with Z.geb.
Definition c_eq : cval -> cval -> bool := compare_with Z.eqb.

(** The template argument [QBits] is an [int]; passed to an [unsigned]
    parameter and cast back with [int(...)] it goes through these two
    conversions. *)
Definition to_unsigned (k : Z) : Z := wrap TUInt k.
Definition to_int (k : Z) : Z := wrap TInt k.

(** ** Support macros *)

(** [#define FIXEDPOINT_IMPL_DIVIDE( dividend, divisor )
       (((divisor) + ((dividend) >> 1)) / (dividend))] *)
Definition FIXEDPOINT_IMPL_DIVIDE (dividend divisor : cval) : option cval :=
  h <- c_shr dividend 1 ;;
  c_div (c_add divisor h) dividend.

(** [#define FIXEDPOINT_IMPL_ROUND( value, byQBits )
       (((value) + (1 << ((byQBits)-1))) >> (byQBits))]
    The literal [1] is an [int], so the bias is computed in [int]. *)
Definition FIXEDPOINT_IMPL_ROUND (value : cval) (byQBits : Z) : option cval :=
  bias <- c_shl (CV TInt 1) (byQBits - 1) ;;
  c_shr (c_add value bias) byQBits.

(** ** The class template *)

Record tFixedPoint (QBits : Z) (D : DataType) : Set := FP { value_ : Z }.

Arguments FP {QBits D} _.
Arguments value_ {QBits D} _.

Section Construction.
Context {QBits : Z} {D : DataType}.

(** [static const unsigned cQBits = QBits;] (a static member: the argument
    only selects the instantiation). *)
Definition cQBits (_ : tFixedPoint QBits D) : Z := to_unsigned QBits.

(** [tValue qValue() const { return value_; }] as a typed expression. *)
Definition qValue (x : tFixedPoint QBits D) : cval := CV D (value_ x).

(** A value is well formed when its raw value is a value of [DataType]. *)
Definition wf (x : tFixedPoint QBits D) : Prop := in_range D (value_ x).

(** [tFixedPoint( tValue value ) : value_( value << QBits ) {}] *)
Definition ctor1 (value : cval) : option (tFixedPoint QBits D) :=
  v <- c_shl (convert D value) QBits ;;
  Some (FP (val v)).

(** [tFixedPoint( tValue qValue, unsigned qBits )
      : value_( qValue << (QBits - int(qBits)) ) {}] *)
Definition ctor2 (qValue : cval) (qBits : Z) : option (tFixedPoint QBits D) :=
  v <- c_shl (convert D qValue) (QBits - to_int qBits) ;;
  Some (FP (val v)).

(** [static tFixedPoint create( tValue qValue )
      { return tFixedPoint( qValue, QBits ); }] *)
Definition create (qValue : cval) : option (tFixedPoint QBits D) :=
  ctor2 qValue (to_unsigned QBits).

(** [tFixedPoint( tValue intPart, tValue absFracPart, unsigned qFracBits )] *)
Definition ctor3 (intPart absFracPart : cval) (qFracBits : Z)
  : option (tFixedPoint QBits D) :=
  let ip := convert D intPart in
  let fp := convert D absFracPart in
  hi <- c_shl ip QBits ;;
  lo <- c_shl fp (QBits - to_int qFracBits) ;;
  Some (FP (val (convert D (if c_ge ip (CV TInt 0)
                            then c_add hi lo
                            else c_sub hi lo)))).

End Construction.

Section Class.
Context {QBits : Z} {D : DataType}.

(** *** Conversions between precisions (same [DataType]) *)

(** [template< int QBits2 > tFixedPoint<QBits2,DataType> truncatedTo() const
      { return tFixedPoint<QBits2,DataType>::create( value_ >> (QBits - QBits2) ); }] *)
Definition truncatedTo (QBits2 : Z) (x : tFixedPoint QBits D)
  : option (tFixedPoint QBits2 D) :=
  v <- c_shr (qValue x) (QBits - QBits2) ;;
  create v.

(** [template< int QBits2 > tFixedPoint<QBits2,DataType> roundedTo() const
      { return tFixedPoint<QBits2,DataType>::create(
                 FIXEDPOINT_IMPL_ROUND( value_, (QBits - QBits2) ) ); }] *)
Definition roundedTo (QBits2 : Z) (x : tFixedPoint QBits D)
  : option (tFixedPoint QBits2 D) :=
  v <- FIXEDPOINT_IMPL_ROUND (qValue x) (QBits - QBits2) ;;
  create v.

(** [template< int QBits2 > tFixedPoint<QBits2,DataType> increasedTo() const
      { return tFixedPoint<QBits2,DataType>::create( value_ << (QBits2 - QBits) ); }] *)
Definition increasedTo (QBits2 : Z) (x : tFixedPoint QBits D)
  : option (tFixedPoint QBits2 D) :=
  v <- c_shl (qValue x) (QBits2 - QBits) ;;
  create v.

(** *** Comparisons with a value of the same type *)

Definition operator_lt (a b : tFixedPoint QBits D) : bool := c_lt (qValue a) (qValue b).
Definition operator_le (a b : tFixedPoint QBits D) : bool := c_le (qValue a) (qValue b).
Definition operator_ge (a b : tFixedPoint QBits D) : bool := c_ge (qValue a) (qValue b).
Definition operator_gt (a b : tFixedPoint QBits D) : bool := c_gt (qValue a) (qValue b).

(** *** Arithmetic with a value of the same type *)

(** Modelled from the spec: [roundedBy_] is called by the same-type
    [operator*=] but is declared nowhere in the repository. The specification
    gives the result of a same-type [a *= b] as the raw product rounded by
    the documented rounding macro, so the helper is that macro. *)
Definition roundedBy_ (value : cval) (byQBits : Z) : option cval :=
  FIXEDPOINT_IMPL_ROUND value byQBits.

(** [tFixedPoint& operator*=( const tFixedPoint& value )
      { value_ = roundedBy_( value_ * value.value_, QBits ); return *this; }]
    The result is the new value of [*this]. *)
Definition operator_mul_assign (a b : tFixedPoint QBits D)
  : option (tFixedPoint QBits D) :=
  r <- roundedBy_ (c_mul (qValue a) (qValue b)) QBits ;;
  Some (FP (val (convert D r))).

(** [tFixedPoint& operator/=( const tFixedPoint& value )
      { value_ = FIXEDPOINT_IMPL_DIVIDE( value_, value.value_ ); return *this; }] *)
Definition operator_div_assign (a b : tFixedPoint QBits D)
  : option (tFixedPoint QBits D) :=
  r <- FIXEDPOINT_IMPL_DIVIDE (qValue a) (qValue b) ;;
  Some (FP (val (convert D r))).

(** [tFixedPoint<QBits+QBits,DataType> operator*( const tFixedPoint& value ) const
      { return tFixedPoint<QBits+QBits,DataType>::create( value_*value.value_ ); }] *)
Definition operator_mul (a b : tFixedPoint QBits D)
  : option (tFixedPoint (QBits + QBits) D) :=
  create (c_mul (qValue a) (qValue b)).

(** [tValue operator/( const tFixedPoint& value ) const
      { return FIXEDPOINT_IMPL_DIVIDE( value_, value.value_ ); }]
    The result is a plain [tValue]. *)
Definition operator_div (a b : tFixedPoint QBits D) : option Z :=
  r <- FIXEDPOINT_IMPL_DIVIDE (qValue a) (qValue b) ;;
  Some (val (convert D r)).

(** *** Arithmetic with a value of another fixed-point type *)

Section CrossType.
Context {QBits2 : Z} {D2 : DataType}.

(** [template< int QBits2, typename DataType2 >
    tFixedPoint& operator*=( const tFixedPoint<QBits2,DataType2>& value )
      { value_ = FIXEDPOINT_IMPL_ROUND( value_*value.qValue(), QBits2 ); return *this; }] *)
Definition operator_mul_assign_cross
  (a : tFixedPoint QBits D) (b : tFixedPoint QBits2 D2)
  : option (tFixedPoint QBits D) :=
  r <- FIXEDPOINT_IMPL_ROUND (c_mul (qValue a) (qValue b)) QBits2 ;;
  Some (FP (val (convert D r))).

(** [template< int QBits2, typename DataType2 >
    tFixedPoint& operator/=( const tFixedPoint<QBits2,DataType2>& value )
      { value_ = FIXEDPOINT_IMPL_DIVIDE( (value_ << (QBits-QBits2)), value.qValue() );
        return *this; }] *)
Definition operator_div_assign_cross
  (a : tFixedPoint QBits D) (b : tFixedPoint QBits2 D2)
  : option (tFixedPoint QBits D) :=
  s <- c_shl (qValue a) (QBits - QBits2) ;;
  r <- FIXEDPOINT_IMPL_DIVIDE s (qValue b) ;;
  Some (FP (val (convert D r))).

(** [template< int QBits2, typename DataType2 >
    tFixedPoint<QBits+QBits2,DataType> operator*( const tFixedPoint<QBits2,DataType2>& value ) const
      { return tFixedPoint<QBits+QBits2,DataType>::create( value_ * value.qValue() ); }] *)
Definition operator_mul_cross
  (a : tFixedPoint QBits D) (b : tFixedPoint QBits2 D2)
  : option (tFixedPoint (QBits + QBits2) D) :=
  create (c_mul (qValue a) (qValue b)).

(** [template< int QBits2, typename DataType2 >
    tFixedPoint<QBits-QBits2,DataType> operator/( const tFixedPoint<QBits2,DataType2>& value ) const
      { return tFixedPoint<QBits-QBits2,DataType>::create(
                 FIXEDPOINT_IMPL_DIVIDE( value_, value.qValue() ) ); }] *)
Definition operator_div_cross
  (a : tFixedPoint QBits D) (b : tFixedPoint QBits2 D2)
  : option (tFixedPoint (QBits - QBits2) D) :=
  r <- FIXEDPOINT_IMPL_DIVIDE (qValue a) (qValue b) ;;
  create r.

End CrossType.

(** *** Miscellaneous *)

(** [tValue absolute() const { return (value_ >= 0)? value_ : -value_; }] *)
Definition absolute (x : tFixedPoint QBits D) : Z :=
  if c_ge (qValue x) (CV TInt 0) then value_ x else val (c_neg (qValue x)).

(** [tValue intPart() const { return value_ >> QBits; }] *)
Definition intPart (x : tFixedPoint QBits D) : option Z :=
  v <- c_shr (qValue x) QBits ;;
  Some (val (convert D v)).

(** The mask [((1 << QBits) - 1)], an [int] expression. *)
Definition frac_mask : option cval :=
  one <- c_shl (CV TInt 1) QBits ;;
  Some (c_sub one (CV TInt 1)).

(** [tValue fracPart() const
      { return (value_ >= 0)? (value_ & ((1 << QBits) - 1))
                            : -((-value_) & ((1 << QBits) - 1)); }] *)
Definition fracPart (x : tFixedPoint QBits D) : option Z :=
  m <- frac_mask ;;
  Some (val (convert D (if c_ge (qValue x) (CV TInt 0)
                        then c_and (qValue x) m
                        else c_neg (c_and (c_neg (qValue x)) m)))).

(** [tValue absFracPart() const
      { return ((value_ >= 0)? value_ : -value_) & ((1 << QBits) - 1); }] *)
Definition absFracPart (x : tFixedPoint QBits D) : option Z :=
  m <- frac_mask ;;
  Some (val (convert D (c_and (CV D (absolute x)) m))).

(** The variables of the second loop of [fracPlaces]: [frac], [mask] and
    [result] are [tValue]s, [dec_qx] is an [unsigned]. *)
Record loop_state : Set :=
  LS { ls_frac : Z; ls_mask : Z; ls_dec_qx : Z; ls_result : Z }.

(** One pass through the body of
    [while (frac != 0) {
        if (frac & mask) { frac -= mask; result += dec_qx; }
        dec_qx >>= 1;
        mask >>= 1;
     }] *)
Definition loop_body (s : loop_state) : option loop_state :=
  let frac := CV D (ls_frac s) in
  let mask := CV D (ls_mask s) in
  let dec_qx := CV TUInt (ls_dec_qx s) in
  let result := CV D (ls_result s) in
  let taken := negb (val (c_and frac mask) =? 0) in
  let frac' := if taken then convert D (c_sub frac mask) else frac in
  let result' := if taken then convert D (c_add result dec_qx) else result in
  dec_qx' <- c_shr dec_qx 1 ;;
  mask' <- c_shr mask 1 ;;
  Some (LS (val frac') (val mask') (val dec_qx') (val result')).

(** The loop itself, bounded by [fuel]; it returns the final variables and
    the number of passes made, or [None] when the fuel does not suffice. *)
Fixpoint fracPlaces_loop (fuel : nat) (s : loop_state) : option (loop_state * nat) :=
  if ls_frac s =? 0 then Some (s, O)
  else match fuel with
       | O => None
       | S fuel' =>
           s' <- loop_body s ;;
           r <- fracPlaces_loop fuel' s' ;;
           Some (fst r, S (snd r))
       end.

(** [const unsigned cXBits = 4;] *)
Definition cXBits : Z := 4.

(** The variables on entry of the second loop:
    [tValue frac = absFracPart();
     unsigned dec_qx = (1 << (cXBits-1));
     while (decimals-- > 0) dec_qx *= 10;
     tValue result = 0;
     tValue mask = 1 << (QBits - 1);] *)
Definition fracPlaces_init (x : tFixedPoint QBits D) (decimals : Z)
  : option loop_state :=
  frac <- absFracPart x ;;
  eight <- c_shl (CV TInt 1) (cXBits - 1) ;;
  let dec_qx :=
    Nat.iter (Z.to_nat decimals)
             (fun d => convert TUInt (c_mul d (CV TInt 10)))
             (convert TUInt eight) in
  mask <- c_shl (CV TInt 1) (QBits - 1) ;;
  Some (LS frac (val (convert D mask)) (val dec_qx) 0).

(** [tValue fracPlaces( unsigned decimals )]: the value returned,
    [((result + (1 << (cXBits-1))) >> cXBits)], and the number of passes of
    the second loop. *)
Definition fracPlaces (fuel : nat) (x : tFixedPoint QBits D) (decimals : Z)
  : option (Z * nat) :=
  s0 <- fracPlaces_init x decimals ;;
  r <- fracPlaces_loop fuel s0 ;;
  eight <- c_shl (CV TInt 1) (cXBits - 1) ;;
  v <- c_shr (c_add (CV D (ls_result (fst r))) eight) cXBits ;;
  Some (val (convert D v), snd r).

(** *** Floating point ([FIXEDPOINT_ENABLE_FLOATINGPOINT_SUPPORT]) *)

(** A [double] is an IEEE 754 binary64 number. *)
Definition double : Set := spec_float.

Definition double_of_Z (z : Z) : double := binary_normalize 53 1024 z 0 false.
Definition double_mul : double -> double -> double := SFmul 53 1024.
Definition double_add : double -> double -> double := SFadd 53 1024.

(** The literal [0.5]. *)
Definition double_half : double := binary_normalize 53 1024 1 (-1) false.

(** Conversion of a [double] to an integer type: the fractional part is
    discarded; there is no value when the result is not one of the type. *)
Definition double_truncate (f : double) : option Z :=
  match f with
  | S754_zero _ => Some 0
  | S754_finite s m e =>
      let mag := if 0 <=? e then Z.shiftl (Zpos m) e else Z.shiftr (Zpos m) (- e) in
      Some (if s then - mag else mag)
  | _ => None
  end.

Definition double_to (T : DataType) (f : double) : option Z :=
  z <- double_truncate f ;;
  if in_rangeb T z then Some z else None.

(** [static tValue rounded_( double value )
      { return tValue( value * (tValue(1) << QBits) + 0.5 ); }] *)
Definition rounded_ (value : double) : option Z :=
  one <- c_shl (convert D (CV TInt 1)) QBits ;;
  double_to D (double_add (double_mul value (double_of_Z (val one))) double_half).

(** [bool operator< ( double value ) const { return (value_ <  rounded_( value )); }]
    and its three companions. *)
Definition operator_lt_double (a : tFixedPoint QBits D) (value : double) : option bool :=
  r <- rounded_ value ;; Some (c_lt (qValue a) (CV D r)).
Definition operator_le_double (a : tFixedPoint QBits D) (value : double) : option bool :=
  r <- rounded_ value ;; Some (c_le (qValue a) (CV D r)).
Definition operator_ge_double (a : tFixedPoint QBits D) (value : double) : option bool :=
  r <- rounded_ value ;; Some (c_ge (qValue a) (CV D r)).
Definition operator_gt_double (a : tFixedPoint QBits D) (value : double) : option bool :=
  r <- rounded_ value ;; Some (c_gt (qValue a) (CV D r)).

End Class.

(** ** External helpers: comparisons with the scalar on the left *)

Section ExternalHelpers.
Context {QBits : Z} {D : DataType}.

(** The member comparison [rhs OP lhs] the helpers call with a scalar [lhs]
    of type [DataType]. Which member is called is decided by overload
    resolution. When [FIXEDPOINT_ENABLE_FLOATINGPOINT_SUPPORT] is defined the
    class has [OP( double )], reached from [DataType] by a standard
    conversion, and that beats [OP( const tFixedPoint& )], reached only
    through the converting constructor [tFixedPoint( tValue )]. When the
    macro is not defined only the latter exists. *)
Definition scalar_compare (float_support : bool)
  (op : tFixedPoint QBits D -> tFixedPoint QBits D -> bool)
  (op_double : tFixedPoint QBits D -> double -> option bool)
  (rhs : tFixedPoint QBits D) (lhs : Z) : option bool :=
  if float_support
  then op_double rhs (double_of_Z lhs)
  else v <- ctor1 (CV D lhs) ;; Some (op rhs v).

(** [template< int QBits, typename DataType >
    bool operator< ( DataType lhs, const tFixedPoint<QBits,DataType>& rhs )
      { return (rhs >= lhs); }] *)
Definition free_operator_lt (float_support : bool) (lhs : Z) (rhs : tFixedPoint QBits D)
  : option bool :=
  scalar_compare float_support operator_ge operator_ge_double rhs lhs.

(** [... operator<=( DataType lhs, ... rhs ) { return (rhs >  lhs); }] *)
Definition free_operator_le (float_support : bool) (lhs : Z) (rhs : tFixedPoint QBits D)
  : option bool :=
  scalar_compare float_support operator_gt operator_gt_double rhs lhs.

(** [... operator>=( DataType lhs, ... rhs ) { return (rhs <  lhs); }] *)
Definition free_operator_ge (float_support : bool) (lhs : Z) (rhs : tFixedPoint QBits D)
  : option bool :=
  scalar_compare float_support operator_lt operator_lt_double rhs lhs.

(** [... operator> ( DataType lhs, ... rhs ) { return (rhs <= lhs); }] *)
Definition free_operator_gt (float_support : bool) (lhs : Z) (rhs : tFixedPoint QBits D)
  : option bool :=
  scalar_compare float_support operator_le operator_le_double rhs lhs.

End ExternalHelpers.

(** ** The decimal-constant macro *)

(** The digits of an octal literal, most significant first; [8] and [9] are
    not octal digits. *)
Fixpoint octal_value (d : Decimal.uint) (acc : Z) : option Z :=
  match d with
  | Decimal.Nil => Some acc
  | Decimal.D0 r => octal_value r (8 * acc + 0)
  | Decimal.D1 r => octal_value r (8 * acc + 1)
  | Decimal.D2 r => octal_value r (8 * acc + 2)
  | Decimal.D3 r => octal_value r (8 * acc + 3)
  | Decimal.D4 r => octal_value r (8 * acc + 4)
  | Decimal.D5 r => octal_value r (8 * acc + 5)
  | Decimal.D6 r => octal_value r (8 * acc + 6)
  | Decimal.D7 r => octal_value r (8 * acc + 7)
  | Decimal.D8 _ | Decimal.D9 _ => None
  end.

(** The digits of a decimal literal, most significant first. *)
Fixpoint decimal_value (d : Decimal.uint) (acc : Z) : Z :=
  match d with
  | Decimal.Nil => acc
  | Decimal.D0 r => decimal_value r (10 * acc + 0)
  | Decimal.D1 r => decimal_value r (10 * acc + 1)
  | Decimal.D2 r => decimal_value r (10 * acc + 2)
  | Decimal.D3 r => decimal_value r (10 * acc + 3)
  | Decimal.D4 r => decimal_value r (10 * acc + 4)
  | Decimal.D5 r => decimal_value r (10 * acc + 5)
  | Decimal.D6 r => decimal_value r (10 * acc + 6)
  | Decimal.D7 r => decimal_value r (10 * acc + 7)
  | Decimal.D8 r => decimal_value r (10 * acc + 8)
  | Decimal.D9 r => decimal_value r (10 * acc + 9)
  end.

(** The type of an unsuffixed literal is the first type of its list that
    holds its value ([long] has the width of one of its neighbours). *)
Definition decimal_literal_type (v : Z) : option DataType :=
  if v <=? max_value TInt then Some TInt
  else if v <=? max_value TLongLong then Some TLongLong
  else None.

Definition octal_literal_type (v : Z) : option DataType :=
  if v <=? max_value TInt then Some TInt
  else if v <=? max_value TUInt then Some TUInt
  else if v <=? max_value TLongLong then Some TLongLong
  else if v <=? max_value TULongLong then Some TULongLong
  else None.

(** The value of a token made of decimal digits, read as a C++ integer
    literal: a token that starts with [0] is an octal literal. *)
Definition int_literal (d : Decimal.uint) : option cval :=
  match d with
  | Decimal.Nil => None
  | Decimal.D0 r =>
      v <- octal_value r 0 ;;
      T <- octal_literal_type v ;;
      Some (CV T v)
  | _ =>
      let v := decimal_value d 0 in
      T <- decimal_literal_type v ;;
      Some (CV T v)
  end.

(** [#define FIXEDPOINT_CONSTANT( FPType, dec,frac )
      FPType( dec, (((1 << FPType::cQBits)*frac + (2##frac-1##frac)/2)
                    /(2##frac-1##frac)), FPType::cQBits )]
    [frac] is the token given as third argument; [2##frac] and [1##frac] are
    that token with a digit pasted in front. *)
Definition FIXEDPOINT_CONSTANT (QBits : Z) (D : DataType)
  (dec : cval) (frac : Decimal.uint) : option (tFixedPoint QBits D) :=
  f <- int_literal frac ;;
  two_frac <- int_literal (Decimal.D2 frac) ;;
  one_frac <- int_literal (Decimal.D1 frac) ;;
  one <- c_shl (CV TInt 1) (to_unsigned QBits) ;;
  let scale := c_sub two_frac one_frac in
  half <- c_div scale (CV TInt 2) ;;
  x <- c_div (c_add (c_mul one f) half) scale ;;
  ctor3 dec x (to_unsigned QBits).

(** ** Further members of the class *)

Section Members.
Context {QBits : Z} {D : DataType}.

(** [template< int QBits2, typename DataType2 >
    tFixedPoint( const tFixedPoint<QBits2,DataType2>& value )
      : value_( value.qValue() << (QBits - QBits2) ) {}]
    The shift is made in the storage type of the source. *)
Definition ctor_from {QBits2 : Z} {D2 : DataType} (value : tFixedPoint QBits2 D2)
  : option (tFixedPoint QBits D) :=
  v <- c_shl (qValue value) (QBits - QBits2) ;;
  Some (FP (val (convert D v))).

(** [template< int QBits2, typename DataType2 >
    tFixedPoint<QBits2,DataType2> truncatedTo() const
      { return tFixedPoint<QBits2,DataType2>::create( value_ >> (QBits - QBits2) ); }] *)
Definition truncatedTo2 (QBits2 : Z) (D2 : DataType) (x : tFixedPoint QBits D)
  : option (tFixedPoint QBits2 D2) :=
  v <- c_shr (qValue x) (QBits - QBits2) ;;
  create v.

(** [template< int QBits2, typename DataType2 >
    tFixedPoint<QBits2,DataType2> increasedTo() const
      { return tFixedPoint<QBits2,DataType2>::create(
                 DataType2(value_) << (QBits2 - QBits) ); }]
    The shift is made in the storage type of the result. *)
Definition increasedTo2 (QBits2 : Z) (D2 : DataType) (x : tFixedPoint QBits D)
  : option (tFixedPoint QBits2 D2) :=
  v <- c_shl (convert D2 (qValue x)) (QBits2 - QBits) ;;
  create v.

(** [template< int QBits2, typename DataType2 >
    tFixedPoint<QBits+QBits2,DataType2> increasedBy( const tFixedPoint<QBits2,DataType2>& ) const
      { return tFixedPoint<QBits+QBits2,DataType2>::create( DataType2(value_) << QBits2 ); }] *)
Definition increasedBy {QBits2 : Z} {D2 : DataType} (_ : tFixedPoint QBits2 D2)
  (x : tFixedPoint QBits D) : option (tFixedPoint (QBits + QBits2) D2) :=
  v <- c_shl (convert D2 (qValue x)) QBits2 ;;
  create v.

(** [bool operator!() const { return (value_ == 0); }] *)
Definition operator_not (x : tFixedPoint QBits D) : bool :=
  c_eq (qValue x) (CV TInt 0).

(** [bool operator==( const tFixedPoint& value ) const
      { return (value_ == value.value_); }] *)
Definition operator_eq (a b : tFixedPoint QBits D) : bool := c_eq (qValue a) (qValue b).

(** [tFixedPoint operator-() const { return create( -value_ ); }] *)
Definition operator_neg (a : tFixedPoint QBits D) : option (tFixedPoint QBits D) :=
  create (c_neg (qValue a)).

(** [tFixedPoint operator+( const tFixedPoint& value ) const
      { return create( value_ + value.value_ ); }] *)
Definition operator_add (a b : tFixedPoint QBits D) : option (tFixedPoint QBits D) :=
  create (c_add (qValue a) (qValue b)).

(** [tFixedPoint operator-( const tFixedPoint& value ) const
      { return create( value_ - value.value_ ); }] *)
Definition operator_sub (a b : tFixedPoint QBits D) : option (tFixedPoint QBits D) :=
  create (c_sub (qValue a) (qValue b)).

(** [template< typename DataType2 > tFixedPoint operator*( const DataType2& value ) const
      { return create( value_ * value ); }] *)
Definition operator_mul_scalar (a : tFixedPoint QBits D) (value : cval)
  : option (tFixedPoint QBits D) :=
  create (c_mul (qValue a) value).


(** [template< int QBits2, typename DataType2 >
    tFixedPoint operator+( const tFixedPoint<QBits2,DataType2>& value ) const
      { return create( value_ + (value.qValue() << (QBits-QBits2)) ); }] *)
Definition operator_add_cross {QBits2 : Z} {D2 : DataType}
  (a : tFixedPoint QBits D) (b : tFixedPoint QBits2 D2) : option (tFixedPoint QBits D) :=
  s <- c_shl (qValue b) (QBits - QBits2) ;;
  create (c_add (qValue a) s).

(** [explicit tFixedPoint( double value ) : value_( rounded_( value ) ) {}] *)
Definition ctor_double (value : double) : option (tFixedPoint QBits D) :=
  r <- @rounded_ QBits D value ;;
  Some (FP r).

(** [static tValue truncated_( double value )
      { return tValue( value * (tValue(1) << QBits) ); }] *)
Definition truncated_ (value : double) : option Z :=
  one <- c_shl (convert D (CV TInt 1)) QBits ;;
  double_to D (double_mul value (double_of_Z (val one))).

(** [static tFixedPoint truncated( double value )
      { return create( truncated_( value ) ); }] *)
Definition truncated (value : double) : option (tFixedPoint QBits D) :=
  r <- truncated_ value ;;
  create (CV D r).

(** [tFixedPoint operator*( double value ) const
      { return create( tValue( value_*value + 0.5 ) ); }]
    The raw value is converted to [double] for the product. *)
Definition operator_mul_double (a : tFixedPoint QBits D) (value : double)
  : option (tFixedPoint QBits D) :=
  r <- double_to D (double_add (double_mul (double_of_Z (value_ a)) value) double_half) ;;
  create (CV D r).

(** [bool operator==( double value ) const { return (value_ == rounded_( value )); }] *)
Definition operator_eq_double (a : tFixedPoint QBits D) (value : double) : option bool :=
  r <- @rounded_ QBits D value ;; Some (c_eq (qValue a) (CV D r)).

(** [template< int QBits, typename DataType >
    bool operator==( DataType lhs, const tFixedPoint<QBits,DataType>& rhs )
      { return (rhs == lhs); }] *)
Definition free_operator_eq (float_support : bool) (lhs : Z) (rhs : tFixedPoint QBits D)
  : option bool :=
  scalar_compare float_support operator_eq operator_eq_double rhs lhs.

End Members.

Section CrossComparisons.
Context {QBits : Z} {D : DataType}.

(** [template< int QBits2, typename DataType2 >
    bool operator==( const tFixedPoint<QBits2,DataType2>& value ) const
      { return (value_ == value.increasedTo<QBits,DataType>()); }]
    The left operand of [==] is the raw value, a [DataType], and the right
    one a fixed-point value: the comparison is the external helper
    [operator==( DataType, const tFixedPoint& )]. *)
Definition operator_eq_cross {QBits2 : Z} {D2 : DataType} (float_support : bool)
  (a : tFixedPoint QBits D) (b : tFixedPoint QBits2 D2) : option bool :=
  w <- increasedTo2 QBits D b ;;
  free_operator_eq float_support (value_ a) w.

(** [template< int QBits2, typename DataType2 >
    bool operator< ( const tFixedPoint<QBits2,DataType2>& value ) const
      { return (value_ <  value.increasedTo<QBits,DataType>()); }]
    Likewise through [operator< ( DataType, const tFixedPoint& )]. *)
Definition operator_lt_cross {QBits2 : Z} {D2 : DataType} (float_support : bool)
  (a : tFixedPoint QBits D) (b : tFixedPoint QBits2 D2) : option bool :=
  w <- increasedTo2 QBits D b ;;
  free_operator_lt float_support (value_ a) w.

End CrossComparisons.

(** ** Reference formulas *)

(** The rule [(B + (A >> 1)) / A] of the division macro written out on
    integers: [A] is shifted in its own type, then the sum and the quotient
    are taken at the common type [T] of the two operands. *)
Definition divide_rule (T : DataType) (A B : Z) : Z :=
  Z.quot (wrap T (wrap T B + wrap T (Z.shiftr A 1))) (wrap T A).

(** What the scalar helpers compare a raw value with when they are handed
    the integer [n]: [n] scaled by [2^Q], and one more when the scaling goes
    through [rounded_] with a negative [n]. *)
Definition scaled_scalar (float_support : bool) (Q n : Z) : Z :=
  if float_support && (n <? 0) then n * 2 ^ Q + 1 else n * 2 ^ Q.

(** The comparisons of an integer [n] with the number [raw / 2^Q] that a
    raw value denotes, decided on exact integers: [n < raw / 2^Q] is
    [n * 2^Q < raw], and so on. *)
Definition scalar_lt (Q n raw : Z) : bool := n * 2 ^ Q <? raw.
Definition scalar_le (Q n raw : Z) : bool := n * 2 ^ Q <=? raw.
Definition scalar_ge (Q n raw : Z) : bool := raw <=? n * 2 ^ Q.
Definition scalar_gt (Q n raw : Z) : bool := raw <? n * 2 ^ Q.

(** The number of digits [d] of a fractional digit sequence, and the
    sequence read in base 10 and rescaled to [Q] fractional bits,
    [(2^Q * frac + 10^d/2) / 10^d]. *)
Definition frac_digits (frac : Decimal.uint) : Z :=
  Z.of_nat (Decimal.nb_digits frac).

Definition rescaled_fraction (Q : Z) (frac : Decimal.uint) : Z :=
  (2 ^ Q * decimal_value frac 0 + 10 ^ frac_digits frac / 2) / 10 ^ frac_digits frac.

(** A positive integer of at most 53 binary digits written with exactly 53:
    the mantissa of the [double] that holds it. *)
Definition norm_mant (p : positive) : positive :=
  Pos.shiftl_nat p (Z.to_nat (53 - Zpos (digits2_pos p))).

(** The mantissa [2^52] of a power of two. *)
Definition two52 : positive := Pos.shiftl_nat 1 52.

(** * Properties *)

(** ** Facts about the integer types *)

Lemma modulus_pos (D : DataType) : 0 < modulus D.
Proof. destruct D; reflexivity. Qed.

Lemma wrap_id (D : DataType) (z : Z) : in_range D z -> wrap D z = z.
Proof.
  unfold in_range, wrap, min_value, max_value, modulus.
  destruct D; cbn; intros H.
  - rewrite Z.mod_small; lia.
  - rewrite Z.mod_small; lia.
  - rewrite Z.mod_small; lia.
  - rewrite Z.mod_small; lia.
Qed.

Lemma wrap_in_range (D : DataType) (z : Z) : in_range D (wrap D z).
Proof.
  unfold in_range, wrap, min_value, max_value, modulus.
  destruct D; cbn.
  - pose proof (Z.mod_pos_bound (z + 2147483648) 4294967296 eq_refl); lia.
  - pose proof (Z.mod_pos_bound z 4294967296 eq_refl); lia.
  - pose proof (Z.mod_pos_bound (z + 9223372036854775808) 18446744073709551616 eq_refl); lia.
  - pose proof (Z.mod_pos_bound z 18446744073709551616 eq_refl); lia.
Qed.

Lemma wrap_wrap (D : DataType) (z : Z) : wrap D (wrap D z) = wrap D z.
Proof. apply wrap_id, wrap_in_range. Qed.

(** [wrap D] keeps the residue modulo [2^width]. *)
Lemma wrap_mod (D : DataType) (z : Z) : wrap D z mod modulus D = z mod modulus D.
Proof.
  unfold wrap. destruct (is_signed D) eqn:S.
  - assert (E : 2 * 2 ^ (width D - 1) = modulus D) by (destruct D; reflexivity).
    pose proof (modulus_pos D) as P.
    set (h := 2 ^ (width D - 1)) in *.
    rewrite Zminus_mod_idemp_l.
    replace (z + h - h) with z by lia. reflexivity.
  - apply Z.mod_mod. pose proof (modulus_pos D); lia.
Qed.

Lemma wrap_congr (D : DataType) (x y : Z) :
  x mod modulus D = y mod modulus D -> wrap D x = wrap D y.
Proof.
  intros E. unfold wrap. destruct (is_signed D).
  - assert (H : 2 * 2 ^ (width D - 1) = modulus D) by (destruct D; reflexivity).
    rewrite <- (Zplus_mod_idemp_l x), <- (Zplus_mod_idemp_l y), E. reflexivity.
  - exact E.
Qed.

Lemma in_rangeb_spec (D : DataType) (z : Z) : in_rangeb D z = true <-> in_range D z.
Proof. unfold in_rangeb, in_range. rewrite andb_true_iff, !Z.leb_le. tauto. Qed.

Lemma common_type_same (D : DataType) : common_type D D = D.
Proof. destruct D; reflexivity. Qed.

Lemma common_type_int_r (D : DataType) : common_type D TInt = D.
Proof. destruct D; reflexivity. Qed.

Lemma common_type_int_l (D : DataType) : common_type TInt D = D.
Proof. destruct D; reflexivity. Qed.

Lemma width_common_l (D D2 : DataType) : width D <= width (common_type D D2).
Proof. destruct D, D2; cbn; lia. Qed.

(** Reducing first to a type at least as wide changes nothing. *)
Lemma wrap_mod_wider (D T : DataType) (z : Z) :
  width D <= width T -> wrap T z mod modulus D = z mod modulus D.
Proof.
  intros W.
  assert (V : (modulus D | modulus T)).
  { exists (modulus T / modulus D).
    destruct D, T; cbn in W; try lia; reflexivity. }
  rewrite <- (Z.mod_mod_divide (wrap T z) (modulus T) (modulus D)) by assumption.
  rewrite wrap_mod.
  apply Z.mod_mod_divide; assumption.
Qed.

Lemma wrap_wider (D T : DataType) (z : Z) :
  width D <= width T -> wrap D (wrap T z) = wrap D z.
Proof. intros W. apply wrap_congr, wrap_mod_wider, W. Qed.

Lemma wrap_mul (D : DataType) (x y : Z) :
  wrap D (wrap D x * wrap D y) = wrap D (x * y).
Proof.
  apply wrap_congr. rewrite Zmult_mod, !wrap_mod, <- Zmult_mod. reflexivity.
Qed.

Lemma wrap_add (D : DataType) (x y : Z) :
  wrap D (wrap D x + wrap D y) = wrap D (x + y).
Proof.
  apply wrap_congr. rewrite Zplus_mod, !wrap_mod, <- Zplus_mod. reflexivity.
Qed.

Lemma width_bounds (D : DataType) : 32 <= width D <= 64.
Proof. destruct D; cbn; lia. Qed.

Lemma in_range_small (D : DataType) (z : Z) :
  0 <= z < 2 ^ 31 -> in_range D z.
Proof.
  unfold in_range, min_value, max_value. destruct D; cbn; lia.
Qed.

Lemma shiftr_in_range (D : DataType) (z n : Z) :
  0 <= n -> in_range D z -> in_range D (Z.shiftr z n).
Proof.
  intros N [L U]. rewrite Z.shiftr_div_pow2 by assumption.
  assert (P : 0 < 2 ^ n) by (apply Z.pow_pos_nonneg; lia).
  assert (min_value D <= 0 <= max_value D)
    by (unfold min_value, max_value; destruct D; cbn; lia).
  split.
  - destruct (Z_le_gt_dec 0 z).
    + pose proof (Z.div_pos z (2 ^ n) ltac:(lia) P). lia.
    + apply Z.div_le_lower_bound; [ assumption | nia ].
  - destruct (Z_le_gt_dec 0 z).
    + apply Z.div_le_upper_bound; [ assumption | nia ].
    + pose proof (Z.div_lt_upper_bound z (2 ^ n) 0 P ltac:(lia)). lia.
Qed.

(** The [unsigned] round trip of an [int] template argument. *)
Lemma to_int_to_unsigned (k : Z) : in_range TInt k -> to_int (to_unsigned k) = k.
Proof.
  intros H. unfold to_int, to_unsigned.
  rewrite (wrap_wider TInt TUInt) by (cbn; lia). apply wrap_id, H.
Qed.

Lemma c_shl_0 (c : cval) :
  c_shl c 0 = Some (CV (ty c) (wrap (ty c) (val c))).
Proof.
  unfold c_shl. pose proof (width_bounds (ty c)).
  replace (0 <=? 0) with true by reflexivity.
  replace (0 <? width (ty c)) with true by (symmetry; apply Z.ltb_lt; lia).
  rewrite Z.shiftl_0_r. reflexivity.
Qed.

(** [cQBits] is the template argument when that is not negative. *)
Lemma cQBits_eq (Q : Z) (D : DataType) (x : tFixedPoint Q D) :
  0 <= Q <= max_value TInt -> cQBits x = Q.
Proof.
  intros H. unfold cQBits, to_unsigned. apply wrap_id.
  unfold in_range. cbn in *. lia.
Qed.

(** [create] stores its argument, converted to [tValue]. *)
Lemma create_eq (Q : Z) (D : DataType) (c : cval) :
  in_range TInt Q ->
  @create Q D c = Some (FP (wrap D (val c))).
Proof.
  intros H. unfold create, ctor2.
  rewrite to_int_to_unsigned by assumption.
  rewrite Z.sub_diag, c_shl_0. cbn. rewrite wrap_wrap. reflexivity.
Qed.

Lemma c_shr_ok (c : cval) (n : Z) :
  0 <= n < width (ty c) ->
  c_shr c n = Some (CV (ty c) (Z.shiftr (val c) n)).
Proof.
  intros [L U]. unfold c_shr.
  apply Z.leb_le in L. apply Z.ltb_lt in U. rewrite L, U. reflexivity.
Qed.

Lemma c_shl_ok (c : cval) (n : Z) :
  0 <= n < width (ty c) ->
  c_shl c n = Some (CV (ty c) (wrap (ty c) (Z.shiftl (val c) n))).
Proof.
  intros [L U]. unfold c_shl.
  apply Z.leb_le in L. apply Z.ltb_lt in U. rewrite L, U. reflexivity.
Qed.

(** A division has a value when the divisor is not zero and the quotient is
    a value of the common type. *)
Lemma c_div_ok (a b : cval) :
  wrap (common_type (ty a) (ty b)) (val b) <> 0 ->
  in_range (common_type (ty a) (ty b))
           (Z.quot (wrap (common_type (ty a) (ty b)) (val a))
                   (wrap (common_type (ty a) (ty b)) (val b))) ->
  c_div a b
  = Some (CV (common_type (ty a) (ty b))
             (Z.quot (wrap (common_type (ty a) (ty b)) (val a))
                     (wrap (common_type (ty a) (ty b)) (val b)))).
Proof.
  intros NZ R. unfold c_div.
  apply Z.eqb_neq in NZ. rewrite NZ.
  apply in_rangeb_spec in R. rewrite R. reflexivity.
Qed.

(** The quotient of two values of a type, the divisor not zero, is a value
    of the type except for the minimum divided by [-1]. *)
Lemma quot_in_range (D : DataType) (x y : Z) :
  in_range D x -> in_range D y -> y <> 0 ->
  in_range D (Z.quot x y) <-> ~ (x = min_value D /\ y = -1).
Proof.
  intros Rx Ry NZ.
  pose proof (Z.quot_div x y NZ) as Q.
  pose proof (Z.div_mod (Z.abs x) (Z.abs y) ltac:(lia)) as DM.
  pose proof (Z.mod_pos_bound (Z.abs x) (Z.abs y) ltac:(lia)) as MB.
  assert (D0 : 0 <= Z.abs x / Z.abs y) by (apply Z.div_pos; lia).
  set (d := Z.abs x / Z.abs y) in *.
  assert (D1 : d <= Z.abs x) by nia.
  assert (D2 : 2 <= Z.abs y -> 2 * d <= Z.abs x) by nia.
  assert (D3 : Z.abs y = 1 -> d = Z.abs x) by nia.
  assert (S : Z.quot x y = d \/ Z.quot x y = - d).
  { rewrite Q. destruct (Z.sgn_spec x) as [[_ E] | [[_ E] | [_ E]]];
      destruct (Z.sgn_spec y) as [[_ F] | [[_ F] | [_ F]]]; rewrite E, F; lia. }
  assert (SN : y = -1 -> Z.quot x y = - x).
  { intros ->. change (-1) with (- (1)).
    rewrite Z.quot_opp_r, Z.quot_1_r by lia. reflexivity. }
  assert (S1 : y = 1 -> Z.quot x y = x) by (intros ->; apply Z.quot_1_r).
  unfold in_range, min_value, max_value in *.
  destruct D; cbn in Rx, Ry |- *; split; intros H; try lia.
Qed.

(** The division macro on two operands of one type [D], in closed form. *)
Lemma FIXEDPOINT_IMPL_DIVIDE_same (D : DataType) (A B : Z) :
  in_range D A -> in_range D B -> A <> 0 ->
  in_range D (Z.quot (wrap D (B + Z.shiftr A 1)) A) ->
  FIXEDPOINT_IMPL_DIVIDE (CV D A) (CV D B)
  = Some (CV D (Z.quot (wrap D (B + Z.shiftr A 1)) A)).
Proof.
  intros HA HB NZ HQ. unfold FIXEDPOINT_IMPL_DIVIDE.
  rewrite c_shr_ok by (pose proof (width_bounds D); cbv [ty]; lia).
  cbv [obind].
  assert (E : c_add (CV D B) (CV D (Z.shiftr A 1))
              = CV D (wrap D (B + Z.shiftr A 1))).
  { cbv [c_add arith ty val]. rewrite common_type_same.
    rewrite (wrap_id D B) by assumption.
    rewrite (wrap_id D (Z.shiftr A 1)) by (apply shiftr_in_range; [ lia | assumption ]).
    reflexivity. }
  cbv [ty val] in *. rewrite E.
  rewrite c_div_ok; cbv [ty val]; rewrite common_type_same, ?wrap_wrap, (wrap_id D A)
    by assumption; [ reflexivity | assumption | assumption ].
Qed.

(** ** Same-type division *)

(** C1 (amended). For two values [a] and [b] of one type, [a / b] is a
    plain [tValue] (no fractional bits) computed by the rounding rule with
    [A = a.qValue()] and [B = b.qValue()]: it is [(B + (A >> 1)) / A]
    evaluated in the storage type, provided [A] is not zero and the quotient
    is a value of the storage type. The quotient is one except when the sum
    is the minimum of a signed storage type and [A] is [-1]. When the sum is
    a value of the storage type as well, the result is the integer
    [(B + (A >> 1)) / A] itself, with the quotient truncated toward zero. *)
Theorem operator_div_same_type (Q : Z) (D : DataType) (a b : tFixedPoint Q D) :
  wf a -> wf b -> value_ a <> 0 ->
  (in_range D (Z.quot (wrap D (value_ b + Z.shiftr (value_ a) 1)) (value_ a))
   <-> ~ (wrap D (value_ b + Z.shiftr (value_ a) 1) = min_value D /\ value_ a = -1))
  /\ (in_range D (Z.quot (wrap D (value_ b + Z.shiftr (value_ a) 1)) (value_ a)) ->
      operator_div a b
      = Some (Z.quot (wrap D (value_ b + Z.shiftr (value_ a) 1)) (value_ a)))
  /\ (in_range D (value_ b + Z.shiftr (value_ a) 1) ->
      in_range D (Z.quot (value_ b + Z.shiftr (value_ a) 1) (value_ a)) ->
      operator_div a b
      = Some (Z.quot (value_ b + Z.shiftr (value_ a) 1) (value_ a))).
Proof.
  intros Ha Hb NZ.
  assert (E : in_range D (Z.quot (wrap D (value_ b + Z.shiftr (value_ a) 1)) (value_ a)) ->
              operator_div a b
              = Some (Z.quot (wrap D (value_ b + Z.shiftr (value_ a) 1)) (value_ a))).
  { intros R. unfold operator_div, qValue.
    rewrite FIXEDPOINT_IMPL_DIVIDE_same by assumption.
    cbv [obind convert val]. rewrite wrap_id by exact R. reflexivity. }
  split; [ | split; [ exact E | ] ].
  - apply quot_in_range; [ apply wrap_in_range | exact Ha | exact NZ ].
  - intros R1 R2. rewrite <- (wrap_id D (value_ b + _)) in R2 |- * by exact R1.
    apply E. exact R2.
Qed.

Lemma operator_div_same_type_witness :
  operator_div (FP 512 : tFixedPoint 8 TInt) (FP 1024 : tFixedPoint 8 TInt) = Some 2.
Proof.
  refine (proj2 (proj2 (operator_div_same_type 8 TInt (FP 512) (FP 1024) _ _ _)) _ _);
    unfold wf, in_range; cbn; lia.
Defined.

(** C1 as stated fails: with [A = -1] and [B = -2147483647] in an [int],
    [A] is not zero, yet [(B + (A >> 1)) / A] is [-2147483648 / -1], whose
    quotient is not a value of [int]: the division has no result. *)
Lemma operator_div_same_type_counterexample :
  wf (FP (-1) : tFixedPoint 8 TInt)
  /\ wf (FP (-2147483647) : tFixedPoint 8 TInt)
  /\ value_ (FP (-1) : tFixedPoint 8 TInt) <> 0
  /\ operator_div (FP (-1) : tFixedPoint 8 TInt) (FP (-2147483647)) = None.
Proof.
  repeat split; try reflexivity; vm_compute; discriminate.
Qed.

(** ** Cross-type multiplication *)

Lemma c_mul_val (D D2 : DataType) (A B : Z) :
  wrap D (val (c_mul (CV D A) (CV D2 B))) = wrap D (A * B).
Proof.
  cbv [c_mul arith ty val].
  pose proof (width_common_l D D2) as W.
  rewrite wrap_wider by assumption.
  apply wrap_congr.
  rewrite Zmult_mod, !wrap_mod_wider by assumption.
  symmetry. apply Zmult_mod.
Qed.

(** C4. The product [a * b] of a value with [p] fractional bits and a value
    of another fixed-point type with [q] fractional bits has [p + q]
    fractional bits; its raw value is the product of the two raw values,
    not rounded, held in the storage type of the left operand: it is the
    product reduced modulo [2^w], hence the exact product whenever that type
    can hold it. *)
Theorem operator_mul_cross_exact (p q : Z) (D D2 : DataType)
  (a : tFixedPoint p D) (b : tFixedPoint q D2) :
  0 <= p + q <= max_value TInt ->
  exists r : tFixedPoint (p + q) D,
    operator_mul_cross a b = Some r
    /\ cQBits r = p + q
    /\ value_ r = wrap D (value_ a * value_ b)
    /\ in_range D (value_ r)
    /\ value_ r mod 2 ^ width D = (value_ a * value_ b) mod 2 ^ width D
    /\ (in_range D (value_ a * value_ b) -> value_ r = value_ a * value_ b).
Proof.
  intros Hpq. exists (FP (wrap D (value_ a * value_ b))).
  split; [ | split; [ | split; [ reflexivity | split; [ | split ] ] ] ].
  - unfold operator_mul_cross, qValue.
    rewrite create_eq by (unfold in_range; cbn in *; lia).
    rewrite c_mul_val. reflexivity.
  - apply cQBits_eq, Hpq.
  - apply wrap_in_range.
  - apply (wrap_mod D).
  - intros R. cbn. apply wrap_id, R.
Qed.

Lemma operator_mul_cross_exact_witness :
  exists r : tFixedPoint (8 + 4) TInt,
    operator_mul_cross (FP 640 : tFixedPoint 8 TInt) (FP 24 : tFixedPoint 4 TInt) = Some r
    /\ cQBits r = 12
    /\ value_ r = 15360.
Proof.
  destruct (operator_mul_cross_exact 8 4 TInt TInt (FP 640) (FP 24)) as [r H].
  - cbn; lia.
  - exists r. destruct H as [H1 [H2 [H3 _]]].
    split; [ exact H1 | split; [ exact H2 | exact H3 ] ].
Defined.

(** ** Same-type multiplication *)

Lemma pow2_le_30 (n : Z) : 0 <= n <= 30 -> 0 < 2 ^ n <= 1073741824.
Proof.
  intros [L U]. split.
  - apply Z.pow_pos_nonneg; lia.
  - change 1073741824 with (2 ^ 30). apply Z.pow_le_mono_r; lia.
Qed.

(** The literal expression [1 << n] for a count the [int] can take. *)
Lemma one_shl (n : Z) :
  0 <= n <= 30 -> c_shl (CV TInt 1) n = Some (CV TInt (2 ^ n)).
Proof.
  intros H. rewrite c_shl_ok by (cbn; lia). cbv [ty val].
  rewrite Z.shiftl_1_l, wrap_id; [ reflexivity | ].
  pose proof (pow2_le_30 n H). unfold in_range; cbn; lia.
Qed.

(** The rounding macro in closed form, for a count between 1 and 31. *)
Lemma FIXEDPOINT_IMPL_ROUND_eq (D : DataType) (V d : Z) :
  1 <= d <= 31 ->
  FIXEDPOINT_IMPL_ROUND (CV D V) d
  = Some (CV D (Z.shiftr (wrap D (V + 2 ^ (d - 1))) d)).
Proof.
  intros Hd. unfold FIXEDPOINT_IMPL_ROUND.
  rewrite one_shl by lia. cbv [obind].
  rewrite c_shr_ok.
  - cbv [c_add arith ty val]. rewrite common_type_int_r, wrap_add. reflexivity.
  - cbv [c_add arith ty]. rewrite common_type_int_r.
    pose proof (width_bounds D). lia.
Qed.

(** C2 (amended). For two values of one type with [p] fractional bits,
    [1 <= p <= 31]: the compound [a *= b] keeps [p] fractional bits and its
    raw value is the rounding macro applied to the raw product,
    [((rawA * rawB) + 2^(p-1)) >> p] evaluated in the storage type; the
    binary [a * b] does not round: it has [p + p] fractional bits and its
    raw value is the raw product, reduced to the storage type. *)
Theorem operator_mul_same_type (p : Z) (D : DataType) (a b : tFixedPoint p D) :
  1 <= p <= 31 ->
  (exists r : tFixedPoint p D,
      operator_mul_assign a b = Some r
      /\ cQBits r = p
      /\ value_ r = Z.shiftr (wrap D (value_ a * value_ b + 2 ^ (p - 1))) p)
  /\ (exists r : tFixedPoint (p + p) D,
         operator_mul a b = Some r
         /\ cQBits r = p + p
         /\ value_ r = wrap D (value_ a * value_ b)).
Proof.
  intros Hp. split.
  - exists (FP (Z.shiftr (wrap D (value_ a * value_ b + 2 ^ (p - 1))) p)).
    split; [ | split; [ apply cQBits_eq; cbn; lia | reflexivity ] ].
    unfold operator_mul_assign, roundedBy_, qValue.
    assert (E : c_mul (CV D (value_ a)) (CV D (value_ b))
                = CV D (wrap D (value_ a * value_ b))).
    { cbv [c_mul arith ty val]. rewrite common_type_same, wrap_mul. reflexivity. }
    rewrite E, FIXEDPOINT_IMPL_ROUND_eq by assumption.
    cbv [obind convert val].
    rewrite <- (wrap_add D (wrap D _)), wrap_wrap, wrap_add.
    rewrite wrap_id; [ reflexivity | ].
    apply shiftr_in_range; [ lia | apply wrap_in_range ].
  - exists (FP (wrap D (value_ a * value_ b))).
    split; [ | split; [ apply cQBits_eq; cbn; lia | reflexivity ] ].
    unfold operator_mul, qValue.
    rewrite create_eq by (unfold in_range; cbn; lia).
    rewrite c_mul_val. reflexivity.
Qed.

Lemma operator_mul_same_type_witness :
  (exists r : tFixedPoint 4 TInt,
      operator_mul_assign (FP 24 : tFixedPoint 4 TInt) (FP 24) = Some r
      /\ cQBits r = 4 /\ value_ r = 36)
  /\ (exists r : tFixedPoint (4 + 4) TInt,
         operator_mul (FP 24 : tFixedPoint 4 TInt) (FP 24) = Some r
         /\ cQBits r = 8 /\ value_ r = 576).
Proof.
  apply (operator_mul_same_type 4 TInt (FP 24) (FP 24)). lia.
Defined.

(** C2 as stated fails for the binary operator: [1.0 * 1.0] at 4 fractional
    bits is the raw value 256 at 8 fractional bits, not the product rounded
    back to 4 fractional bits (raw value 16), which is what [a *= b] gives. *)
Lemma operator_mul_same_type_counterexample :
  option_map value_ (operator_mul (FP 16 : tFixedPoint 4 TInt) (FP 16)) = Some 256
  /\ option_map cQBits (operator_mul (FP 16 : tFixedPoint 4 TInt) (FP 16)) = Some 8
  /\ option_map value_ (operator_mul_assign (FP 16 : tFixedPoint 4 TInt) (FP 16)) = Some 16
  /\ option_map value_ (operator_mul (FP 16 : tFixedPoint 4 TInt) (FP 16))
     <> Some (Z.shiftr (16 * 16 + 2 ^ (4 - 1)) 4)
  /\ option_map cQBits (operator_mul (FP 16 : tFixedPoint 4 TInt) (FP 16)) <> Some 4.
Proof.
  repeat split; try reflexivity; vm_compute; discriminate.
Qed.

(** ** Cross-type division *)

Lemma common_type_assoc_l (D D2 : DataType) :
  common_type (common_type D2 D) D = common_type D D2.
Proof. destruct D, D2; reflexivity. Qed.

Lemma common_type_comm (D D2 : DataType) : common_type D2 D = common_type D D2.
Proof. destruct D, D2; reflexivity. Qed.

Lemma common_type_assoc_l_same (D D2 : DataType) :
  common_type (common_type D D2) D = common_type D D2.
Proof. destruct D, D2; reflexivity. Qed.

Lemma wrap_nonzero (D T : DataType) (A : Z) :
  width D <= width T -> in_range D A -> A <> 0 -> wrap T A <> 0.
Proof.
  intros W R NZ E.
  pose proof (wrap_mod T A) as M. rewrite E, Z.mod_0_l in M
    by (pose proof (modulus_pos T); lia).
  symmetry in M. apply Z.mod_divide in M; [ | pose proof (modulus_pos T); lia ].
  destruct M as [k M].
  unfold in_range, min_value, max_value in R.
  destruct D, T; cbn in *; lia.
Qed.

(** The division macro on operands of two types, in closed form. *)
Lemma FIXEDPOINT_IMPL_DIVIDE_eq (D D2 : DataType) (A B : Z) :
  in_range D A -> A <> 0 ->
  in_range (common_type D D2) (divide_rule (common_type D D2) A B) ->
  FIXEDPOINT_IMPL_DIVIDE (CV D A) (CV D2 B)
  = Some (CV (common_type D D2) (divide_rule (common_type D D2) A B)).
Proof.
  intros R NZ HQ. unfold FIXEDPOINT_IMPL_DIVIDE.
  rewrite c_shr_ok by (pose proof (width_bounds D); cbv [ty]; lia).
  cbv [obind]. unfold divide_rule in *.
  assert (N : wrap (common_type D D2) A <> 0)
    by (apply (wrap_nonzero D); [ apply width_common_l | | ]; assumption).
  assert (E : c_add (CV D2 B) (CV D (Z.shiftr A 1))
              = CV (common_type D D2)
                   (wrap (common_type D D2)
                         (wrap (common_type D D2) B
                          + wrap (common_type D D2) (Z.shiftr A 1)))).
  { cbv [c_add arith ty val]. rewrite (common_type_comm D D2). reflexivity. }
  cbv [ty val] in E |- *. rewrite E.
  rewrite c_div_ok; cbv [ty val]; rewrite common_type_assoc_l_same, ?wrap_wrap;
    [ reflexivity | exact N | exact HQ ].
Qed.

(** On two operands of one storage type the rule is the formula of C1. *)
Lemma divide_rule_same (D : DataType) (A B : Z) :
  in_range D A -> in_range D B ->
  divide_rule D A B = Z.quot (wrap D (B + Z.shiftr A 1)) A.
Proof.
  intros RA RB. unfold divide_rule.
  rewrite (wrap_id D A), (wrap_id D B) by assumption.
  rewrite (wrap_id D (Z.shiftr A 1)) by (apply shiftr_in_range; [ lia | assumption ]).
  reflexivity.
Qed.

(** C3 (amended). For [a] with [p] fractional bits and [b] of another
    fixed-point type with [q <= p] fractional bits, each division being one
    whose divisor is not zero and whose quotient is a value of the common
    type of the two storage types: the binary [a / b] has [p - q] fractional
    bits and applies the division rule to the two raw values as they are,
    [(rawB + (rawA >> 1)) / rawA], without shifting [rawA] first; the
    compound [a /= b], for [p - q] below the width of the storage type of
    [a], applies the rule to the pre-shifted value,
    [(rawB + ((rawA << (p-q)) >> 1)) / (rawA << (p-q))], and stores the
    result in [a], which keeps its [p] fractional bits. *)
Theorem operator_div_cross_rule (p q : Z) (D D2 : DataType)
  (a : tFixedPoint p D) (b : tFixedPoint q D2) :
  wf a -> 0 <= q <= p -> p <= max_value TInt ->
  (value_ a <> 0 ->
   in_range (common_type D D2)
            (divide_rule (common_type D D2) (value_ a) (value_ b)) ->
   exists r : tFixedPoint (p - q) D,
     operator_div_cross a b = Some r
     /\ cQBits r = p - q
     /\ value_ r = wrap D (divide_rule (common_type D D2) (value_ a) (value_ b)))
  /\ (p - q < width D ->
      wrap D (Z.shiftl (value_ a) (p - q)) <> 0 ->
      in_range (common_type D D2)
               (divide_rule (common_type D D2)
                            (wrap D (Z.shiftl (value_ a) (p - q))) (value_ b)) ->
      exists r : tFixedPoint p D,
        operator_div_assign_cross a b = Some r
        /\ cQBits r = p
        /\ value_ r = wrap D (divide_rule (common_type D D2)
                                          (wrap D (Z.shiftl (value_ a) (p - q)))
                                          (value_ b))).
Proof.
  intros Ha Hq Hp. split.
  - intros NZ HR.
    exists (FP (wrap D (divide_rule (common_type D D2) (value_ a) (value_ b)))).
    split; [ | split; [ apply cQBits_eq; lia | reflexivity ] ].
    unfold operator_div_cross, qValue.
    rewrite FIXEDPOINT_IMPL_DIVIDE_eq by assumption.
    cbv [obind]. rewrite create_eq by (unfold in_range; cbn in *; lia). reflexivity.
  - intros Hw NZ HR.
    exists (FP (wrap D (divide_rule (common_type D D2)
                                    (wrap D (Z.shiftl (value_ a) (p - q)))
                                    (value_ b)))).
    split; [ | split; [ apply cQBits_eq; lia | reflexivity ] ].
    unfold operator_div_assign_cross, qValue.
    rewrite c_shl_ok by (cbv [ty]; lia).
    cbv [obind ty val].
    rewrite FIXEDPOINT_IMPL_DIVIDE_eq by (try apply wrap_in_range; assumption).
    reflexivity.
Qed.

Lemma operator_div_cross_rule_witness :
  (exists r : tFixedPoint (8 - 4) TInt,
      operator_div_cross (FP 1 : tFixedPoint 8 TInt) (FP 100 : tFixedPoint 4 TInt) = Some r
      /\ cQBits r = 4 /\ value_ r = 100)
  /\ (exists r : tFixedPoint 8 TInt,
         operator_div_assign_cross (FP 1 : tFixedPoint 8 TInt) (FP 100 : tFixedPoint 4 TInt)
         = Some r
         /\ cQBits r = 8 /\ value_ r = 6).
Proof.
  destruct (operator_div_cross_rule 8 4 TInt TInt (FP 1) (FP 100)) as [H1 H2].
  - unfold wf, in_range; cbn; lia.
  - lia.
  - cbn; lia.
  - split.
    + apply H1; [ vm_compute; discriminate | apply in_rangeb_spec; reflexivity ].
    + apply H2; [ cbn; lia | vm_compute; discriminate | apply in_rangeb_spec; reflexivity ].
Defined.

(** C3 as stated fails for both operators. With [a] of raw value 1 at 8
    fractional bits and [b] of raw value 100 at 4 fractional bits, the
    pre-shifted rule gives [(100 + ((1 << 4) >> 1)) / (1 << 4) = 6]; the
    binary [a / b] returns raw value 100, and the compound [a /= b], which
    does return 6, leaves it in a value with 8 fractional bits, not 4. *)
Lemma operator_div_cross_counterexample :
  option_map value_
    (operator_div_cross (FP 1 : tFixedPoint 8 TInt) (FP 100 : tFixedPoint 4 TInt))
  = Some 100
  /\ Z.quot (100 + Z.shiftr (Z.shiftl 1 (8 - 4)) 1) (Z.shiftl 1 (8 - 4)) = 6
  /\ option_map value_
       (operator_div_cross (FP 1 : tFixedPoint 8 TInt) (FP 100 : tFixedPoint 4 TInt))
     <> Some (Z.quot (100 + Z.shiftr (Z.shiftl 1 (8 - 4)) 1) (Z.shiftl 1 (8 - 4)))
  /\ option_map cQBits
       (operator_div_assign_cross (FP 1 : tFixedPoint 8 TInt) (FP 100 : tFixedPoint 4 TInt))
     = Some 8
  /\ option_map cQBits
       (operator_div_assign_cross (FP 1 : tFixedPoint 8 TInt) (FP 100 : tFixedPoint 4 TInt))
     <> Some (8 - 4).
Proof.
  repeat split; try reflexivity; vm_compute; discriminate.
Qed.

(** ** Widening and narrowing *)

(** C6 (amended). For a value [v] with [p] fractional bits and [q > p]:
    when the widened raw value [rawV * 2^(q-p)] is a value of the storage
    type, [v.increasedTo<q>().truncatedTo<p>()] is [v] again. *)
Theorem increasedTo_truncatedTo (p q : Z) (D : DataType) (v : tFixedPoint p D) :
  in_range TInt p -> in_range TInt q -> 0 < q - p < width D ->
  wf v ->
  in_range D (value_ v * 2 ^ (q - p)) ->
  (w <- increasedTo q v ;; truncatedTo p w) = Some v.
Proof.
  intros Hp Hq Hd Hv Hfit. destruct v as [raw]. unfold wf in Hv. cbn in Hv, Hfit.
  unfold increasedTo, qValue. cbv [value_].
  rewrite c_shl_ok by (cbv [ty]; lia). cbv [obind ty val].
  rewrite create_eq by assumption. cbv [val].
  rewrite wrap_wrap, Z.shiftl_mul_pow2, (wrap_id D (raw * _)) by (assumption || lia).
  unfold truncatedTo, qValue. cbv [value_].
  rewrite c_shr_ok by (cbv [ty]; lia). cbv [obind ty val].
  rewrite create_eq by assumption. cbv [val].
  rewrite Z.shiftr_div_pow2, Z.div_mul by (try apply Z.pow_nonzero; lia).
  rewrite wrap_id by assumption. reflexivity.
Qed.

Lemma increasedTo_truncatedTo_witness :
  (w <- increasedTo 12 (FP (-588) : tFixedPoint 8 TInt) ;; truncatedTo 8 w)
  = Some (FP (-588)).
Proof.
  apply (increasedTo_truncatedTo 8 12 TInt (FP (-588)));
    unfold wf, in_range; cbn; lia.
Defined.

(** C6 as stated fails when widening overflows: the raw value [2^28] at 8
    fractional bits in an [unsigned] becomes [2^32 mod 2^32 = 0] at 12
    fractional bits, and narrowing returns 0. *)
Lemma increasedTo_truncatedTo_counterexample :
  (w <- increasedTo 12 (FP 268435456 : tFixedPoint 8 TUInt) ;; truncatedTo 8 w)
  = Some (FP 0)
  /\ (w <- increasedTo 12 (FP 268435456 : tFixedPoint 8 TUInt) ;; truncatedTo 8 w)
     <> Some (FP 268435456)
  /\ wf (FP 268435456 : tFixedPoint 8 TUInt).
Proof.
  split; [ reflexivity | split ].
  - vm_compute; discriminate.
  - unfold wf, in_range; cbn; lia.
Qed.

(** ** Rounding to a lower precision *)

(** C7 (amended). Take a value with [T + d] fractional bits, [1 <= d <= 31],
    whose remainder below the target precision [T] is exactly half a unit:
    its raw value is [k * 2^d + 2^(d-1)]. When [rawV + 2^(d-1)] is a value
    of the storage type, [roundedTo<T>()] returns [(rawV + 2^(d-1)) >> d],
    which is [k + 1], the upper of the two neighbours [k] and [k + 1]: the
    tie goes toward positive infinity whatever the sign of the value and the
    parity of [k]. So parity does not decide (an even [k] gives the odd
    [k + 1]) and a negative tie moves toward zero, not away from it. *)
Theorem roundedTo_half (T d : Z) (D : DataType) (v : tFixedPoint (T + d) D) (k : Z) :
  in_range TInt T -> 1 <= d <= 31 ->
  value_ v = k * 2 ^ d + 2 ^ (d - 1) ->
  in_range D (value_ v + 2 ^ (d - 1)) ->
  exists r : tFixedPoint T D,
    roundedTo T v = Some r
    /\ value_ r = Z.shiftr (value_ v + 2 ^ (d - 1)) d
    /\ value_ r = k + 1
    /\ k * 2 ^ d < value_ v < (k + 1) * 2 ^ d
    /\ (Z.even k = true -> Z.even (value_ r) = false)
    /\ (value_ v < 0 -> Z.abs (value_ r) < Z.abs k).
Proof.
  intros HT Hd Hraw Hfit.
  assert (P : 0 < 2 ^ (d - 1)) by (apply Z.pow_pos_nonneg; lia).
  assert (E2 : 2 ^ d = 2 * 2 ^ (d - 1)).
  { replace d with (Z.succ (d - 1)) at 1 by lia. apply Z.pow_succ_r; lia. }
  assert (S : Z.shiftr (value_ v + 2 ^ (d - 1)) d = k + 1).
  { rewrite Z.shiftr_div_pow2 by lia.
    replace (value_ v + 2 ^ (d - 1)) with ((k + 1) * 2 ^ d) by lia.
    apply Z.div_mul. lia. }
  exists (FP (k + 1)).
  split; [ | split; [ | split; [ reflexivity | split; [ | split ] ] ] ].
  - unfold roundedTo, qValue.
    replace (T + d - T) with d by lia.
    rewrite FIXEDPOINT_IMPL_ROUND_eq by assumption. cbv [obind].
    rewrite create_eq by assumption. cbv [val].
    rewrite (wrap_id D (value_ v + _)) by assumption.
    rewrite S. rewrite wrap_id; [ reflexivity | ].
    rewrite <- S. apply shiftr_in_range; [ lia | assumption ].
  - cbn. symmetry. exact S.
  - lia.
  - cbn. intros Ev. rewrite Z.even_add, Ev. reflexivity.
  - cbn. intros Neg. assert (k < 0) by nia. lia.
Qed.

Lemma roundedTo_half_witness :
  exists r : tFixedPoint 4 TInt,
    roundedTo 4 (FP (-24) : tFixedPoint (4 + 4) TInt) = Some r
    /\ value_ r = -1.
Proof.
  destruct (roundedTo_half 4 4 TInt (FP (-24)) (-2)) as [r H].
  - unfold in_range; cbn; lia.
  - lia.
  - reflexivity.
  - unfold in_range; cbn; lia.
  - exists r. destruct H as [H1 [_ [H3 _]]]. split; [ exact H1 | exact H3 ].
Defined.

(** C7 as stated fails in two ways. The largest [unsigned] at 1 fractional
    bit is the tie [2147483647.5]; adding the bias wraps to 0 and
    [roundedTo<0>()] returns 0, not [2147483648], although an [unsigned]
    holds that number. And a positive tie does round away from zero, and onto
    an even number when [k] is odd: [1.5] at 8 fractional bits rounds to
    [2] at 4 fractional bits. *)
Lemma roundedTo_half_counterexample :
  (value_ (FP 4294967295 : tFixedPoint (0 + 1) TUInt) = 2147483647 * 2 ^ 1 + 2 ^ (1 - 1)
   /\ option_map value_ (roundedTo 0 (FP 4294967295 : tFixedPoint (0 + 1) TUInt)) = Some 0
   /\ option_map value_ (roundedTo 0 (FP 4294967295 : tFixedPoint (0 + 1) TUInt))
      <> Some (2147483647 + 1)
   /\ in_range TUInt (2147483647 + 1))
  /\ (value_ (FP 24 : tFixedPoint (4 + 4) TInt) = 1 * 2 ^ 4 + 2 ^ (4 - 1)
      /\ option_map value_ (roundedTo 4 (FP 24 : tFixedPoint (4 + 4) TInt)) = Some 2
      /\ Z.even 2 = true
      /\ Z.abs (1 * 2 ^ 4 + 2 ^ (4 - 1)) < Z.abs (2 * 2 ^ 4)).
Proof.
  repeat split; try reflexivity; try (vm_compute; discriminate);
    unfold in_range; cbn; lia.
Qed.

(** The bias [1 << (d-1)] and the mask [(1 << QBits) - 1] are [int]
    expressions whatever the storage type. With 64-bit storage and 32 bits or
    more to drop or to mask they are not the powers of two the wider type
    would need: at [d = 32] the bias is [INT_MIN] and the tie [0.5] rounds
    to 0, and [1 << 36] has no value. The statements about rounding and
    about the fractional part below therefore bound the count by 31. *)
Example roundedTo_int_bias :
  option_map value_ (roundedTo 4 (FP 2147483648 : tFixedPoint (4 + 32) TLongLong))
  = Some 0.
Proof. reflexivity. Qed.

Example frac_mask_int_literal : @frac_mask 36 = None.
Proof. reflexivity. Qed.

(** ** Integer and fractional parts *)

Lemma pow2_divides_modulus (D : DataType) (Q : Z) :
  0 <= Q <= 31 -> (2 ^ Q | modulus D).
Proof.
  intros H. exists (2 ^ (width D - Q)). unfold modulus.
  rewrite <- Z.pow_add_r by (pose proof (width_bounds D); lia).
  f_equal. lia.
Qed.

Lemma wrap_mod_pow2 (D : DataType) (Q z : Z) :
  0 <= Q <= 31 -> wrap D z mod 2 ^ Q = z mod 2 ^ Q.
Proof.
  intros H. pose proof (pow2_divides_modulus D Q H) as V.
  rewrite <- (Z.mod_mod_divide (wrap D z) (modulus D) (2 ^ Q)) by assumption.
  rewrite wrap_mod. apply Z.mod_mod_divide; assumption.
Qed.

Lemma pow2_le_31 (n : Z) : 0 <= n <= 31 -> 0 < 2 ^ n <= 2147483648.
Proof.
  intros [L U]. split.
  - apply Z.pow_pos_nonneg; lia.
  - change 2147483648 with (2 ^ 31). apply Z.pow_le_mono_r; lia.
Qed.

(** The mask [(1 << QBits) - 1] has the low [QBits] bits set. *)
Lemma frac_mask_eq (Q : Z) :
  0 <= Q <= 31 -> @frac_mask Q = Some (CV TInt (2 ^ Q - 1)).
Proof.
  intros H. unfold frac_mask.
  destruct (Z.eq_dec Q 31) as [-> | N]; [ reflexivity | ].
  rewrite one_shl by lia. cbv [obind c_sub arith ty val common_type].
  pose proof (pow2_le_30 Q ltac:(lia)).
  rewrite (wrap_id TInt (2 ^ Q)), (wrap_id TInt 1), wrap_id;
    [ reflexivity | | | ]; unfold in_range; cbn; lia.
Qed.

Lemma land_mask (z Q : Z) : 0 <= Q -> Z.land z (2 ^ Q - 1) = z mod 2 ^ Q.
Proof.
  intros H. rewrite <- Z.land_ones by assumption.
  rewrite Z.ones_equiv. reflexivity.
Qed.

Lemma c_ge_zero (D : DataType) (z : Z) :
  in_range D z -> c_ge (CV D z) (CV TInt 0) = (0 <=? z).
Proof.
  intros R. cbv [c_ge compare_with ty val].
  rewrite common_type_int_r, (wrap_id D z) by assumption.
  rewrite (wrap_id D 0) by (apply in_range_small; lia).
  rewrite Z.geb_leb. reflexivity.
Qed.

Lemma negative_is_signed (D : DataType) (z : Z) :
  in_range D z -> z < 0 -> is_signed D = true.
Proof.
  unfold in_range, min_value. destruct D; cbn; intros; trivial; lia.
Qed.

Lemma in_range_small_neg (D : DataType) (z : Z) :
  is_signed D = true -> - 2 ^ 31 <= z < 2 ^ 31 -> in_range D z.
Proof.
  unfold in_range, min_value, max_value. destruct D; cbn; intros; try discriminate; lia.
Qed.

(** [c_and] of a storage value with the fractional mask. *)
Lemma c_and_mask (D : DataType) (Q z : Z) :
  0 <= Q <= 31 ->
  c_and (CV D z) (CV TInt (2 ^ Q - 1)) = CV D (z mod 2 ^ Q).
Proof.
  intros H. pose proof (pow2_le_31 Q H) as P.
  cbv [c_and arith ty val]. rewrite common_type_int_r.
  rewrite (wrap_id D (2 ^ Q - 1)) by (apply in_range_small; lia).
  rewrite land_mask, wrap_mod_pow2 by lia.
  rewrite wrap_id; [ reflexivity | ].
  apply in_range_small. pose proof (Z.mod_pos_bound z (2 ^ Q)). lia.
Qed.

Lemma intPart_eq (Q : Z) (D : DataType) (v : tFixedPoint Q D) :
  0 <= Q <= 31 -> wf v -> intPart v = Some (value_ v / 2 ^ Q).
Proof.
  intros H R. unfold intPart, qValue.
  rewrite c_shr_ok by (pose proof (width_bounds D); cbv [ty]; lia).
  cbv [obind convert val].
  rewrite wrap_id by (apply shiftr_in_range; [ lia | exact R ]).
  rewrite Z.shiftr_div_pow2 by lia. reflexivity.
Qed.

Lemma fracPart_eq (Q : Z) (D : DataType) (v : tFixedPoint Q D) :
  0 <= Q <= 31 -> wf v ->
  fracPart v = Some (if 0 <=? value_ v
                     then value_ v mod 2 ^ Q
                     else - ((- value_ v) mod 2 ^ Q)).
Proof.
  intros H R. unfold fracPart, qValue.
  rewrite frac_mask_eq by assumption. cbv [obind].
  rewrite c_ge_zero by exact R.
  pose proof (pow2_le_31 Q H) as P.
  destruct (0 <=? value_ v) eqn:S.
  - rewrite c_and_mask by assumption. cbv [convert val].
    rewrite wrap_id; [ reflexivity | ].
    apply in_range_small. pose proof (Z.mod_pos_bound (value_ v) (2 ^ Q)). lia.
  - apply Z.leb_gt in S.
    pose proof (negative_is_signed D _ R S) as Sg.
    cbv [c_neg ty val]. rewrite c_and_mask by assumption. cbv [convert ty val].
    rewrite wrap_mod_pow2 by assumption.
    pose proof (Z.mod_pos_bound (- value_ v) (2 ^ Q)).
    rewrite wrap_wrap, wrap_id; [ reflexivity | ].
    apply in_range_small_neg; [ assumption | lia ].
Qed.

(** X24. For a value with [0 <= QBits <= 31] fractional bits,
    [intPart() * 2^QBits + fracPart() == qValue()] holds exactly when the
    raw value is non-negative or its low [QBits] bits are zero; for a
    negative value with a nonzero fractional part the sum is
    [qValue() - 2^QBits]: [intPart()] is the floor of [rawV / 2^QBits] and
    [fracPart()] is the remainder of the magnitude with the sign of the
    value. *)
Theorem intPart_fracPart_sum (Q : Z) (D : DataType) (v : tFixedPoint Q D) :
  0 <= Q <= 31 -> wf v ->
  exists i f : Z,
    intPart v = Some i
    /\ fracPart v = Some f
    /\ i = value_ v / 2 ^ Q
    /\ (0 <= value_ v -> 0 <= f) /\ (value_ v < 0 -> f <= 0)
    /\ (i * 2 ^ Q + f = value_ v
        <-> (0 <= value_ v \/ Z.land (value_ v) (2 ^ Q - 1) = 0))
    /\ (value_ v < 0 -> Z.land (value_ v) (2 ^ Q - 1) <> 0 ->
        i * 2 ^ Q + f = value_ v - 2 ^ Q).
Proof.
  intros H R.
  exists (value_ v / 2 ^ Q).
  exists (if 0 <=? value_ v then value_ v mod 2 ^ Q else - ((- value_ v) mod 2 ^ Q)).
  split; [ apply intPart_eq; assumption | ].
  split; [ apply fracPart_eq; assumption | ].
  split; [ reflexivity | ].
  rewrite land_mask by lia.
  pose proof (pow2_le_31 Q H) as P.
  pose proof (Z.div_mod (value_ v) (2 ^ Q) ltac:(lia)) as DM.
  pose proof (Z.mod_pos_bound (value_ v) (2 ^ Q) ltac:(lia)) as B.
  pose proof (Z.mod_pos_bound (- value_ v) (2 ^ Q) ltac:(lia)) as B'.
  destruct (0 <=? value_ v) eqn:S.
  - apply Z.leb_le in S. repeat split; intros; try lia.
  - apply Z.leb_gt in S.
    destruct (Z.eq_dec (value_ v mod 2 ^ Q) 0) as [Z0 | NZ].
    + assert (O : (- value_ v) mod 2 ^ Q = 0)
        by (apply Z.mod_opp_l_z; [ lia | exact Z0 ]).
      rewrite O in *. repeat split; intros; try lia.
    + assert (O : (- value_ v) mod 2 ^ Q = 2 ^ Q - value_ v mod 2 ^ Q)
        by (apply Z.mod_opp_l_nz; [ lia | exact NZ ]).
      rewrite O in *. repeat split; intros; try lia.
Qed.

Lemma intPart_fracPart_sum_witness :
  exists i f : Z,
    intPart (FP (-5) : tFixedPoint 8 TInt) = Some i
    /\ fracPart (FP (-5) : tFixedPoint 8 TInt) = Some f
    /\ i * 2 ^ 8 + f = -5 - 2 ^ 8.
Proof.
  destruct (intPart_fracPart_sum 8 TInt (FP (-5))) as [i [f H]].
  - lia.
  - unfold wf, in_range; cbn; lia.
  - exists i, f. destruct H as [H1 [H2 [_ [_ [_ [_ H7]]]]]].
    split; [ exact H1 | split; [ exact H2 | ] ].
    apply H7; [ cbn; lia | vm_compute; discriminate ].
Defined.

(** C9. The mask of [fracPart()] is the [int] expression [(1 << QBits) - 1]
    whatever the storage type, where [truncated_], [rounded_] and [toDouble]
    shift [tValue(1)]. With 32 fractional bits or more, which 64-bit storage
    allows ([tFixedPoint<36,long long>]), the shift count is not below the
    width of [int]: [fracPart()] and [absFracPart()] have no value, so the
    sum [intPart() * 2^QBits + fracPart()] cannot be formed, while
    [intPart()] is the floor of [rawV / 2^QBits] as for fewer bits. *)
Theorem fracPart_int_mask (Q : Z) (D : DataType) (v : tFixedPoint Q D) :
  32 <= Q < width D -> wf v ->
  fracPart v = None
  /\ absFracPart v = None
  /\ intPart v = Some (value_ v / 2 ^ Q).
Proof.
  intros HQ W.
  assert (M : @frac_mask Q = None).
  { unfold frac_mask, c_shl. cbv [ty].
    replace (Q <? width TInt) with false by (symmetry; apply Z.ltb_ge; cbn; lia).
    rewrite andb_false_r. reflexivity. }
  split; [ | split ].
  - unfold fracPart. rewrite M. reflexivity.
  - unfold absFracPart. rewrite M. reflexivity.
  - unfold intPart, qValue.
    rewrite c_shr_ok by (cbv [ty]; lia). cbv [obind convert ty val].
    rewrite wrap_id by (apply shiftr_in_range; [ lia | exact W ]).
    rewrite Z.shiftr_div_pow2 by lia. reflexivity.
Qed.

Lemma fracPart_int_mask_witness :
  fracPart (FP 103079215104 : tFixedPoint 36 TLongLong) = None
  /\ absFracPart (FP 103079215104 : tFixedPoint 36 TLongLong) = None
  /\ intPart (FP 103079215104 : tFixedPoint 36 TLongLong) = Some (103079215104 / 2 ^ 36).
Proof.
  apply (fracPart_int_mask 36 TLongLong (FP 103079215104));
    [ cbn; lia | unfold wf, in_range; cbn; lia ].
Defined.

(** ** Termination of [fracPlaces] *)

Lemma absFracPart_bound (Q : Z) (D : DataType) (v : tFixedPoint Q D) :
  0 <= Q <= 31 ->
  exists f : Z, absFracPart v = Some f /\ 0 <= f < 2 ^ Q.
Proof.
  intros H. pose proof (pow2_le_31 Q H) as P.
  exists (absolute v mod 2 ^ Q).
  pose proof (Z.mod_pos_bound (absolute v) (2 ^ Q) ltac:(lia)) as B.
  split; [ | exact B ].
  unfold absFracPart. rewrite frac_mask_eq by assumption. cbv [obind].
  rewrite c_and_mask by assumption. cbv [convert val].
  rewrite wrap_id; [ reflexivity | apply in_range_small; lia ].
Qed.

(** The bit of weight [2^j] of a number below [2^(j+1)]. *)
Lemma land_top_bit (x j : Z) :
  0 <= j -> 0 <= x < 2 ^ (j + 1) ->
  Z.land x (2 ^ j) = if x <? 2 ^ j then 0 else 2 ^ j.
Proof.
  intros Hj Hx.
  assert (P : 0 < 2 ^ j) by (apply Z.pow_pos_nonneg; lia).
  assert (E : 2 ^ (j + 1) = 2 * 2 ^ j) by (rewrite Z.pow_add_r by lia; lia).
  apply Z.bits_inj'. intros n Hn.
  rewrite Z.land_spec, Z.pow2_bits_eqb by assumption.
  destruct (x <? 2 ^ j) eqn:C.
  - apply Z.ltb_lt in C. rewrite Z.bits_0.
    destruct (Z.eqb_spec j n) as [<- | N]; [ | apply andb_false_r ].
    rewrite andb_true_r. apply Z.testbit_false; [ assumption | ].
    rewrite Z.div_small by lia. reflexivity.
  - apply Z.ltb_ge in C. rewrite Z.pow2_bits_eqb by assumption.
    destruct (Z.eqb_spec j n) as [<- | N]; [ | apply andb_false_r ].
    rewrite andb_true_r. apply Z.testbit_true; [ assumption | ].
    replace (x / 2 ^ j) with 1; [ reflexivity | ].
    apply Z.div_unique with (x - 2 ^ j); lia.
Qed.

(** One pass of the loop, started with [frac] below [2 * mask], clears the
    bit of [frac] the mask selects and halves the mask. *)
Lemma loop_body_step (D : DataType) (s : loop_state) (j : Z) :
  0 <= j <= 30 ->
  ls_mask s = 2 ^ j ->
  0 <= ls_frac s < 2 ^ (j + 1) ->
  exists s' : loop_state,
    @loop_body D s = Some s'
    /\ ls_mask s' = Z.shiftr (2 ^ j) 1
    /\ 0 <= ls_frac s' < 2 ^ j.
Proof.
  intros Hj Hm Hf.
  pose proof (pow2_le_30 j Hj) as P.
  assert (E : 2 ^ (j + 1) = 2 * 2 ^ j) by (rewrite Z.pow_add_r by lia; lia).
  unfold loop_body.
  rewrite !c_shr_ok by (pose proof (width_bounds D); cbv [ty]; cbn; lia).
  cbv [obind]. eexists. split; [ reflexivity | ].
  cbv [ls_mask ls_frac val]. fold (ls_mask s) (ls_frac s).
  split; [ rewrite Hm; reflexivity | ].
  cbv [c_and c_sub arith ty val convert]. rewrite common_type_same.
  rewrite Hm.
  rewrite (wrap_id D (ls_frac s)) by (apply in_range_small; lia).
  rewrite (wrap_id D (2 ^ j)) by (apply in_range_small; lia).
  rewrite land_top_bit by lia.
  destruct (ls_frac s <? 2 ^ j) eqn:C.
  - apply Z.ltb_lt in C.
    rewrite (wrap_id D 0) by (apply in_range_small; lia).
    cbn. lia.
  - apply Z.ltb_ge in C.
    rewrite (wrap_id D (2 ^ j)) by (apply in_range_small; lia).
    replace (2 ^ j =? 0) with false by (symmetry; apply Z.eqb_neq; lia).
    cbn [negb val].
    rewrite !wrap_id by (try rewrite wrap_id; apply in_range_small; lia).
    lia.
Qed.

(** The loop ends within [n] passes when [frac] is below [2^n] and the mask
    is [2^n >> 1]. *)
Lemma fracPlaces_loop_ends (D : DataType) (n : nat) :
  forall (fuel : nat) (s : loop_state),
    (n <= fuel)%nat -> Z.of_nat n <= 31 ->
    ls_mask s = Z.shiftr (2 ^ Z.of_nat n) 1 ->
    0 <= ls_frac s < 2 ^ Z.of_nat n ->
    exists (s' : loop_state) (k : nat),
      @fracPlaces_loop D fuel s = Some (s', k)
      /\ (k <= n)%nat
      /\ ls_frac s' = 0.
Proof.
  induction n as [ | n IH ]; intros fuel s Hfuel Hn Hm Hf.
  - assert (Z0 : ls_frac s = 0) by (cbn in Hf; lia).
    exists s, O. split; [ | split; [ lia | exact Z0 ] ].
    destruct fuel; cbn; rewrite Z0; reflexivity.
  - destruct (Z.eq_dec (ls_frac s) 0) as [Z0 | NZ].
    + exists s, O. split; [ | split; [ lia | exact Z0 ] ].
      destruct fuel; cbn; rewrite Z0; reflexivity.
    + destruct fuel as [ | fuel ]; [ lia | ].
      assert (Mj : Z.shiftr (2 ^ Z.of_nat (S n)) 1 = 2 ^ Z.of_nat n).
      { rewrite Z.shiftr_div_pow2 by lia.
        rewrite Nat2Z.inj_succ, Z.pow_succ_r by lia.
        change (2 ^ 1) with 2. rewrite Z.mul_comm. apply Z.div_mul. lia. }
      rewrite Mj in Hm.
      destruct (loop_body_step D s (Z.of_nat n)) as [s1 [B [M1 F1]]];
        [ lia | exact Hm | | ].
      { replace (Z.of_nat n + 1) with (Z.of_nat (S n)) by lia. exact Hf. }
      destruct (IH fuel s1) as [s' [k [L [K F]]]]; [ lia | lia | exact M1 | exact F1 | ].
      exists s', (S k).
      split; [ | split; [ lia | exact F ] ].
      cbn [fracPlaces_loop].
      apply Z.eqb_neq in NZ. rewrite NZ, B. cbv [obind]. rewrite L. reflexivity.
Qed.

(** X25. For a value with [1 <= QBits <= 31] fractional bits and any
    [decimals], [fracPlaces(decimals)] returns: [frac] starts at
    [absFracPart()], which is below [2^QBits], and the loop reaches
    [frac == 0] after at most [QBits] passes, so any fuel of at least
    [QBits] runs the method to its result. *)
Theorem fracPlaces_terminates (Q : Z) (D : DataType) (v : tFixedPoint Q D)
  (decimals : Z) (fuel : nat) :
  1 <= Q <= 31 -> (Z.to_nat Q <= fuel)%nat ->
  (exists f : Z, absFracPart v = Some f /\ 0 <= f < 2 ^ Q)
  /\ (exists (s0 s' : loop_state) (k : nat),
         fracPlaces_init v decimals = Some s0
         /\ @fracPlaces_loop D fuel s0 = Some (s', k)
         /\ ls_frac s' = 0
         /\ Z.of_nat k <= Q)
  /\ (exists (r : Z) (k : nat),
         fracPlaces fuel v decimals = Some (r, k) /\ Z.of_nat k <= Q).
Proof.
  intros HQ Hfuel.
  destruct (absFracPart_bound Q D v ltac:(lia)) as [f [Ef Bf]].
  split; [ exists f; split; assumption | ].
  assert (Init : exists dq : Z,
             fracPlaces_init v decimals = Some (LS f (2 ^ (Q - 1)) dq 0)).
  { unfold fracPlaces_init. rewrite Ef. cbv [obind].
    rewrite (one_shl (cXBits - 1)) by (cbv [cXBits]; lia).
    rewrite (one_shl (Q - 1)) by lia.
    eexists. cbv [convert val].
    rewrite (wrap_id D (2 ^ (Q - 1)));
      [ reflexivity | apply in_range_small; pose proof (pow2_le_30 (Q - 1)); lia ]. }
  destruct Init as [dq Init].
  destruct (fracPlaces_loop_ends D (Z.to_nat Q) fuel (LS f (2 ^ (Q - 1)) dq 0))
    as [s' [k [L [K F]]]].
  - exact Hfuel.
  - lia.
  - cbn [ls_mask]. rewrite Z2Nat.id by lia.
    rewrite Z.shiftr_div_pow2 by lia. change (2 ^ 1) with 2.
    replace (2 ^ Q) with (2 ^ (Q - 1) * 2).
    + symmetry. apply Z.div_mul. lia.
    + replace Q with (Z.succ (Q - 1)) at 2 by lia. rewrite Z.pow_succ_r by lia. lia.
  - cbn [ls_frac]. rewrite Z2Nat.id by lia. exact Bf.
  - split.
    + exists (LS f (2 ^ (Q - 1)) dq 0), s', k.
      split; [ exact Init | split; [ exact L | split; [ exact F | lia ] ] ].
    + unfold fracPlaces. rewrite Init. cbv [obind]. rewrite L.
      rewrite (one_shl (cXBits - 1)) by (cbv [cXBits]; lia).
      rewrite c_shr_ok.
      * eexists. exists k. split; [ reflexivity | lia ].
      * cbv [c_add arith ty cXBits]. rewrite common_type_int_r.
        pose proof (width_bounds D). lia.
Qed.

Lemma fracPlaces_terminates_witness :
  exists (r : Z) (k : nat),
    fracPlaces 8 (FP 808 : tFixedPoint 8 TInt) 3 = Some (r, k) /\ Z.of_nat k <= 8.
Proof.
  apply (fracPlaces_terminates 8 TInt (FP 808) 3 8); [ lia | cbn; lia ].
Defined.

(** C10. [fracPlaces] starts from [absFracPart()], whose mask is the [int]
    expression [(1 << QBits) - 1], and from [mask = 1 << (QBits - 1)],
    another [int] shift. With 32 fractional bits or more
    ([tFixedPoint<36,long long>]) the first shift count is not below the
    width of [int], so the call has no value, however many passes of the
    loop are allowed. *)
Theorem fracPlaces_int_mask (Q : Z) (D : DataType) (v : tFixedPoint Q D)
  (decimals : Z) (fuel : nat) :
  32 <= Q ->
  @frac_mask Q = None
  /\ absFracPart v = None
  /\ fracPlaces fuel v decimals = None.
Proof.
  intros HQ.
  assert (M : @frac_mask Q = None).
  { unfold frac_mask, c_shl. cbv [ty].
    replace (Q <? width TInt) with false by (symmetry; apply Z.ltb_ge; cbn; lia).
    rewrite andb_false_r. reflexivity. }
  assert (A : absFracPart v = None) by (unfold absFracPart; rewrite M; reflexivity).
  split; [ exact M | split; [ exact A | ] ].
  unfold fracPlaces, fracPlaces_init. rewrite A. reflexivity.
Qed.

Lemma fracPlaces_int_mask_witness :
  @frac_mask 36 = None
  /\ absFracPart (FP 103079215104 : tFixedPoint 36 TLongLong) = None
  /\ fracPlaces 64 (FP 103079215104 : tFixedPoint 36 TLongLong) 3 = None.
Proof.
  apply (fracPlaces_int_mask 36 TLongLong (FP 103079215104) 3 64). lia.
Defined.

(** ** Conversion of an integer through [double] *)

(** The [double] arithmetic of [rounded_] is exact on the integers the
    library meets: what follows computes [rounded_( n )] for an integer [n]
    from the definition of IEEE 754 rounding. *)

Lemma digits2_pos_bounds (p : positive) :
  2 ^ (Zpos (digits2_pos p) - 1) <= Zpos p < 2 ^ Zpos (digits2_pos p).
Proof.
  induction p as [ p IH | p IH | ]; cbn [digits2_pos].
  - rewrite Pos2Z.inj_succ.
    replace (Z.succ (Zpos (digits2_pos p)) - 1) with (Z.succ (Zpos (digits2_pos p) - 1)) by lia.
    rewrite !Z.pow_succ_r by lia. lia.
  - rewrite Pos2Z.inj_succ.
    replace (Z.succ (Zpos (digits2_pos p)) - 1) with (Z.succ (Zpos (digits2_pos p) - 1)) by lia.
    rewrite !Z.pow_succ_r by lia. lia.
  - cbn. lia.
Qed.

Lemma digits2_pos_unique (p : positive) (d : Z) :
  2 ^ (d - 1) <= Zpos p < 2 ^ d -> Zpos (digits2_pos p) = d.
Proof.
  intros [L U]. pose proof (digits2_pos_bounds p) as [L' U'].
  assert (0 < d).
  { destruct (Z_lt_le_dec 0 d); [ assumption | ].
    assert (2 ^ d <= 2 ^ 0) by (destruct (Z.eq_dec d 0) as [-> | ]; [ lia | rewrite Z.pow_neg_r by lia; cbn; lia ]).
    cbn in *. lia. }
  set (g := Zpos (digits2_pos p)) in *.
  assert (g - 1 < d) by (apply (Z.pow_lt_mono_r_iff 2); lia).
  assert (d - 1 < g) by (apply (Z.pow_lt_mono_r_iff 2); lia).
  lia.
Qed.

Lemma iter_pos_iter {A : Type} (f : A -> A) (p : positive) :
  forall x, iter_pos f p x = Pos.iter f x p.
Proof.
  induction p as [ p IH | p IH | ]; intros x; cbn [iter_pos Pos.iter].
  - rewrite !IH, !Pos.iter_swap. reflexivity.
  - rewrite !IH. reflexivity.
  - reflexivity.
Qed.

Lemma shiftl_nat_Z (m : positive) (k : nat) :
  Zpos (Pos.shiftl_nat m k) = Zpos m * 2 ^ Z.of_nat k.
Proof.
  induction k as [ | k IH ].
  - cbn. lia.
  - rewrite Nat2Z.inj_succ, Z.pow_succ_r by lia.
    change (Pos.shiftl_nat m (S k)) with (xO (Pos.shiftl_nat m k)).
    rewrite Pos2Z.inj_xO, IH. lia.
Qed.

Lemma shiftl_nat_digits (m : positive) (k : nat) :
  Zpos (digits2_pos (Pos.shiftl_nat m k)) = Zpos (digits2_pos m) + Z.of_nat k.
Proof.
  induction k as [ | k IH ].
  - cbn [Pos.shiftl_nat nat_rect]. lia.
  - change (Pos.shiftl_nat m (S k)) with (xO (Pos.shiftl_nat m k)).
    cbn [digits2_pos]. rewrite Pos2Z.inj_succ, IH. lia.
Qed.

Lemma shr_exact (m : positive) (k : nat) :
  Nat.iter k shr_1 (Build_shr_record (Zpos (Pos.shiftl_nat m k)) false false)
  = Build_shr_record (Zpos m) false false.
Proof.
  induction k as [ | k IH ].
  - reflexivity.
  - rewrite Nat.iter_succ_r.
    change (Pos.shiftl_nat m (S k)) with (xO (Pos.shiftl_nat m k)).
    cbn [shr_1 orb]. exact IH.
Qed.

Lemma shr_shift (m : positive) (k : nat) (e : Z) :
  shr (Build_shr_record (Zpos (Pos.shiftl_nat m k)) false false) e (Z.of_nat k)
  = (Build_shr_record (Zpos m) false false, e + Z.of_nat k).
Proof.
  destruct k as [ | k ].
  - cbn. f_equal. lia.
  - unfold shr. cbn [Z.of_nat].
    rewrite iter_pos_iter, Pos2Nat.inj_iter, SuccNat2Pos.id_succ.
    pose proof (shr_exact m (S k)) as E. unfold Nat.iter in E.
    rewrite E. reflexivity.
Qed.

(** Rounding a 53-digit mantissa followed by zero bits loses nothing. *)
Lemma binary_round_aux_exact (s : bool) (m : positive) (k : nat) (e : Z) :
  Zpos (digits2_pos m) = 53 ->
  -1074 <= e + Z.of_nat k <= 971 ->
  binary_round_aux 53 1024 s (Zpos (Pos.shiftl_nat m k)) e loc_Exact
  = S754_finite s m (e + Z.of_nat k).
Proof.
  intros Hd He. unfold binary_round_aux, shr_fexp.
  cbn [Zdigits2 shr_record_of_loc].
  rewrite shiftl_nat_digits, Hd.
  unfold fexp, emin.
  replace (Z.max (53 + Z.of_nat k + e - 53) (3 - 1024 - 53) - e) with (Z.of_nat k) by lia.
  rewrite shr_shift. cbn [shr_m loc_of_shr_record round_nearest_even Zdigits2].
  rewrite Hd.
  replace (Z.max (53 + (e + Z.of_nat k) - 53) (3 - 1024 - 53) - (e + Z.of_nat k)) with 0 by lia.
  cbn [shr shr_m].
  replace (e + Z.of_nat k <=? 1024 - 53) with true by (symmetry; apply Z.leb_le; lia).
  reflexivity.
Qed.

Lemma norm_mant_Z (p : positive) :
  Zpos (digits2_pos p) <= 53 ->
  Zpos (norm_mant p) = Zpos p * 2 ^ (53 - Zpos (digits2_pos p)).
Proof.
  intros H. unfold norm_mant. rewrite shiftl_nat_Z, Z2Nat.id by lia. reflexivity.
Qed.

Lemma norm_mant_digits (p : positive) :
  Zpos (digits2_pos p) <= 53 -> Zpos (digits2_pos (norm_mant p)) = 53.
Proof.
  intros H. unfold norm_mant. rewrite shiftl_nat_digits, Z2Nat.id by lia. lia.
Qed.

Lemma iter_xO_shiftl (p d : positive) :
  Pos.iter xO p d = Pos.shiftl_nat p (Pos.to_nat d).
Proof. rewrite Pos2Nat.inj_iter. reflexivity. Qed.

(** A mantissa of at most 53 digits is normalised without rounding. *)
Lemma binary_round_small (s : bool) (p : positive) (e : Z) :
  Zpos (digits2_pos p) <= 53 ->
  -1074 <= e + Zpos (digits2_pos p) - 53 <= 971 ->
  binary_round 53 1024 s p e
  = S754_finite s (norm_mant p) (e + Zpos (digits2_pos p) - 53).
Proof.
  intros Hd He. unfold binary_round, shl_align, fexp, emin.
  replace (Z.max (Zpos (digits2_pos p) + e - 53) (3 - 1024 - 53))
    with (e + Zpos (digits2_pos p) - 53) by lia.
  destruct (e + Zpos (digits2_pos p) - 53 - e) as [ | d | d ] eqn:E.
  - assert (D53 : Zpos (digits2_pos p) = 53) by lia.
    pose proof (binary_round_aux_exact s p 0 e D53 ltac:(cbn; lia)) as X.
    cbn [Pos.shiftl_nat nat_rect Z.of_nat] in X. rewrite X.
    unfold norm_mant. rewrite D53. cbn [Z.sub Z.opp Z.add Z.pos_sub Z.to_nat].
    replace (53 - 53) with 0 by lia. cbn [Z.to_nat Pos.shiftl_nat nat_rect].
    f_equal; lia.
  - lia.
  - rewrite iter_xO_shiftl.
    assert (Ed : Z.of_nat (Pos.to_nat d) = 53 - Zpos (digits2_pos p))
      by (rewrite positive_nat_Z; lia).
    assert (Hn : Pos.shiftl_nat p (Pos.to_nat d) = norm_mant p).
    { unfold norm_mant. rewrite <- Ed, Nat2Z.id. reflexivity. }
    rewrite Hn.
    pose proof (binary_round_aux_exact s (norm_mant p) 0 (e + Zpos (digits2_pos p) - 53)
                  (norm_mant_digits p Hd) ltac:(cbn; lia)) as X.
    cbn [Pos.shiftl_nat nat_rect Z.of_nat] in X. rewrite X. f_equal. lia.
Qed.

(** A mantissa of 53 digits followed by zero bits is rounded without loss. *)
Lemma binary_round_big (s : bool) (m : positive) (k : nat) (e : Z) :
  Zpos (digits2_pos m) = 53 ->
  -1074 <= e + Z.of_nat k <= 971 ->
  binary_round 53 1024 s (Pos.shiftl_nat m k) e = S754_finite s m (e + Z.of_nat k).
Proof.
  intros Hd He. unfold binary_round, shl_align, fexp, emin.
  rewrite shiftl_nat_digits, Hd.
  replace (Z.max (53 + Z.of_nat k + e - 53) (3 - 1024 - 53)) with (e + Z.of_nat k) by lia.
  destruct (e + Z.of_nat k - e) as [ | d | d ] eqn:E; try lia;
    apply binary_round_aux_exact; assumption.
Qed.

Lemma pos_of_pow2 (Q : Z) : 0 <= Q -> exists p : positive, Zpos p = 2 ^ Q.
Proof.
  intros H. pose proof (Z.pow_pos_nonneg 2 Q ltac:(lia) H).
  destruct (2 ^ Q) as [ | p | p ]; try lia. exists p. reflexivity.
Qed.

Lemma binary_normalize_pow2 (Q : Z) :
  0 <= Q <= 52 ->
  binary_normalize 53 1024 (2 ^ Q) 0 false = S754_finite false two52 (Q - 52).
Proof.
  intros H. destruct (pos_of_pow2 Q ltac:(lia)) as [p Ep]. rewrite <- Ep.
  cbn [binary_normalize].
  assert (Dp : Zpos (digits2_pos p) = Q + 1).
  { apply digits2_pos_unique. rewrite Ep. replace (Q + 1 - 1) with Q by lia.
    rewrite Z.pow_add_r by lia. cbn. lia. }
  rewrite binary_round_small by lia.
  rewrite Dp. f_equal; [ | lia ].
  apply Pos2Z.inj. rewrite norm_mant_Z by lia. rewrite Dp, Ep.
  unfold two52. rewrite shiftl_nat_Z.
  rewrite <- Z.pow_add_r by lia. rewrite Z.mul_1_l. f_equal. lia.
Qed.

Lemma digits_le_53 (p : positive) : Zpos p < 2 ^ 53 -> Zpos (digits2_pos p) <= 53.
Proof.
  intros H. pose proof (digits2_pos_bounds p) as [L _].
  assert (Zpos (digits2_pos p) - 1 < 53) by (apply (Z.pow_lt_mono_r_iff 2); lia).
  lia.
Qed.

Lemma double_of_Z_pos (p : positive) :
  Zpos p < 2 ^ 53 ->
  double_of_Z (Zpos p)
  = S754_finite false (norm_mant p) (Zpos (digits2_pos p) - 53)
  /\ double_of_Z (Zneg p)
     = S754_finite true (norm_mant p) (Zpos (digits2_pos p) - 53).
Proof.
  intros H. pose proof (digits_le_53 p H) as Hd.
  unfold double_of_Z. cbn [binary_normalize].
  rewrite !binary_round_small by lia. split; f_equal; lia.
Qed.

Lemma double_half_eq : double_half = S754_finite false two52 (-53).
Proof. reflexivity. Qed.

(** [x * 2^Q] keeps the mantissa of [x]. *)
Lemma double_mul_pow2 (s : bool) (m : positive) (e Q : Z) :
  Zpos (digits2_pos m) = 53 -> 0 <= Q <= 52 -> -1000 <= e <= 900 ->
  double_mul (S754_finite s m e) (double_of_Z (2 ^ Q)) = S754_finite s m (e + Q).
Proof.
  intros Hd HQ He. unfold double_of_Z. rewrite binary_normalize_pow2 by assumption.
  unfold double_mul. cbn [SFmul].
  assert (E : (m * two52)%positive = Pos.shiftl_nat m 52).
  { apply Pos2Z.inj. rewrite Pos2Z.inj_mul. unfold two52. rewrite !shiftl_nat_Z. lia. }
  rewrite E, binary_round_aux_exact by (assumption || (cbn; lia)).
  rewrite xorb_false_r. f_equal. cbn. lia.
Qed.

(** Adding [0.5] to a number [N * 2^0] held with a 53-digit mantissa, for
    [1 <= N < 2^52]: the result is [N + 1/2] or [-N + 1/2], exactly. *)
Lemma double_add_half (s : bool) (m : positive) (e N : Z) :
  Zpos (digits2_pos m) = 53 ->
  1 <= N < 2 ^ 52 ->
  Zpos m * 2 ^ (e + 53) = N * 2 ^ 53 -> -52 <= e <= 0 ->
  let M := Z.to_pos (if s then 2 * N - 1 else 2 * N + 1) in
  double_add (S754_finite s m e) double_half
  = S754_finite s (norm_mant M) (Zpos (digits2_pos M) - 54).
Proof.
  intros Hd HN Hv He M.
  assert (EM : Zpos M = if s then 2 * N - 1 else 2 * N + 1)
    by (unfold M; destruct s; rewrite Z2Pos.id; lia).
  assert (M53 : Zpos M < 2 ^ 53).
  { rewrite EM. change (2 ^ 53) with (2 * 2 ^ 52). destruct s; lia. }
  pose proof (digits_le_53 M M53) as HdM.
  pose proof (Pos2Z.is_pos (digits2_pos M)) as HdM0.
  rewrite double_half_eq. unfold double_add. cbn [SFadd].
  rewrite Z.min_r by lia.
  unfold shl_align.
  replace (-53 - -53) with 0 by lia. cbn [fst].
  destruct (-53 - e) as [ | d | d ] eqn:E; try lia.
  cbn [fst]. rewrite iter_xO_shiftl.
  set (p' := Pos.shiftl_nat (norm_mant M) (Z.to_nat (Zpos (digits2_pos M) - 1))).
  assert (Ep' : Zpos p' = Zpos M * 2 ^ 52).
  { unfold p'. rewrite shiftl_nat_Z, norm_mant_Z, Z2Nat.id by lia.
    rewrite <- Z.mul_assoc, <- Z.pow_add_r by lia. do 2 f_equal. lia. }
  assert (EA : Zpos (Pos.shiftl_nat m (Pos.to_nat d)) = N * 2 ^ 53).
  { rewrite shiftl_nat_Z, positive_nat_Z, <- Hv. do 2 f_equal. lia. }
  assert (ES : cond_Zopp s (Zpos (Pos.shiftl_nat m (Pos.to_nat d)))
               + cond_Zopp false (Zpos two52)
               = cond_Zopp s (Zpos p')).
  { rewrite EA, Ep', EM. change (Zpos two52) with (2 ^ 52).
    change (2 ^ 53) with (2 * 2 ^ 52). destruct s; cbn [cond_Zopp]; lia. }
  rewrite ES.
  assert (EB : binary_normalize 53 1024 (cond_Zopp s (Zpos p')) (-53) false
               = binary_round 53 1024 s p' (-53)) by (destruct s; reflexivity).
  rewrite EB. unfold p'.
  rewrite binary_round_big by (try apply norm_mant_digits; try rewrite Z2Nat.id; lia).
  f_equal. rewrite Z2Nat.id by lia. lia.
Qed.

Lemma double_truncate_half (s : bool) (M : positive) :
  Zpos M < 2 ^ 53 ->
  double_truncate (S754_finite s (norm_mant M) (Zpos (digits2_pos M) - 54))
  = Some (if s then - (Zpos M / 2) else Zpos M / 2).
Proof.
  intros H. pose proof (digits_le_53 M H) as Hd.
  pose proof (Pos2Z.is_pos (digits2_pos M)) as Hd0.
  unfold double_truncate.
  replace (0 <=? Zpos (digits2_pos M) - 54) with false by (symmetry; apply Z.leb_gt; lia).
  rewrite Z.shiftr_div_pow2, norm_mant_Z by lia.
  replace (- (Zpos (digits2_pos M) - 54)) with (1 + (53 - Zpos (digits2_pos M))) by lia.
  rewrite Z.pow_add_r by lia. change (2 ^ 1) with 2.
  rewrite Z.div_mul_cancel_r by (try apply Z.pow_nonzero; lia).
  reflexivity.
Qed.

Lemma digits_scaled (p : positive) (Q : Z) :
  0 <= Q -> Zpos p * 2 ^ Q < 2 ^ 52 -> Zpos (digits2_pos p) + Q <= 52.
Proof.
  intros HQ H. pose proof (digits2_pos_bounds p) as [L _].
  pose proof (Pos2Z.is_pos (digits2_pos p)).
  assert (P : 0 < 2 ^ Q) by (apply Z.pow_pos_nonneg; lia).
  assert (2 ^ (Zpos (digits2_pos p) - 1 + Q) < 2 ^ 52).
  { rewrite Z.pow_add_r by lia. nia. }
  assert (Zpos (digits2_pos p) - 1 + Q < 52) by (apply (Z.pow_lt_mono_r_iff 2); lia).
  lia.
Qed.

Lemma rounded_of_sign (s : bool) (p : positive) (Q : Z) (D : DataType) :
  0 <= Q -> Zpos p * 2 ^ Q < 2 ^ 52 ->
  in_range D (if s then - (Zpos p * 2 ^ Q) + 1 else Zpos p * 2 ^ Q) ->
  double_to D (double_add
                 (double_mul (S754_finite s (norm_mant p) (Zpos (digits2_pos p) - 53))
                             (double_of_Z (2 ^ Q)))
                 double_half)
  = Some (if s then - (Zpos p * 2 ^ Q) + 1 else Zpos p * 2 ^ Q).
Proof.
  intros HQ HN HR.
  pose proof (digits_scaled p Q HQ HN) as Hd.
  pose proof (Pos2Z.is_pos (digits2_pos p)) as Hd0.
  assert (P : 0 < 2 ^ Q) by (apply Z.pow_pos_nonneg; lia).
  rewrite double_mul_pow2 by (try apply norm_mant_digits; lia).
  rewrite (double_add_half s (norm_mant p) _ (Zpos p * 2 ^ Q));
    [ | apply norm_mant_digits; lia | nia | | lia ].
  - unfold double_to. rewrite double_truncate_half.
    + cbv [obind].
      assert (E : (if s
                   then - (Zpos (Z.to_pos (if s then 2 * (Zpos p * 2 ^ Q) - 1
                                           else 2 * (Zpos p * 2 ^ Q) + 1)) / 2)
                   else Zpos (Z.to_pos (if s then 2 * (Zpos p * 2 ^ Q) - 1
                                        else 2 * (Zpos p * 2 ^ Q) + 1)) / 2)
                  = if s then - (Zpos p * 2 ^ Q) + 1 else Zpos p * 2 ^ Q).
      { destruct s; rewrite Z2Pos.id by nia.
        - replace (2 * (Zpos p * 2 ^ Q) - 1) with (1 + (Zpos p * 2 ^ Q - 1) * 2) by lia.
          rewrite Z.div_add by lia. cbn. lia.
        - replace (2 * (Zpos p * 2 ^ Q) + 1) with (1 + (Zpos p * 2 ^ Q) * 2) by lia.
          rewrite Z.div_add by lia. cbn. lia. }
      rewrite E.
      apply in_rangeb_spec in HR. rewrite HR. reflexivity.
    + change (2 ^ 53) with (2 * 2 ^ 52). destruct s; rewrite Z2Pos.id by nia; lia.
  - rewrite norm_mant_Z by lia.
    rewrite <- Z.mul_assoc, <- Z.pow_add_r by lia.
    replace (53 - Zpos (digits2_pos p) + (Zpos (digits2_pos p) - 53 + Q + 53))
      with (Q + 53) by lia.
    rewrite Z.pow_add_r by lia. lia.
Qed.

(** [rounded_] on an integer [n]: [n * 2^Q] for [n >= 0], one more for
    [n < 0]. *)
Lemma rounded_of_int (Q : Z) (D : DataType) (n : Z) :
  0 <= Q <= 52 -> Q < width D -> in_range D (2 ^ Q) ->
  Z.abs (n * 2 ^ Q) < 2 ^ 52 ->
  in_range D (if 0 <=? n then n * 2 ^ Q else n * 2 ^ Q + 1) ->
  @rounded_ Q D (double_of_Z n)
  = Some (if 0 <=? n then n * 2 ^ Q else n * 2 ^ Q + 1).
Proof.
  intros HQ HW H2 HN HR. unfold rounded_.
  rewrite c_shl_ok by (cbv [convert ty]; lia).
  cbv [obind convert ty val].
  rewrite (wrap_id D 1) by (apply in_range_small; lia).
  rewrite Z.shiftl_1_l, wrap_id by assumption.
  destruct n as [ | p | p ].
  - unfold double_of_Z. rewrite binary_normalize_pow2 by assumption.
    cbn [binary_normalize Z.leb Z.compare Z.mul] in *.
    apply in_rangeb_spec in HR.
    unfold double_mul, double_add, double_to. cbn. rewrite HR. reflexivity.
  - assert (HP : Zpos p * 2 ^ Q < 2 ^ 52) by lia.
    assert (P : 0 < 2 ^ Q) by (apply Z.pow_pos_nonneg; lia).
    destruct (double_of_Z_pos p) as [E _].
    { change (2 ^ 53) with (2 * 2 ^ 52). nia. }
    rewrite E. apply (rounded_of_sign false p Q D); [ lia | assumption | ].
    exact HR.
  - assert (HP : Zpos p * 2 ^ Q < 2 ^ 52).
    { replace (Zneg p * 2 ^ Q) with (- (Zpos p * 2 ^ Q)) in HN by lia. lia. }
    assert (P : 0 < 2 ^ Q) by (apply Z.pow_pos_nonneg; lia).
    destruct (double_of_Z_pos p) as [_ E].
    { change (2 ^ 53) with (2 * 2 ^ 52). nia. }
    rewrite E.
    replace (if 0 <=? Zneg p then Zneg p * 2 ^ Q else Zneg p * 2 ^ Q + 1)
      with (- (Zpos p * 2 ^ Q) + 1) in * by (cbn [Z.leb Z.compare]; lia).
    apply (rounded_of_sign true p Q D); [ lia | assumption | exact HR ].
Qed.

(** ** Comparisons with the scalar on the left *)

(** The converting constructor scales an integer that fits. *)
Lemma ctor1_eq (Q : Z) (D : DataType) (n : Z) :
  0 <= Q < width D -> in_range D n -> in_range D (n * 2 ^ Q) ->
  @ctor1 Q D (CV D n) = Some (FP (n * 2 ^ Q)).
Proof.
  intros HQ Rn Rs. unfold ctor1, convert. cbv [val].
  rewrite (wrap_id D n) by assumption.
  rewrite c_shl_ok by (cbv [ty]; lia). cbv [obind ty val].
  rewrite Z.shiftl_mul_pow2, wrap_id by (assumption || lia). reflexivity.
Qed.

Lemma compare_same (f : Z -> Z -> bool) (D : DataType) (x y : Z) :
  in_range D x -> in_range D y -> compare_with f (CV D x) (CV D y) = f x y.
Proof.
  intros Rx Ry. cbv [compare_with ty val].
  rewrite common_type_same, !wrap_id by assumption. reflexivity.
Qed.

(** C5 (amended). Let [n] be an integer of the storage type whose scaled
    value [n * 2^QBits] is a value of that type; when floating-point support
    is enabled, let moreover [n >= 0], with [2^QBits] a value of the storage
    type and [n * 2^QBits] below [2^52]. Then the helpers with the scalar on
    the left return the member comparison they name, made with the
    fixed-point value of [n]: [n < v] is [v >= n], [n <= v] is [v > n],
    [n >= v] is [v < n] and [n > v] is [v <= n]. So [n < v] behaves as
    [n <= v], [n <= v] as [n < v], [n >= v] as [n > v] and [n > v] as
    [n >= v], and each differs from the comparison it is written as exactly
    when [v] equals [n]. *)
Theorem free_comparisons_flipped (float_support : bool) (Q : Z) (D : DataType)
  (n : Z) (v : tFixedPoint Q D) :
  0 <= Q < width D -> in_range D n -> wf v -> in_range D (n * 2 ^ Q) ->
  (float_support = true ->
   0 <= n /\ Q <= 52 /\ in_range D (2 ^ Q) /\ n * 2 ^ Q < 2 ^ 52) ->
  (exists nv : tFixedPoint Q D,
      value_ nv = n * 2 ^ Q
      /\ free_operator_lt float_support n v = Some (operator_ge v nv)
      /\ free_operator_le float_support n v = Some (operator_gt v nv)
      /\ free_operator_ge float_support n v = Some (operator_lt v nv)
      /\ free_operator_gt float_support n v = Some (operator_le v nv))
  /\ free_operator_lt float_support n v = Some (scalar_le Q n (value_ v))
  /\ free_operator_le float_support n v = Some (scalar_lt Q n (value_ v))
  /\ free_operator_ge float_support n v = Some (scalar_gt Q n (value_ v))
  /\ free_operator_gt float_support n v = Some (scalar_ge Q n (value_ v))
  /\ (free_operator_lt float_support n v <> Some (scalar_lt Q n (value_ v))
      <-> value_ v = n * 2 ^ Q)
  /\ (free_operator_le float_support n v <> Some (scalar_le Q n (value_ v))
      <-> value_ v = n * 2 ^ Q)
  /\ (free_operator_ge float_support n v <> Some (scalar_ge Q n (value_ v))
      <-> value_ v = n * 2 ^ Q)
  /\ (free_operator_gt float_support n v <> Some (scalar_gt Q n (value_ v))
      <-> value_ v = n * 2 ^ Q).
Proof.
  intros HQ Rn Rv Rs Hfs.
  pose proof (ctor1_eq Q D n HQ Rn Rs) as C.
  assert (R : float_support = true ->
              @rounded_ Q D (double_of_Z n) = Some (n * 2 ^ Q)).
  { intros F. destruct (Hfs F) as (N0 & Q52 & R2 & N52).
    assert (P : 0 < 2 ^ Q) by (apply Z.pow_pos_nonneg; lia).
    assert (T : (0 <=? n) = true) by (apply Z.leb_le; assumption).
    rewrite (rounded_of_int Q D n);
      [ rewrite T; reflexivity | lia | lia | assumption
      | rewrite Z.abs_eq by nia; assumption
      | rewrite T; assumption ]. }
  assert (M : free_operator_lt float_support n v = Some (operator_ge v (FP (n * 2 ^ Q)))
              /\ free_operator_le float_support n v = Some (operator_gt v (FP (n * 2 ^ Q)))
              /\ free_operator_ge float_support n v = Some (operator_lt v (FP (n * 2 ^ Q)))
              /\ free_operator_gt float_support n v = Some (operator_le v (FP (n * 2 ^ Q)))).
  { unfold free_operator_lt, free_operator_le, free_operator_ge, free_operator_gt,
      scalar_compare.
    destruct float_support.
    - unfold operator_ge_double, operator_gt_double, operator_lt_double,
        operator_le_double.
      rewrite R by reflexivity. repeat split.
    - rewrite C. repeat split. }
  destruct M as (L & E & G & T).
  assert (L' : operator_ge v (FP (n * 2 ^ Q) : tFixedPoint Q D) = scalar_le Q n (value_ v)).
  { unfold operator_ge, c_ge, qValue. rewrite compare_same by assumption.
    cbv [value_]. fold (value_ v). rewrite Z.geb_leb. reflexivity. }
  assert (E' : operator_gt v (FP (n * 2 ^ Q) : tFixedPoint Q D) = scalar_lt Q n (value_ v)).
  { unfold operator_gt, c_gt, qValue. rewrite compare_same by assumption.
    cbv [value_]. fold (value_ v). rewrite Z.gtb_ltb. reflexivity. }
  assert (G' : operator_lt v (FP (n * 2 ^ Q) : tFixedPoint Q D) = scalar_gt Q n (value_ v)).
  { unfold operator_lt, c_lt, qValue. rewrite compare_same by assumption.
    reflexivity. }
  assert (T' : operator_le v (FP (n * 2 ^ Q) : tFixedPoint Q D) = scalar_ge Q n (value_ v)).
  { unfold operator_le, c_le, qValue. rewrite compare_same by assumption.
    reflexivity. }
  split.
  { exists (FP (n * 2 ^ Q)).
    split; [ reflexivity | split; [ exact L | split; [ exact E | split; [ exact G | exact T ] ] ] ]. }
  rewrite L, E, G, T, L', E', G', T'.
  split; [ reflexivity | split; [ reflexivity | split; [ reflexivity | split; [ reflexivity | ] ] ] ].
  unfold scalar_lt, scalar_le, scalar_ge, scalar_gt.
  set (N := n * 2 ^ Q). set (r := value_ v).
  repeat split; intros H;
    destruct (Z.leb_spec N r); destruct (Z.ltb_spec N r);
    destruct (Z.leb_spec r N); destruct (Z.ltb_spec r N);
    try lia; try congruence; try discriminate.
Qed.

Lemma free_comparisons_flipped_witness :
  free_operator_lt true 3 (FP 768 : tFixedPoint 8 TInt) = Some true
  /\ free_operator_le true 3 (FP 768 : tFixedPoint 8 TInt) = Some false
  /\ free_operator_ge true 3 (FP 768 : tFixedPoint 8 TInt) = Some false
  /\ free_operator_gt true 3 (FP 768 : tFixedPoint 8 TInt) = Some true.
Proof.
  destruct (free_comparisons_flipped true 8 TInt 3 (FP 768)) as [_ [L [E [G [T _]]]]].
  - cbn; lia.
  - unfold in_range; cbn; lia.
  - unfold wf, in_range; cbn; lia.
  - unfold in_range; cbn; lia.
  - intros _. unfold in_range. cbn. lia.
  - split; [ exact L | split; [ exact E | split; [ exact G | exact T ] ] ].
Defined.

(** With floating-point support a negative scalar is compared one unit too
    high: [rounded_] adds [0.5] and the conversion to [tValue] truncates
    toward zero. [n < v] and [n >= v] then decide the comparison they are
    written as, while [n <= v] and [n > v] are off for two raw values. *)
Lemma free_comparisons_negative_scalar (Q : Z) (D : DataType)
  (n : Z) (v : tFixedPoint Q D) :
  0 <= Q <= 52 -> Q < width D -> in_range D (2 ^ Q) ->
  n < 0 -> - 2 ^ 52 < n * 2 ^ Q -> in_range D (n * 2 ^ Q + 1) -> wf v ->
  @rounded_ Q D (double_of_Z n) = Some (n * 2 ^ Q + 1)
  /\ free_operator_lt true n v = Some (scalar_lt Q n (value_ v))
  /\ free_operator_ge true n v = Some (scalar_ge Q n (value_ v))
  /\ free_operator_le true n v = Some (n * 2 ^ Q + 1 <? value_ v)
  /\ free_operator_gt true n v = Some (value_ v <=? n * 2 ^ Q + 1).
Proof.
  intros HQ HW R2 Neg Low R1 Rv.
  assert (P : 0 < 2 ^ Q) by (apply Z.pow_pos_nonneg; lia).
  assert (F : (0 <=? n) = false) by (apply Z.leb_gt; assumption).
  assert (R : @rounded_ Q D (double_of_Z n) = Some (n * 2 ^ Q + 1)).
  { rewrite (rounded_of_int Q D n);
      [ rewrite F; reflexivity | lia | lia | assumption
      | rewrite Z.abs_neq by nia; lia
      | rewrite F; assumption ]. }
  split; [ exact R | ].
  unfold free_operator_lt, free_operator_le, free_operator_ge, free_operator_gt,
    scalar_compare, operator_ge_double, operator_gt_double, operator_lt_double,
    operator_le_double.
  rewrite R. cbv [obind].
  unfold c_ge, c_gt, c_lt, c_le, qValue. rewrite !compare_same by assumption.
  unfold scalar_lt, scalar_ge.
  set (N := n * 2 ^ Q). set (r := value_ v).
  rewrite Z.geb_leb, Z.gtb_ltb.
  repeat split; f_equal.
  - destruct (Z.leb_spec (N + 1) r); destruct (Z.ltb_spec N r); lia || reflexivity.
  - destruct (Z.ltb_spec r (N + 1)); destruct (Z.leb_spec r N); lia || reflexivity.
Qed.

(** C5 as stated fails in two ways. The header defines
    [FIXEDPOINT_ENABLE_FLOATINGPOINT_SUPPORT], so [rhs >= lhs] calls
    [operator>=( double )]: [-3] becomes [rounded_( -3.0 )], which at 8
    fractional bits is [-767] ([-768 + 0.5] truncated toward zero), and
    [-3 < v] is false for [v] equal to [-3], where [n <= v] holds. And
    without floating-point support, when scaling [n] overflows the
    comparison is made with the wrapped value: [2^24] at 8 fractional bits in
    an [unsigned] becomes 0, so [2^24 < v] is true for the raw value 5,
    where [n <= v] does not hold and [v] is not [n]. *)
Lemma free_comparisons_counterexample :
  (@rounded_ 8 TInt (double_of_Z (-3)) = Some (-767)
   /\ free_operator_lt true (-3) (FP (-768) : tFixedPoint 8 TInt) = Some false
   /\ scalar_le 8 (-3) (-768) = true
   /\ -768 = -3 * 2 ^ 8)
  /\ (free_operator_lt false 16777216 (FP 5 : tFixedPoint 8 TUInt) = Some true
      /\ scalar_le 8 16777216 5 = false
      /\ 5 <> 16777216 * 2 ^ 8
      /\ in_range TUInt 16777216).
Proof.
  repeat split; try reflexivity; vm_compute; discriminate.
Qed.

(** ** The decimal-constant macro *)

Lemma wrap_sub (D : DataType) (x y : Z) :
  wrap D (wrap D x - wrap D y) = wrap D (x - y).
Proof.
  apply wrap_congr. rewrite Zminus_mod, !wrap_mod, <- Zminus_mod. reflexivity.
Qed.

Lemma arith_same (f : Z -> Z -> Z) (D : DataType) (x y : Z) :
  in_range D x -> in_range D y -> in_range D (f x y) ->
  arith f (CV D x) (CV D y) = CV D (f x y).
Proof.
  intros Rx Ry Rf. cbv [arith ty val].
  rewrite common_type_same, (wrap_id D x), (wrap_id D y), wrap_id by assumption.
  reflexivity.
Qed.

Lemma in_range_int (z : Z) : 0 <= z <= max_value TInt -> in_range TInt z.
Proof. unfold in_range. cbn. lia. Qed.

Lemma c_div_int (x y : Z) :
  0 <= x <= max_value TInt -> 0 < y <= max_value TInt ->
  c_div (CV TInt x) (CV TInt y) = Some (CV TInt (x / y)).
Proof.
  intros Hx Hy.
  assert (Rx : in_range TInt x) by (unfold in_range; cbn in *; lia).
  assert (Ry : in_range TInt y) by (unfold in_range; cbn in *; lia).
  rewrite c_div_ok; cbv [ty val common_type];
    rewrite ?(wrap_id TInt x), ?(wrap_id TInt y) by assumption.
  - rewrite Z.quot_div_nonneg by lia. reflexivity.
  - lia.
  - rewrite Z.quot_div_nonneg by lia.
    pose proof (Z.div_pos x y ltac:(lia) ltac:(lia)).
    assert (x / y <= x) by (apply Z.div_le_upper_bound; nia).
    unfold in_range; cbn in *; lia.
Qed.

Lemma decimal_value_acc (d : Decimal.uint) :
  forall acc : Z,
    decimal_value d acc = acc * 10 ^ frac_digits d + decimal_value d 0.
Proof.
  unfold frac_digits.
  induction d as [ | d IH | d IH | d IH | d IH | d IH | d IH | d IH | d IH | d IH | d IH ];
    intros acc; cbn [decimal_value Decimal.nb_digits];
    [ cbn; lia | .. ];
    rewrite (IH (10 * acc + _)), (IH (10 * 0 + _));
    rewrite Nat2Z.inj_succ, Z.pow_succ_r by lia; lia.
Qed.

Lemma decimal_value_nonneg (d : Decimal.uint) :
  forall acc : Z, 0 <= acc -> 0 <= decimal_value d acc.
Proof.
  induction d; intros acc H; cbn [decimal_value]; try assumption; apply IHd; lia.
Qed.

Lemma frac_digits_pos (frac : Decimal.uint) (c : cval) :
  int_literal frac = Some c -> 1 <= frac_digits frac.
Proof.
  unfold frac_digits. destruct frac; cbn [int_literal Decimal.nb_digits];
    intros H; try discriminate; lia.
Qed.

(** The token [frac] with the digit [2], or [1], pasted in front. *)
Lemma int_literal_pasted (frac : Decimal.uint) :
  2 * 10 ^ frac_digits frac + decimal_value frac 0 <= max_value TInt ->
  int_literal (Decimal.D2 frac)
  = Some (CV TInt (2 * 10 ^ frac_digits frac + decimal_value frac 0))
  /\ int_literal (Decimal.D1 frac)
     = Some (CV TInt (1 * 10 ^ frac_digits frac + decimal_value frac 0)).
Proof.
  intros H.
  assert (P : 0 < 10 ^ frac_digits frac)
    by (apply Z.pow_pos_nonneg; unfold frac_digits; lia).
  cbn [int_literal decimal_value].
  rewrite (decimal_value_acc frac (10 * 0 + 2)), (decimal_value_acc frac (10 * 0 + 1)).
  change (10 * 0 + 2) with 2. change (10 * 0 + 1) with 1.
  unfold decimal_literal_type.
  replace (2 * 10 ^ frac_digits frac + decimal_value frac 0 <=? max_value TInt)
    with true by (symmetry; apply Z.leb_le; assumption).
  replace (1 * 10 ^ frac_digits frac + decimal_value frac 0 <=? max_value TInt)
    with true by (symmetry; apply Z.leb_le; lia).
  split; reflexivity.
Qed.

(** The three-argument constructor on an integer part and a magnitude given
    with [QBits] fractional bits. *)
Lemma ctor3_eq (Q : Z) (D : DataType) (dec X : Z) :
  0 <= Q <= 30 -> in_range D dec -> 0 <= X < 2 ^ 31 ->
  @ctor3 Q D (CV TInt dec) (CV TInt X) (to_unsigned Q)
  = Some (FP (wrap D (if 0 <=? dec then dec * 2 ^ Q + X else dec * 2 ^ Q - X))).
Proof.
  intros HQ Rd RX. unfold ctor3, convert. cbv [val].
  rewrite (wrap_id D dec) by assumption.
  rewrite (wrap_id D X) by (apply in_range_small; assumption).
  rewrite c_shl_ok by (pose proof (width_bounds D); cbv [ty]; lia).
  rewrite to_int_to_unsigned by (unfold in_range; cbn; lia).
  rewrite Z.sub_diag, c_shl_0. cbv [obind ty val].
  rewrite c_ge_zero by assumption.
  rewrite Z.shiftl_mul_pow2 by lia.
  destruct (0 <=? dec); cbv [c_add c_sub arith ty val];
    rewrite common_type_same, !wrap_wrap.
  - rewrite wrap_add. reflexivity.
  - rewrite wrap_sub. reflexivity.
Qed.

(** C8 (amended). Let [frac] be a sequence of [d] digits that the compiler
    reads as its base-10 value (no leading zero, or zeros followed by one
    digit below 8), with the pasted literal [2 * 10^d + frac] and the
    numerator [2^Q * frac + 10^d/2] within [int], [0 <= Q <= 30], and [dec]
    a value of the storage type. Then [FIXEDPOINT_CONSTANT(T, dec, frac)] is
    [T(dec, X, Q)] with [X = (2^Q * frac + 10^d/2) / 10^d]: the base-10
    fraction rescaled to [Q] fractional bits, a tie rounded up. When the
    result is a value of the storage type, its raw value is
    [dec * 2^Q + X] for [dec >= 0] and [dec * 2^Q - X] for [dec < 0]. *)
Theorem FIXEDPOINT_CONSTANT_value (Q : Z) (D : DataType) (dec : Z) (frac : Decimal.uint) :
  0 <= Q <= 30 ->
  int_literal frac = Some (CV TInt (decimal_value frac 0)) ->
  2 * 10 ^ frac_digits frac + decimal_value frac 0 <= max_value TInt ->
  2 ^ Q * decimal_value frac 0 + 10 ^ frac_digits frac / 2 <= max_value TInt ->
  in_range D dec ->
  in_range D (if 0 <=? dec
              then dec * 2 ^ Q + rescaled_fraction Q frac
              else dec * 2 ^ Q - rescaled_fraction Q frac) ->
  FIXEDPOINT_CONSTANT Q D (CV TInt dec) frac
  = ctor3 (CV TInt dec) (CV TInt (rescaled_fraction Q frac)) (to_unsigned Q)
  /\ FIXEDPOINT_CONSTANT Q D (CV TInt dec) frac
     = Some (FP (if 0 <=? dec
                 then dec * 2 ^ Q + rescaled_fraction Q frac
                 else dec * 2 ^ Q - rescaled_fraction Q frac))
  /\ 0 <= rescaled_fraction Q frac
  /\ - 10 ^ frac_digits frac
     <= 2 * (2 ^ Q * decimal_value frac 0
             - 10 ^ frac_digits frac * rescaled_fraction Q frac)
     < 10 ^ frac_digits frac.
Proof.
  intros HQ Hlit Hpaste Hnum Rdec Rres.
  pose proof (frac_digits_pos frac _ Hlit) as Hd.
  pose proof (decimal_value_nonneg frac 0 ltac:(lia)) as Hf.
  pose proof (pow2_le_30 Q HQ) as P2.
  set (d := frac_digits frac) in *.
  set (f := decimal_value frac 0) in *.
  assert (P10 : 0 < 10 ^ (d - 1)) by (apply Z.pow_pos_nonneg; lia).
  assert (E10 : 10 ^ d = 10 * 10 ^ (d - 1)).
  { replace d with (Z.succ (d - 1)) at 1 by lia. apply Z.pow_succ_r; lia. }
  assert (Eh : 10 ^ d / 2 = 5 * 10 ^ (d - 1)).
  { rewrite E10. replace (10 * 10 ^ (d - 1)) with (5 * 10 ^ (d - 1) * 2) by lia.
    apply Z.div_mul. lia. }
  assert (M : max_value TInt = 2147483647) by reflexivity.
  assert (N0 : 0 <= 2 ^ Q * f) by nia.
  set (X := rescaled_fraction Q frac) in *.
  assert (EX : X = (2 ^ Q * f + 10 ^ d / 2) / 10 ^ d) by reflexivity.
  pose proof (Z.div_mod (2 ^ Q * f + 10 ^ d / 2) (10 ^ d) ltac:(lia)) as DM.
  pose proof (Z.mod_pos_bound (2 ^ Q * f + 10 ^ d / 2) (10 ^ d) ltac:(lia)) as MB.
  rewrite <- EX in DM.
  assert (X0 : 0 <= X) by (rewrite EX; apply Z.div_pos; lia).
  assert (XU : X <= 2 ^ Q * f + 10 ^ d / 2) by nia.
  assert (Ev : FIXEDPOINT_CONSTANT Q D (CV TInt dec) frac
               = ctor3 (CV TInt dec) (CV TInt X) (to_unsigned Q)).
  { unfold FIXEDPOINT_CONSTANT. rewrite Hlit.
    destruct (int_literal_pasted frac Hpaste) as [E2 E1].
    fold d f in E2, E1. rewrite E2, E1. cbv [obind].
    assert (U : to_unsigned Q = Q)
      by (apply (wrap_id TUInt); unfold in_range; cbn; lia).
    rewrite U at 1. rewrite one_shl by assumption.
    unfold c_sub. rewrite arith_same by (apply in_range_int; lia).
    replace (2 * 10 ^ d + f - (1 * 10 ^ d + f)) with (10 ^ d) by lia.
    rewrite c_div_int by lia.
    unfold c_mul, c_add. rewrite arith_same by (apply in_range_int; lia).
    rewrite arith_same by (apply in_range_int; lia).
    rewrite c_div_int by lia. rewrite <- EX. reflexivity. }
  split; [ exact Ev | split; [ | split; [ exact X0 | lia ] ] ].
  rewrite Ev, ctor3_eq by (assumption || lia).
  rewrite wrap_id by assumption. reflexivity.
Qed.

Lemma FIXEDPOINT_CONSTANT_value_witness :
  FIXEDPOINT_CONSTANT 4 TInt (CV TInt (-1)) (Decimal.D2 (Decimal.D5 Decimal.Nil))
  = Some (FP (-20)).
Proof.
  refine (proj1 (proj2 (FIXEDPOINT_CONSTANT_value 4 TInt (-1)
                          (Decimal.D2 (Decimal.D5 Decimal.Nil)) _ _ _ _ _ _))).
  - lia.
  - reflexivity.
  - vm_compute; discriminate.
  - vm_compute; discriminate.
  - unfold in_range; cbn; lia.
  - vm_compute; split; discriminate.
Defined.

(** C8 as stated fails in two ways. The token [010] is an octal literal, so
    [FIXEDPOINT_CONSTANT( tQ8, 3, 010 )] rescales 8 thousandths, not 10:
    the raw value is [768 + 2], where the base-10 reading gives [768 + 3].
    And [(1 << 18) * 99999] does not fit an [int]:
    [FIXEDPOINT_CONSTANT( tQ18, 0, 99999 )] has the raw value 4443, where
    the fraction rescaled to 18 bits is 262141. *)
Lemma FIXEDPOINT_CONSTANT_counterexample :
  (FIXEDPOINT_CONSTANT 8 TInt (CV TInt 3)
     (Decimal.D0 (Decimal.D1 (Decimal.D0 Decimal.Nil))) = Some (FP 770)
   /\ 3 * 2 ^ 8 + rescaled_fraction 8 (Decimal.D0 (Decimal.D1 (Decimal.D0 Decimal.Nil)))
      = 771)
  /\ (FIXEDPOINT_CONSTANT 18 TInt (CV TInt 0)
        (Decimal.D9 (Decimal.D9 (Decimal.D9 (Decimal.D9 (Decimal.D9 Decimal.Nil)))))
      = Some (FP 4443)
      /\ 0 * 2 ^ 18
         + rescaled_fraction 18
             (Decimal.D9 (Decimal.D9 (Decimal.D9 (Decimal.D9 (Decimal.D9 Decimal.Nil)))))
         = 262141).
Proof.
  repeat split; reflexivity.
Qed.

(** * Further properties *)

(** ** Construction and the parts of a value *)

Lemma absFracPart_eq (Q : Z) (D : DataType) (v : tFixedPoint Q D) :
  0 <= Q <= 31 -> absFracPart v = Some (absolute v mod 2 ^ Q).
Proof.
  intros H. pose proof (pow2_le_31 Q H) as P.
  pose proof (Z.mod_pos_bound (absolute v) (2 ^ Q) ltac:(lia)) as B.
  unfold absFracPart. rewrite frac_mask_eq by assumption. cbv [obind].
  rewrite c_and_mask by assumption. cbv [convert val].
  rewrite wrap_id; [ reflexivity | apply in_range_small; lia ].
Qed.

Lemma absolute_eq (Q : Z) (D : DataType) (v : tFixedPoint Q D) :
  wf v -> absolute v = if 0 <=? value_ v then value_ v else wrap D (- value_ v).
Proof.
  intros R. unfold absolute, qValue. rewrite c_ge_zero by exact R.
  destruct (0 <=? value_ v); reflexivity.
Qed.

(** X1. A value constructed from an integer [n] that fits after scaling has
    integer part [n] and no fractional part. *)
Theorem ctor1_parts (Q : Z) (D : DataType) (n : Z) :
  0 <= Q <= 31 -> in_range D n -> in_range D (n * 2 ^ Q) ->
  exists x : tFixedPoint Q D,
    ctor1 (CV D n) = Some x
    /\ intPart x = Some n
    /\ fracPart x = Some 0
    /\ absFracPart x = Some 0.
Proof.
  intros HQ Rn Rs. pose proof (pow2_le_31 Q HQ) as P.
  exists (FP (n * 2 ^ Q)).
  assert (W : wf (FP (n * 2 ^ Q) : tFixedPoint Q D)) by exact Rs.
  split; [ apply ctor1_eq; try assumption; pose proof (width_bounds D); lia | ].
  split; [ | split ].
  - rewrite intPart_eq by assumption. cbn [value_]. rewrite Z.div_mul by lia. reflexivity.
  - rewrite fracPart_eq by assumption. cbn [value_].
    replace (- (n * 2 ^ Q)) with ((- n) * 2 ^ Q) by lia.
    rewrite !Z.mod_mul by lia. destruct (0 <=? n * 2 ^ Q); reflexivity.
  - rewrite absFracPart_eq, absolute_eq by assumption. cbn [value_].
    destruct (0 <=? n * 2 ^ Q).
    + rewrite Z.mod_mul by lia. reflexivity.
    + rewrite wrap_mod_pow2 by assumption.
      replace (- (n * 2 ^ Q)) with ((- n) * 2 ^ Q) by lia.
      rewrite Z.mod_mul by lia. reflexivity.
Qed.

Lemma ctor1_parts_witness :
  exists x : tFixedPoint 8 TInt,
    ctor1 (CV TInt (-2)) = Some x
    /\ intPart x = Some (-2)
    /\ fracPart x = Some 0
    /\ absFracPart x = Some 0.
Proof.
  apply (ctor1_parts 8 TInt (-2)); [ lia | | ]; unfold in_range; cbn; lia.
Defined.

(** X2. For [0 <= QBits <= 30], the constructor from an integer part [i]
    and a magnitude [f] below [2^QBits], when [i], the raw value
    [i * 2^QBits +/- f] and the magnitude [|i| * 2^QBits + f] are values of
    the storage type, gives a value whose magnitude is [|i| * 2^QBits + f]
    and whose absolute fractional part is [f] again, whatever the sign of
    [i]; its integer part is [i], except that a negative [i] with a nonzero
    [f] gives [i - 1], the floor. *)
Theorem ctor3_parts (Q : Z) (D : DataType) (i f : Z) :
  0 <= Q <= 30 -> in_range D i -> 0 <= f < 2 ^ Q ->
  in_range D (if 0 <=? i then i * 2 ^ Q + f else i * 2 ^ Q - f) ->
  in_range D (Z.abs i * 2 ^ Q + f) ->
  exists x : tFixedPoint Q D,
    ctor3 (CV D i) (CV D f) (to_unsigned Q) = Some x
    /\ value_ x = (if 0 <=? i then i * 2 ^ Q + f else i * 2 ^ Q - f)
    /\ absolute x = Z.abs i * 2 ^ Q + f
    /\ absFracPart x = Some f
    /\ intPart x = Some (if (i <? 0) && (0 <? f) then i - 1 else i).
Proof.
  intros HQ Ri Hf Rraw Rabs. pose proof (pow2_le_30 Q HQ) as P.
  set (raw := if 0 <=? i then i * 2 ^ Q + f else i * 2 ^ Q - f) in *.
  exists (FP raw).
  assert (W : wf (FP raw : tFixedPoint Q D)) by exact Rraw.
  assert (C : @ctor3 Q D (CV D i) (CV D f) (to_unsigned Q) = Some (FP raw)).
  { change (@ctor3 Q D (CV D i) (CV D f) (to_unsigned Q))
      with (@ctor3 Q D (CV TInt i) (CV TInt f) (to_unsigned Q)).
    rewrite ctor3_eq by (try assumption; lia).
    fold raw. rewrite wrap_id by assumption. reflexivity. }
  assert (A : absolute (FP raw : tFixedPoint Q D) = Z.abs i * 2 ^ Q + f).
  { rewrite absolute_eq by assumption. cbn [value_]. unfold raw in *.
    destruct (Z.leb_spec 0 i).
    - replace (0 <=? i * 2 ^ Q + f) with true by (symmetry; apply Z.leb_le; nia).
      rewrite Z.abs_eq by lia. reflexivity.
    - replace (0 <=? i * 2 ^ Q - f) with false by (symmetry; apply Z.leb_gt; nia).
      rewrite Z.abs_neq in * by lia.
      replace (- (i * 2 ^ Q - f)) with (- i * 2 ^ Q + f) by lia.
      apply wrap_id. assumption. }
  split; [ exact C | split; [ reflexivity | split; [ exact A | split ] ] ].
  - rewrite absFracPart_eq, A by lia.
    rewrite Z.add_comm, Z.mod_add by lia. rewrite Z.mod_small by lia. reflexivity.
  - rewrite intPart_eq by (assumption || lia). cbn [value_]. f_equal. unfold raw.
    destruct (Z.leb_spec 0 i).
    + replace (i <? 0) with false by (symmetry; apply Z.ltb_ge; lia). cbn [andb].
      rewrite Z.add_comm, Z.div_add by lia. rewrite Z.div_small by lia. lia.
    + replace (i <? 0) with true by (symmetry; apply Z.ltb_lt; lia). cbn [andb].
      destruct (Z.ltb_spec 0 f).
      * replace (i * 2 ^ Q - f) with ((2 ^ Q - f) + (i - 1) * 2 ^ Q) by lia.
        rewrite Z.div_add by lia. rewrite Z.div_small by lia. lia.
      * replace f with 0 by lia. rewrite Z.sub_0_r, Z.div_mul by lia. reflexivity.
Qed.

Lemma ctor3_parts_witness :
  exists x : tFixedPoint 4 TInt,
    ctor3 (CV TInt (-1)) (CV TInt 4) (to_unsigned 4) = Some x
    /\ value_ x = -20
    /\ absolute x = 20
    /\ absFracPart x = Some 4
    /\ intPart x = Some (-2).
Proof.
  apply (ctor3_parts 4 TInt (-1) 4); try lia; unfold in_range; cbn; lia.
Defined.

(** X3. [absolute()] is the magnitude of the raw value whenever the storage
    type holds that magnitude; on the minimum of a signed storage type it
    returns that minimum, a negative number. *)
Theorem absolute_range (Q : Z) (D : DataType) (v : tFixedPoint Q D) :
  wf v ->
  (in_range D (Z.abs (value_ v)) -> absolute v = Z.abs (value_ v))
  /\ (is_signed D = true -> value_ v = min_value D ->
      absolute v = min_value D /\ absolute v < 0).
Proof.
  intros R. rewrite absolute_eq by assumption. split.
  - intros Ra. destruct (Z.leb_spec 0 (value_ v)).
    + rewrite Z.abs_eq by lia. reflexivity.
    + rewrite Z.abs_neq in * by lia. apply wrap_id, Ra.
  - intros S E. rewrite E. destruct D; try discriminate; cbn; lia.
Qed.

Lemma absolute_range_witness :
  absolute (FP (-2147483648) : tFixedPoint 8 TInt) = -2147483648
  /\ absolute (FP (-2147483648) : tFixedPoint 8 TInt) < 0.
Proof.
  apply (absolute_range 8 TInt (FP (-2147483648))).
  - unfold wf, in_range; cbn; lia.
  - reflexivity.
  - reflexivity.
Defined.

(** ** Reducing and increasing the precision *)

Lemma truncatedTo_eq (Q T : Z) (D : DataType) (v : tFixedPoint Q D) :
  in_range TInt T -> 0 <= Q - T < width D -> wf v ->
  truncatedTo T v = Some (FP (value_ v / 2 ^ (Q - T))).
Proof.
  intros HT Hd R. unfold truncatedTo, qValue.
  rewrite c_shr_ok by (cbv [ty]; lia). cbv [obind].
  rewrite create_eq by assumption. cbv [val].
  rewrite wrap_id by (apply shiftr_in_range; [ lia | exact R ]).
  rewrite Z.shiftr_div_pow2 by lia. reflexivity.
Qed.

Lemma roundedTo_eq (Q T : Z) (D : DataType) (v : tFixedPoint Q D) :
  in_range TInt T -> 1 <= Q - T <= 31 ->
  in_range D (value_ v + 2 ^ (Q - T - 1)) ->
  roundedTo T v = Some (FP ((value_ v + 2 ^ (Q - T - 1)) / 2 ^ (Q - T))).
Proof.
  intros HT Hd R. unfold roundedTo, qValue.
  rewrite FIXEDPOINT_IMPL_ROUND_eq by assumption. cbv [obind].
  rewrite create_eq by assumption. cbv [val].
  rewrite (wrap_id D (value_ v + _)) by assumption.
  rewrite wrap_id by (apply shiftr_in_range; [ lia | exact R ]).
  rewrite Z.shiftr_div_pow2 by lia. reflexivity.
Qed.

(** X4. [truncatedTo<T>()] never rounds up: the result is the largest value
    of the lower precision that does not exceed the original, for negative
    values too (it truncates toward negative infinity). *)
Theorem truncatedTo_floor (Q T : Z) (D : DataType) (v : tFixedPoint Q D) :
  in_range TInt T -> 0 <= Q - T < width D -> wf v ->
  exists r : tFixedPoint T D,
    truncatedTo T v = Some r
    /\ value_ r * 2 ^ (Q - T) <= value_ v < (value_ r + 1) * 2 ^ (Q - T).
Proof.
  intros HT Hd R. eexists. split; [ apply truncatedTo_eq; assumption | ].
  cbn [value_].
  assert (P : 0 < 2 ^ (Q - T)) by (apply Z.pow_pos_nonneg; lia).
  pose proof (Z.div_mod (value_ v) (2 ^ (Q - T)) ltac:(lia)).
  pose proof (Z.mod_pos_bound (value_ v) (2 ^ (Q - T)) P).
  lia.
Qed.

Lemma truncatedTo_floor_witness :
  exists r : tFixedPoint 4 TInt,
    truncatedTo 4 (FP (-23) : tFixedPoint 8 TInt) = Some r
    /\ value_ r * 2 ^ (8 - 4) <= -23 < (value_ r + 1) * 2 ^ (8 - 4).
Proof.
  apply (truncatedTo_floor 8 4 TInt (FP (-23)));
    [ unfold in_range; cbn; lia | cbn; lia | unfold wf, in_range; cbn; lia ].
Defined.

(** X5. When between 1 and 31 bits are dropped and adding the bias does not
    overflow, [roundedTo<T>()] returns a nearest value of the lower
    precision: it differs from the original by at most half a unit of the
    lower precision, and reaches half a unit only from below (a tie goes
    up). *)
Theorem roundedTo_nearest (Q T : Z) (D : DataType) (v : tFixedPoint Q D) :
  in_range TInt T -> 1 <= Q - T <= 31 ->
  in_range D (value_ v + 2 ^ (Q - T - 1)) ->
  exists r : tFixedPoint T D,
    roundedTo T v = Some r
    /\ - 2 ^ (Q - T - 1) < value_ r * 2 ^ (Q - T) - value_ v <= 2 ^ (Q - T - 1).
Proof.
  intros HT Hd R. eexists. split; [ apply roundedTo_eq; assumption | ].
  cbn [value_].
  assert (P : 0 < 2 ^ (Q - T - 1)) by (apply Z.pow_pos_nonneg; lia).
  assert (E : 2 ^ (Q - T) = 2 * 2 ^ (Q - T - 1)).
  { replace (Q - T) with (Z.succ (Q - T - 1)) at 1 by lia. apply Z.pow_succ_r; lia. }
  pose proof (Z.div_mod (value_ v + 2 ^ (Q - T - 1)) (2 ^ (Q - T)) ltac:(lia)).
  pose proof (Z.mod_pos_bound (value_ v + 2 ^ (Q - T - 1)) (2 ^ (Q - T)) ltac:(lia)).
  lia.
Qed.

Lemma roundedTo_nearest_witness :
  exists r : tFixedPoint 4 TInt,
    roundedTo 4 (FP (-23) : tFixedPoint 8 TInt) = Some r
    /\ - 2 ^ (8 - 4 - 1) < value_ r * 2 ^ (8 - 4) - -23 <= 2 ^ (8 - 4 - 1).
Proof.
  apply (roundedTo_nearest 8 4 TInt (FP (-23)));
    [ unfold in_range; cbn; lia | cbn; lia | unfold in_range; cbn; lia ].
Defined.

(** X6. When between 1 and 31 bits are dropped and adding the bias does not
    overflow, rounding is truncation plus the most significant of the bits
    that are dropped: the two results differ by that bit, so by 0 or 1. *)
Theorem roundedTo_truncatedTo (Q T : Z) (D : DataType) (v : tFixedPoint Q D) :
  in_range TInt T -> 1 <= Q - T <= 31 -> wf v ->
  in_range D (value_ v + 2 ^ (Q - T - 1)) ->
  exists r t : tFixedPoint T D,
    roundedTo T v = Some r
    /\ truncatedTo T v = Some t
    /\ value_ r = value_ t + Z.b2z (Z.testbit (value_ v) (Q - T - 1)).
Proof.
  intros HT Hd W R. eexists. eexists.
  split; [ apply roundedTo_eq; assumption | ].
  split; [ apply truncatedTo_eq; try assumption; pose proof (width_bounds D); lia | ].
  cbn [value_].
  assert (P : 0 < 2 ^ (Q - T - 1)) by (apply Z.pow_pos_nonneg; lia).
  assert (E : 2 ^ (Q - T) = 2 ^ (Q - T - 1) * 2).
  { replace (Q - T) with (Z.succ (Q - T - 1)) at 1 by lia. rewrite Z.pow_succ_r; lia. }
  rewrite Z.testbit_spec' by lia.
  rewrite E, <- !Z.div_div by lia.
  replace (value_ v + 2 ^ (Q - T - 1)) with (value_ v + 1 * 2 ^ (Q - T - 1)) by lia.
  rewrite Z.div_add by lia.
  set (a := value_ v / 2 ^ (Q - T - 1)).
  pose proof (Z.div_mod a 2 ltac:(lia)).
  pose proof (Z.mod_pos_bound a 2 ltac:(lia)).
  pose proof (Z.div_mod (a + 1) 2 ltac:(lia)).
  pose proof (Z.mod_pos_bound (a + 1) 2 ltac:(lia)).
  lia.
Qed.

Lemma roundedTo_truncatedTo_witness :
  exists r t : tFixedPoint 4 TInt,
    roundedTo 4 (FP 24 : tFixedPoint 8 TInt) = Some r
    /\ truncatedTo 4 (FP 24 : tFixedPoint 8 TInt) = Some t
    /\ value_ r = value_ t + Z.b2z (Z.testbit 24 (8 - 4 - 1)).
Proof.
  apply (roundedTo_truncatedTo 8 4 TInt (FP 24));
    [ unfold in_range; cbn; lia | cbn; lia | unfold wf, in_range; cbn; lia
    | unfold in_range; cbn; lia ].
Defined.

(** X7. Truncating in two steps is truncating in one: no precision is lost
    by going through an intermediate precision. *)
Theorem truncatedTo_twice (T d2 d1 : Z) (D : DataType)
  (v : tFixedPoint (T + d2 + d1) D) :
  in_range TInt T -> in_range TInt (T + d2) ->
  0 <= d1 -> 0 <= d2 -> d1 + d2 < width D -> wf v ->
  (w <- truncatedTo (T + d2) v ;; truncatedTo T w) = truncatedTo T v.
Proof.
  intros HT HT2 H1 H2 HW R.
  rewrite (truncatedTo_eq _ (T + d2)) by (assumption || lia). cbv [obind].
  rewrite !truncatedTo_eq; try assumption; try lia.
  - cbn [value_]. do 2 f_equal.
    replace (T + d2 + d1 - (T + d2)) with d1 by lia.
    replace (T + d2 - T) with d2 by lia.
    replace (T + d2 + d1 - T) with (d1 + d2) by lia.
    rewrite Z.pow_add_r, Z.div_div by (try apply Z.pow_pos_nonneg; lia).
    reflexivity.
  - unfold wf. cbn [value_].
    replace (T + d2 + d1 - (T + d2)) with d1 by lia.
    rewrite <- Z.shiftr_div_pow2 by lia. apply shiftr_in_range; [ lia | exact R ].
Qed.

Lemma truncatedTo_twice_witness :
  (w <- truncatedTo (4 + 4) (FP (-1234567) : tFixedPoint (4 + 4 + 4) TInt) ;;
   truncatedTo 4 w)
  = truncatedTo 4 (FP (-1234567) : tFixedPoint (4 + 4 + 4) TInt).
Proof.
  apply (truncatedTo_twice 4 4 4 TInt (FP (-1234567)));
    try lia; try (cbn; lia); unfold wf, in_range; cbn; lia.
Defined.

Lemma increasedTo_eq (Q T : Z) (D : DataType) (v : tFixedPoint Q D) :
  in_range TInt T -> 0 <= T - Q < width D ->
  increasedTo T v = Some (FP (wrap D (value_ v * 2 ^ (T - Q)))).
Proof.
  intros HT Hd. unfold increasedTo, qValue.
  rewrite c_shl_ok by (cbv [ty]; lia). cbv [obind ty val].
  rewrite create_eq by assumption. cbv [val].
  rewrite wrap_wrap, Z.shiftl_mul_pow2 by lia. reflexivity.
Qed.

Lemma operator_add_eq (Q : Z) (D : DataType) (a b : tFixedPoint Q D) :
  in_range TInt Q ->
  operator_add a b = Some (FP (wrap D (value_ a + value_ b))).
Proof.
  intros HQ. unfold operator_add, qValue. rewrite create_eq by assumption.
  cbv [c_add arith ty val]. rewrite common_type_same, wrap_wrap, wrap_add.
  reflexivity.
Qed.

(** X8. Widening distributes over addition: [(a + b).increasedTo<q>()] is
    [a.increasedTo<q>() + b.increasedTo<q>()], with the same raw value even
    when a sum or a shift wraps. *)
Theorem increasedTo_add (p q : Z) (D : DataType) (a b : tFixedPoint p D) :
  in_range TInt p -> in_range TInt q -> 0 <= q - p < width D ->
  (s <- operator_add a b ;; increasedTo q s)
  = (a' <- increasedTo q a ;; b' <- increasedTo q b ;; operator_add a' b').
Proof.
  intros Hp Hq Hd.
  rewrite operator_add_eq by assumption. cbv [obind].
  rewrite !increasedTo_eq by assumption.
  rewrite operator_add_eq by assumption. cbn [value_].
  do 2 f_equal. rewrite wrap_add.
  rewrite <- Z.mul_add_distr_r.
  apply wrap_congr. rewrite Zmult_mod, wrap_mod, <- Zmult_mod. reflexivity.
Qed.

Lemma increasedTo_add_witness :
  (s <- operator_add (FP 2000000000 : tFixedPoint 8 TInt) (FP 2000000000) ;;
   increasedTo 12 s)
  = (a' <- increasedTo 12 (FP 2000000000 : tFixedPoint 8 TInt) ;;
     b' <- increasedTo 12 (FP 2000000000 : tFixedPoint 8 TInt) ;;
     operator_add a' b').
Proof.
  apply (increasedTo_add 8 12 TInt (FP 2000000000) (FP 2000000000));
    [ unfold in_range; cbn; lia | unfold in_range; cbn; lia | cbn; lia ].
Defined.

(** ** Addition, subtraction and negation *)

Lemma operator_sub_eq (Q : Z) (D : DataType) (a b : tFixedPoint Q D) :
  in_range TInt Q ->
  operator_sub a b = Some (FP (wrap D (value_ a - value_ b))).
Proof.
  intros HQ. unfold operator_sub, qValue. rewrite create_eq by assumption.
  cbv [c_sub arith ty val]. rewrite common_type_same, wrap_wrap, wrap_sub.
  reflexivity.
Qed.

Lemma operator_neg_eq (Q : Z) (D : DataType) (a : tFixedPoint Q D) :
  in_range TInt Q ->
  operator_neg a = Some (FP (wrap D (- value_ a))).
Proof.
  intros HQ. unfold operator_neg, qValue. rewrite create_eq by assumption.
  cbv [c_neg ty val]. rewrite wrap_wrap. reflexivity.
Qed.

(** X9. Subtracting what was added gives the original value back, also
    when the sum overflowed and wrapped. *)
Theorem add_sub_cancel (Q : Z) (D : DataType) (a b : tFixedPoint Q D) :
  in_range TInt Q -> wf a ->
  (s <- operator_add a b ;; operator_sub s b) = Some a.
Proof.
  intros HQ R. destruct a as [A]. unfold wf in R. cbn [value_] in R.
  rewrite operator_add_eq by assumption. cbv [obind].
  rewrite operator_sub_eq by assumption. cbn [value_].
  rewrite <- (wrap_sub D (wrap D _)), wrap_wrap, wrap_sub.
  replace (A + value_ b - value_ b) with A by lia.
  rewrite wrap_id by assumption. reflexivity.
Qed.

Lemma add_sub_cancel_witness :
  (s <- operator_add (FP 2000000000 : tFixedPoint 8 TInt) (FP 2000000000) ;;
   operator_sub s (FP 2000000000))
  = Some (FP 2000000000).
Proof.
  apply (add_sub_cancel 8 TInt (FP 2000000000) (FP 2000000000));
    unfold wf, in_range; cbn; lia.
Defined.

(** X10. Negating twice gives the original value back, and [a - b] is
    [a + (-b)]; both hold on the minimum of the storage type as well, whose
    negation is itself. *)
Theorem operator_neg_laws (Q : Z) (D : DataType) (a b : tFixedPoint Q D) :
  in_range TInt Q -> wf a ->
  (n <- operator_neg a ;; operator_neg n) = Some a
  /\ operator_sub a b = (n <- operator_neg b ;; operator_add a n)
  /\ (value_ a = min_value D -> operator_neg a = Some a).
Proof.
  intros HQ R. destruct a as [A]. unfold wf in R. cbn [value_] in *.
  rewrite !operator_neg_eq by assumption. cbv [obind].
  rewrite operator_neg_eq, operator_sub_eq, operator_add_eq by assumption.
  cbn [value_]. split; [ | split ].
  - do 2 f_equal. rewrite <- (wrap_id D A) at 2 by assumption.
    apply wrap_congr.
    rewrite <- (Z.sub_0_l (wrap D (- A))), <- (Z.sub_0_l A) at 1.
    rewrite Zminus_mod, wrap_mod, <- Zminus_mod.
    f_equal; lia.
  - do 2 f_equal. apply wrap_congr.
    rewrite (Zplus_mod A (wrap D _)), wrap_mod, <- Zplus_mod. f_equal; lia.
  - intros E. subst A. do 2 f_equal.
    unfold min_value, wrap, modulus. destruct D; reflexivity.
Qed.

Lemma operator_neg_laws_witness :
  (n <- operator_neg (FP (-2147483648) : tFixedPoint 8 TInt) ;; operator_neg n)
  = Some (FP (-2147483648))
  /\ operator_sub (FP (-2147483648) : tFixedPoint 8 TInt) (FP 5)
     = (n <- operator_neg (FP 5 : tFixedPoint 8 TInt) ;;
        operator_add (FP (-2147483648)) n)
  /\ (-2147483648 = min_value TInt ->
      operator_neg (FP (-2147483648) : tFixedPoint 8 TInt) = Some (FP (-2147483648))).
Proof.
  apply (operator_neg_laws 8 TInt (FP (-2147483648)) (FP 5));
    unfold wf, in_range; cbn; lia.
Defined.

(** ** Division *)

(** X11. For a positive receiver [a] and a non-negative argument [b] of its
    type, when the sum [rawB + rawA / 2] is a value of the storage type (it
    does not overflow), [a / b] is the raw value of [b] divided by the raw
    value of [a], rounded to the nearest integer: the quotient of the
    argument by the receiver. In particular [a / b] is [k] when the raw
    value of [b] is [k] times that of [a]. *)
Theorem operator_div_is_quotient (Q : Z) (D : DataType) (a b : tFixedPoint Q D) :
  wf a -> wf b -> 0 < value_ a -> 0 <= value_ b ->
  in_range D (value_ b + value_ a / 2) ->
  exists r : Z,
    operator_div a b = Some r
    /\ - value_ a <= 2 * (value_ b - r * value_ a) < value_ a
    /\ (forall k : Z, value_ b = k * value_ a -> r = k).
Proof.
  intros Ra Rb PA PB Rs.
  set (A := value_ a) in *. set (B := value_ b) in *.
  assert (S1 : Z.shiftr A 1 = A / 2) by (rewrite Z.shiftr_div_pow2 by lia; reflexivity).
  pose proof (Z.div_mod A 2 ltac:(lia)) as DA.
  pose proof (Z.mod_pos_bound A 2 ltac:(lia)) as MA.
  pose proof (Z.div_mod (B + A / 2) A ltac:(lia)) as DM.
  pose proof (Z.mod_pos_bound (B + A / 2) A PA) as MB.
  assert (R0 : 0 <= (B + A / 2) / A) by (apply Z.div_pos; lia).
  assert (RU : (B + A / 2) / A <= B + A / 2)
    by (apply Z.div_le_upper_bound; [ lia | nia ]).
  exists ((B + A / 2) / A). split; [ | split ].
  - assert (RQ : in_range D ((B + A / 2) / A)).
    { destruct Rs as [L U]. split; [ | lia ].
      assert (min_value D <= 0) by (unfold min_value; destruct D; cbn; lia). lia. }
    assert (EQ : Z.quot (wrap D (B + Z.shiftr A 1)) A = (B + A / 2) / A).
    { rewrite S1, (wrap_id D (B + A / 2)) by assumption.
      apply Z.quot_div_nonneg; lia. }
    unfold operator_div, qValue. fold A B.
    rewrite FIXEDPOINT_IMPL_DIVIDE_same by (rewrite ?EQ; assumption || lia).
    cbv [obind convert val]. rewrite EQ, wrap_id by exact RQ. reflexivity.
  - nia.
  - intros k E.
    assert (K : B + A / 2 = A / 2 + k * A) by lia.
    rewrite K, Z.div_add by lia. rewrite Z.div_small by lia. lia.
Qed.

Lemma operator_div_is_quotient_witness :
  exists r : Z,
    operator_div (FP 512 : tFixedPoint 8 TInt) (FP 1536 : tFixedPoint 8 TInt) = Some r
    /\ - 512 <= 2 * (1536 - r * 512) < 512
    /\ (forall k : Z, 1536 = k * 512 -> r = k).
Proof.
  apply (operator_div_is_quotient 8 TInt (FP 512) (FP 1536));
    try (unfold wf, in_range; cbn; lia); cbn; lia.
Defined.



(** ** Multiplication *)

(** X13. Multiplication by a plain integer distributes over the sum of the
    integers: [a * m + a * n] is [a * (m + n)], with the same raw value even
    when a product wraps. *)
Theorem operator_mul_scalar_add (Q : Z) (D : DataType) (a : tFixedPoint Q D) (m n : Z) :
  in_range TInt Q ->
  (x <- operator_mul_scalar a (CV D m) ;;
   y <- operator_mul_scalar a (CV D n) ;;
   operator_add x y)
  = operator_mul_scalar a (CV D (m + n)).
Proof.
  intros HQ. unfold operator_mul_scalar, qValue.
  rewrite !create_eq by assumption. cbv [obind].
  rewrite operator_add_eq by assumption. cbn [value_].
  rewrite !c_mul_val. do 2 f_equal.
  rewrite wrap_add. f_equal. lia.
Qed.

Lemma operator_mul_scalar_add_witness :
  (x <- operator_mul_scalar (FP 768 : tFixedPoint 8 TInt) (CV TInt 3) ;;
   y <- operator_mul_scalar (FP 768 : tFixedPoint 8 TInt) (CV TInt 4) ;;
   operator_add x y)
  = operator_mul_scalar (FP 768 : tFixedPoint 8 TInt) (CV TInt (3 + 4)).
Proof.
  apply (operator_mul_scalar_add 8 TInt (FP 768) 3 4). unfold in_range; cbn; lia.
Defined.

(** X14. When the storage type of [b] converts to that of [a], the compound
    [a *= b] with a [b] of another precision [q] is the full-precision
    product rounded back: [(a * b).roundedTo<p>()]. *)
Theorem operator_mul_assign_cross_rounds (p q : Z) (D D2 : DataType)
  (a : tFixedPoint p D) (b : tFixedPoint q D2) :
  common_type D D2 = D -> in_range TInt p -> 1 <= q <= 31 ->
  0 <= p + q <= max_value TInt ->
  operator_mul_assign_cross a b = (m <- operator_mul_cross a b ;; roundedTo p m).
Proof.
  intros HT Hp Hq Hpq.
  assert (E : c_mul (qValue a) (qValue b) = CV D (wrap D (value_ a * value_ b))).
  { unfold qValue. cbv [c_mul arith ty val]. rewrite HT, wrap_mul. reflexivity. }
  unfold operator_mul_assign_cross, operator_mul_cross.
  rewrite E, FIXEDPOINT_IMPL_ROUND_eq by assumption.
  rewrite create_eq by (unfold in_range; cbn in *; lia).
  cbv [obind convert val].
  unfold roundedTo, qValue. cbn [value_].
  replace (p + q - p) with q by lia.
  rewrite wrap_wrap, FIXEDPOINT_IMPL_ROUND_eq by assumption. cbv [obind].
  rewrite create_eq by assumption. reflexivity.
Qed.

Lemma operator_mul_assign_cross_rounds_witness :
  operator_mul_assign_cross (FP 640 : tFixedPoint 8 TInt) (FP 24 : tFixedPoint 4 TInt)
  = (m <- operator_mul_cross (FP 640 : tFixedPoint 8 TInt) (FP 24 : tFixedPoint 4 TInt) ;;
     roundedTo 8 m).
Proof.
  apply (operator_mul_assign_cross_rounds 8 4 TInt TInt (FP 640) (FP 24));
    [ reflexivity | unfold in_range; cbn; lia | lia | cbn; lia ].
Defined.

(** ** Values of another fixed-point type *)

(** X15. Adding a value of lower precision is converting it to the type of
    the left operand and adding: [a + b] is [a + tFixedPoint<p,DataType>( b )]. *)
Theorem operator_add_cross_converts (p q : Z) (D D2 : DataType)
  (a : tFixedPoint p D) (b : tFixedPoint q D2) :
  in_range TInt p -> 0 <= p - q < width D2 ->
  operator_add_cross a b = (w <- ctor_from b ;; operator_add a w).
Proof.
  intros Hp Hd. unfold operator_add_cross, ctor_from, qValue.
  rewrite c_shl_ok by (cbv [ty]; lia). cbv [obind ty val].
  rewrite create_eq, operator_add_eq by assumption. cbn [value_].
  cbv [c_add arith convert ty val]. do 2 f_equal.
  pose proof (width_common_l D D2) as W.
  rewrite wrap_wider by assumption.
  apply wrap_congr.
  rewrite Zplus_mod, !wrap_mod_wider by assumption.
  symmetry. rewrite Zplus_mod, (wrap_mod D). reflexivity.
Qed.

Lemma operator_add_cross_converts_witness :
  operator_add_cross (FP 640 : tFixedPoint 8 TInt) (FP 24 : tFixedPoint 4 TInt)
  = (w <- ctor_from (FP 24 : tFixedPoint 4 TInt) ;;
     operator_add (FP 640 : tFixedPoint 8 TInt) w).
Proof.
  apply (operator_add_cross_converts 8 4 TInt TInt (FP 640) (FP 24));
    [ unfold in_range; cbn; lia | cbn; lia ].
Defined.

(** X16. The converting constructor shifts in the storage type of its
    source and [increasedTo<p,DataType>()], which assignment uses, in the
    storage type of its result. The two agree whenever the source type holds
    the shifted raw value, and then give the exact widened value if the
    result type holds it too. *)
Theorem ctor_from_increasedTo (p q : Z) (D D2 : DataType) (b : tFixedPoint q D2) :
  in_range TInt p -> 0 <= p - q < 32 ->
  in_range D2 (value_ b * 2 ^ (p - q)) ->
  @ctor_from p D q D2 b = increasedTo2 p D b
  /\ (in_range D (value_ b * 2 ^ (p - q)) ->
      @ctor_from p D q D2 b = Some (FP (value_ b * 2 ^ (p - q)))).
Proof.
  intros Hp Hd Rs.
  assert (C : @ctor_from p D q D2 b = Some (FP (wrap D (value_ b * 2 ^ (p - q))))).
  { unfold ctor_from, qValue.
    rewrite c_shl_ok by (pose proof (width_bounds D2); cbv [ty]; lia).
    cbv [obind convert ty val].
    rewrite Z.shiftl_mul_pow2, (wrap_id D2) by (assumption || lia). reflexivity. }
  split.
  - rewrite C. unfold increasedTo2, qValue.
    rewrite c_shl_ok by (pose proof (width_bounds D); cbv [convert ty]; lia).
    cbv [obind convert ty val].
    rewrite create_eq by assumption. cbv [val].
    rewrite wrap_wrap, Z.shiftl_mul_pow2 by lia.
    do 2 f_equal. symmetry. apply wrap_congr.
    rewrite Zmult_mod, wrap_mod, <- Zmult_mod. reflexivity.
  - intros R. rewrite C, wrap_id by assumption. reflexivity.
Qed.

Lemma ctor_from_increasedTo_witness :
  @ctor_from 36 TLongLong 8 TInt (FP 7) = increasedTo2 36 TLongLong (FP 7 : tFixedPoint 8 TInt)
  /\ (in_range TLongLong (7 * 2 ^ (36 - 8)) ->
      @ctor_from 36 TLongLong 8 TInt (FP 7) = Some (FP (7 * 2 ^ (36 - 8)))).
Proof.
  apply (ctor_from_increasedTo 36 8 TLongLong TInt (FP 7));
    [ unfold in_range; cbn; lia | lia | unfold in_range; cbn; lia ].
Defined.

(** Beyond that the two differ: [1.0] at 8 fractional bits in an [int],
    converted to 36 fractional bits in a [long long], is [2^36] by
    [increasedTo] and 0 by the constructor, which shifts the [int]. *)
Example ctor_from_shifts_source :
  option_map value_ (@ctor_from 36 TLongLong 8 TInt (FP 256)) = Some 0
  /\ option_map value_ (increasedTo2 36 TLongLong (FP 256 : tFixedPoint 8 TInt))
     = Some 68719476736.
Proof. split; reflexivity. Qed.

(** X17. The comparisons with a value of another fixed-point type hand the
    raw value of the left operand to the scalar helpers, which scale it as an
    integer: by [2^p], and to one raw unit more when the scaling goes through
    [rounded_] (floating-point support enabled) with a negative value. So
    [a == b] compares the widened raw value of [b] with that scaled raw value
    of [a], and [a < b] holds when the scaled value is at most the widened
    raw value of [b]. A nonzero [a] with [p >= 1] fractional bits is therefore
    not equal to a [b] that denotes the same number; the one exception is the
    raw value [-1] at one fractional bit with floating-point support. This
    is for values that fit: the widened and the scaled raw values are values
    of the storage type of [a] and, with floating-point support, the scaled
    one is below [2^52] in magnitude. *)
Theorem operator_eq_cross_scales (float_support : bool) (p q : Z) (D D2 : DataType)
  (a : tFixedPoint p D) (b : tFixedPoint q D2) :
  in_range TInt p -> 0 <= q <= p -> p < width D -> wf a ->
  in_range D (value_ b * 2 ^ (p - q)) ->
  in_range D (value_ a * 2 ^ p) ->
  (float_support = true ->
   p <= 52 /\ in_range D (2 ^ p) /\ Z.abs (value_ a * 2 ^ p) < 2 ^ 52) ->
  operator_eq_cross float_support a b
  = Some (value_ b * 2 ^ (p - q) =? scaled_scalar float_support p (value_ a))
  /\ operator_lt_cross float_support a b
     = Some (scaled_scalar float_support p (value_ a) <=? value_ b * 2 ^ (p - q))
  /\ (value_ a = value_ b * 2 ^ (p - q) -> value_ a <> 0 -> 1 <= p ->
      ~ (float_support = true /\ value_ a = -1 /\ p = 1) ->
      operator_eq_cross float_support a b = Some false).
Proof.
  intros Hp Hq HW Ra Rb Rs Hfs.
  assert (P : 0 < 2 ^ p) by (apply Z.pow_pos_nonneg; lia).
  assert (I : increasedTo2 p D b = Some (FP (value_ b * 2 ^ (p - q)))).
  { unfold increasedTo2, qValue.
    rewrite c_shl_ok by (cbv [convert ty]; lia). cbv [obind convert ty val].
    rewrite create_eq by assumption. cbv [val].
    rewrite wrap_wrap, Z.shiftl_mul_pow2 by lia.
    do 2 f_equal. etransitivity; [ | apply wrap_id; exact Rb ].
    apply wrap_congr. rewrite Zmult_mod, wrap_mod, <- Zmult_mod. reflexivity. }
  pose proof (ctor1_eq p D (value_ a) ltac:(lia) Ra Rs) as C.
  assert (M0 : min_value D <= 0) by (unfold min_value; destruct D; cbn; lia).
  assert (RS : in_range D (scaled_scalar float_support p (value_ a))).
  { unfold scaled_scalar.
    destruct float_support; cbn [andb]; [ | exact Rs ].
    destruct (Z.ltb_spec (value_ a) 0); [ | exact Rs ].
    assert (0 <= max_value D) by (unfold max_value; destruct D; cbn; lia).
    destruct Rs as [L U]. split; nia. }
  assert (R : float_support = true ->
              @rounded_ p D (double_of_Z (value_ a))
              = Some (scaled_scalar true p (value_ a))).
  { intros F. destruct (Hfs F) as (Q52 & R2 & N52). subst float_support.
    unfold scaled_scalar in *. cbn [andb] in *.
    assert (T : (0 <=? value_ a) = negb (value_ a <? 0))
      by (destruct (Z.leb_spec 0 (value_ a)), (Z.ltb_spec (value_ a) 0); reflexivity || lia).
    rewrite (rounded_of_int p D (value_ a));
      [ | lia | lia | assumption | assumption | ];
      rewrite T; destruct (value_ a <? 0); cbn [negb]; [ reflexivity | reflexivity | exact RS | exact RS ]. }
  assert (E : operator_eq_cross float_support a b
              = Some (value_ b * 2 ^ (p - q) =? scaled_scalar float_support p (value_ a))).
  { unfold operator_eq_cross. rewrite I. cbv [obind].
    unfold free_operator_eq, scalar_compare. destruct float_support.
    - unfold operator_eq_double. rewrite R by reflexivity. cbv [obind].
      unfold c_eq, qValue. rewrite compare_same by assumption. reflexivity.
    - rewrite C. cbv [obind]. unfold operator_eq, c_eq, qValue.
      rewrite compare_same by assumption. reflexivity. }
  split; [ exact E | split ].
  - unfold operator_lt_cross. rewrite I. cbv [obind].
    unfold free_operator_lt, scalar_compare. destruct float_support.
    + unfold operator_ge_double. rewrite R by reflexivity. cbv [obind].
      unfold c_ge, qValue. rewrite compare_same by assumption.
      cbn [value_]. rewrite Z.geb_leb. reflexivity.
    + rewrite C. cbv [obind]. unfold operator_ge, c_ge, qValue.
      rewrite compare_same by assumption. cbn [value_]. rewrite Z.geb_leb. reflexivity.
  - intros Same NZ P1 NX. rewrite E. f_equal. apply Z.eqb_neq.
    rewrite <- Same.
    assert (P2 : 2 <= 2 ^ p).
    { change 2 with (2 ^ 1) at 1. apply Z.pow_le_mono_r; lia. }
    assert (P4 : 2 <= p -> 4 <= 2 ^ p).
    { intros G. change 4 with (2 ^ 2). apply Z.pow_le_mono_r; lia. }
    unfold scaled_scalar.
    destruct float_support; cbn [andb]; [ | nia ].
    destruct (Z.ltb_spec (value_ a) 0) as [N | N]; [ | nia ].
    destruct (Z.eq_dec p 1) as [-> | P1'].
    + change (2 ^ 1) with 2. intros G.
      apply NX. repeat split; lia.
    + specialize (P4 ltac:(lia)). nia.
Qed.

Lemma operator_eq_cross_scales_witness :
  operator_eq_cross true (FP (-256) : tFixedPoint 8 TInt) (FP (-16) : tFixedPoint 4 TInt)
  = Some false.
Proof.
  refine (proj2 (proj2 (operator_eq_cross_scales true 8 4 TInt TInt (FP (-256)) (FP (-16))
                          _ _ _ _ _ _ _)) _ _ _ _).
  - unfold in_range; cbn; lia.
  - lia.
  - cbn; lia.
  - unfold wf, in_range; cbn; lia.
  - unfold in_range; cbn; lia.
  - unfold in_range; cbn; lia.
  - intros _. unfold in_range. cbn. lia.
  - reflexivity.
  - cbn; lia.
  - lia.
  - cbn. lia.
Defined.

(** With floating-point support the raw value [-1] at one fractional bit is
    the exception: [rounded_( -1.0 )] is [-2 + 0.5] truncated toward zero,
    [-1] again. *)
Example operator_eq_cross_minus_one :
  operator_eq_cross true (FP (-1) : tFixedPoint 1 TInt) (FP (-1) : tFixedPoint 1 TLongLong)
  = Some true
  /\ operator_eq_cross false (FP (-1) : tFixedPoint 1 TInt)
                       (FP (-1) : tFixedPoint 1 TLongLong)
     = Some false.
Proof. split; reflexivity. Qed.

(** ** Construction from a [double] *)

Lemma double_truncate_scaled (s : bool) (p : positive) (Q : Z) :
  0 <= Q -> Zpos p * 2 ^ Q < 2 ^ 53 ->
  double_truncate (S754_finite s (norm_mant p) (Zpos (digits2_pos p) - 53 + Q))
  = Some (if s then - (Zpos p * 2 ^ Q) else Zpos p * 2 ^ Q).
Proof.
  intros HQ HN.
  assert (P : 0 < 2 ^ Q) by (apply Z.pow_pos_nonneg; lia).
  assert (Hd : Zpos (digits2_pos p) <= 53) by (apply digits_le_53; nia).
  pose proof (Pos2Z.is_pos (digits2_pos p)) as Hd0.
  unfold double_truncate.
  assert (M : (if 0 <=? Zpos (digits2_pos p) - 53 + Q
               then Z.shiftl (Zpos (norm_mant p)) (Zpos (digits2_pos p) - 53 + Q)
               else Z.shiftr (Zpos (norm_mant p)) (- (Zpos (digits2_pos p) - 53 + Q)))
              = Zpos p * 2 ^ Q).
  { rewrite norm_mant_Z by assumption.
    destruct (Z.leb_spec 0 (Zpos (digits2_pos p) - 53 + Q)).
    - rewrite Z.shiftl_mul_pow2 by lia.
      rewrite <- Z.mul_assoc, <- Z.pow_add_r by lia. do 2 f_equal. lia.
    - rewrite Z.shiftr_div_pow2 by lia.
      replace (53 - Zpos (digits2_pos p))
        with (Q + - (Zpos (digits2_pos p) - 53 + Q)) by lia.
      rewrite Z.pow_add_r, Z.mul_assoc by lia.
      apply Z.div_mul. apply Z.pow_nonzero; lia. }
  rewrite M. reflexivity.
Qed.

(** [truncated_] on an integer [n] is [n * 2^Q]. *)
Lemma truncated_of_int (Q : Z) (D : DataType) (n : Z) :
  0 <= Q <= 52 -> Q < width D -> in_range D (2 ^ Q) ->
  Z.abs (n * 2 ^ Q) < 2 ^ 52 -> in_range D (n * 2 ^ Q) ->
  @truncated_ Q D (double_of_Z n) = Some (n * 2 ^ Q).
Proof.
  intros HQ HW H2 HN HR. unfold truncated_.
  rewrite c_shl_ok by (cbv [convert ty]; lia).
  cbv [obind convert ty val].
  rewrite (wrap_id D 1) by (apply in_range_small; lia).
  rewrite Z.shiftl_1_l, wrap_id by assumption.
  assert (P : 0 < 2 ^ Q) by (apply Z.pow_pos_nonneg; lia).
  apply in_rangeb_spec in HR.
  destruct n as [ | p | p ].
  - unfold double_of_Z. rewrite binary_normalize_pow2 by assumption.
    cbn [binary_normalize Z.mul] in *.
    unfold double_mul, double_to. cbn. rewrite HR. reflexivity.
  - assert (HP : Zpos p * 2 ^ Q < 2 ^ 52) by lia.
    destruct (double_of_Z_pos p) as [E _].
    { change (2 ^ 53) with (2 * 2 ^ 52). nia. }
    pose proof (digits_scaled p Q ltac:(lia) HP) as Hd.
    pose proof (Pos2Z.is_pos (digits2_pos p)) as Hd0.
    rewrite E, double_mul_pow2 by (try apply norm_mant_digits; lia).
    unfold double_to. rewrite double_truncate_scaled by (change (2 ^ 53) with (2 * 2 ^ 52); lia).
    cbv [obind]. rewrite HR. reflexivity.
  - assert (HP : Zpos p * 2 ^ Q < 2 ^ 52).
    { replace (Zneg p * 2 ^ Q) with (- (Zpos p * 2 ^ Q)) in HN by lia. lia. }
    destruct (double_of_Z_pos p) as [_ E].
    { change (2 ^ 53) with (2 * 2 ^ 52). nia. }
    pose proof (digits_scaled p Q ltac:(lia) HP) as Hd.
    pose proof (Pos2Z.is_pos (digits2_pos p)) as Hd0.
    rewrite E, double_mul_pow2 by (try apply norm_mant_digits; lia).
    unfold double_to. rewrite double_truncate_scaled by (change (2 ^ 53) with (2 * 2 ^ 52); lia).
    cbv [obind].
    replace (- (Zpos p * 2 ^ Q)) with (Zneg p * 2 ^ Q) by lia.
    rewrite HR. reflexivity.
Qed.

(** X18. From the [double] of an integer [n], [truncated()] gives exactly
    the value the integer constructor gives; the rounding constructor
    [tFixedPoint( double )] gives the same for [n >= 0] and one raw unit more
    for [n < 0], because it adds [0.5] and then truncates toward zero. *)
Theorem double_of_int_constructors (Q : Z) (D : DataType) (n : Z) :
  0 <= Q <= 52 -> Q < width D -> in_range TInt Q -> in_range D (2 ^ Q) ->
  in_range D n ->
  Z.abs (n * 2 ^ Q) < 2 ^ 52 -> in_range D (n * 2 ^ Q) ->
  in_range D (n * 2 ^ Q + 1) ->
  @ctor1 Q D (CV D n) = Some (FP (n * 2 ^ Q))
  /\ @truncated Q D (double_of_Z n) = Some (FP (n * 2 ^ Q))
  /\ @ctor_double Q D (double_of_Z n)
     = Some (FP (if 0 <=? n then n * 2 ^ Q else n * 2 ^ Q + 1)).
Proof.
  intros HQ HW HI H2 Rn HN HR HR1. split; [ | split ].
  - apply ctor1_eq; assumption || lia.
  - unfold truncated. rewrite truncated_of_int by assumption. cbv [obind].
    rewrite create_eq by assumption. cbv [val]. rewrite wrap_id by assumption.
    reflexivity.
  - unfold ctor_double. rewrite rounded_of_int; try assumption.
    + reflexivity.
    + destruct (0 <=? n); assumption.
Qed.

Lemma double_of_int_constructors_witness :
  @ctor1 8 TInt (CV TInt (-3)) = Some (FP (-768))
  /\ @truncated 8 TInt (double_of_Z (-3)) = Some (FP (-768))
  /\ @ctor_double 8 TInt (double_of_Z (-3)) = Some (FP (-767)).
Proof.
  apply (double_of_int_constructors 8 TInt (-3));
    try (unfold in_range; cbn; lia); cbn; lia.
Defined.

(** ** Decimal places *)

(** X19. A value without fractional bits has the decimal places 0, for any
    number of decimals, and the loop of [fracPlaces] is not entered. *)
Theorem fracPlaces_integer (Q : Z) (D : DataType) (v : tFixedPoint Q D)
  (decimals : Z) (fuel : nat) :
  1 <= Q <= 31 -> wf v -> value_ v mod 2 ^ Q = 0 ->
  fracPlaces fuel v decimals = Some (0, O).
Proof.
  intros HQ R Z0. pose proof (pow2_le_31 Q ltac:(lia)) as P.
  assert (A : absFracPart v = Some 0).
  { rewrite absFracPart_eq, absolute_eq by (assumption || lia).
    destruct (0 <=? value_ v); [ rewrite Z0; reflexivity | ].
    rewrite wrap_mod_pow2 by lia.
    rewrite Z.mod_opp_l_z by (assumption || lia). reflexivity. }
  unfold fracPlaces, fracPlaces_init. rewrite A. cbv [obind].
  rewrite (one_shl (cXBits - 1)) by (cbv [cXBits]; lia).
  rewrite (one_shl (Q - 1)) by lia.
  assert (L : forall s : loop_state, ls_frac s = 0 -> ls_result s = 0 ->
              (r <- @fracPlaces_loop D fuel s ;;
               v0 <- c_shr (c_add (CV D (ls_result (fst r))) (CV TInt (2 ^ (cXBits - 1)))) cXBits ;;
               Some (val (convert D v0), snd r)) = Some (0, O)).
  { intros s F Rz. destruct fuel; cbn [fracPlaces_loop]; rewrite F; cbn [Z.eqb obind fst snd];
      rewrite Rz; destruct D; reflexivity. }
  apply L; reflexivity.
Qed.

Lemma fracPlaces_integer_witness :
  fracPlaces 0 (FP 768 : tFixedPoint 8 TInt) 3 = Some (0, O).
Proof.
  apply (fracPlaces_integer 8 TInt (FP 768) 3 0);
    [ lia | unfold wf, in_range; cbn; lia | reflexivity ].
Defined.

(** [dec_qx] on entry of the second loop, for at most 8 decimals. *)
Lemma dec_qx_init (k : nat) :
  (k <= 8)%nat ->
  Nat.iter k (fun d => convert TUInt (c_mul d (CV TInt 10))) (CV TUInt 8)
  = CV TUInt (8 * 10 ^ Z.of_nat k).
Proof.
  induction k as [ | k IH ]; intros H.
  - reflexivity.
  - cbn [Nat.iter nat_rect]. unfold Nat.iter in IH. rewrite IH by lia.
    assert (B : 0 < 10 ^ Z.of_nat k <= 10 ^ 7).
    { split; [ apply Z.pow_pos_nonneg; lia | apply Z.pow_le_mono_r; lia ]. }
    change (10 ^ 7) with 10000000 in B.
    rewrite Nat2Z.inj_succ, Z.pow_succ_r by lia.
    cbv [convert c_mul arith ty val common_type].
    change (2 ^ 31) with 2147483648 in *.
    rewrite (wrap_id TUInt (8 * _)) by (apply in_range_small; lia).
    rewrite (wrap_id TUInt 10) by (apply in_range_small; lia).
    rewrite !(wrap_id TUInt (8 * _ * 10)) by (apply in_range_small; lia).
    f_equal; lia.
Qed.

(** One pass of the loop in closed form: the bit of [frac] under the mask is
    cleared and, when it was set, [dec_qx] is added to [result]. *)
Lemma loop_body_exact (D : DataType) (s : loop_state) (j : Z) :
  0 <= j <= 30 ->
  ls_mask s = 2 ^ j ->
  0 <= ls_frac s < 2 ^ (j + 1) ->
  0 <= ls_dec_qx s -> 0 <= ls_result s ->
  ls_result s + ls_dec_qx s < 2 ^ 31 ->
  @loop_body D s
  = Some (LS (if ls_frac s <? 2 ^ j then ls_frac s else ls_frac s - 2 ^ j)
             (Z.shiftr (2 ^ j) 1)
             (ls_dec_qx s / 2)
             (if ls_frac s <? 2 ^ j then ls_result s else ls_result s + ls_dec_qx s)).
Proof.
  intros Hj Hm Hf Hq Hr Hs.
  pose proof (pow2_le_30 j Hj) as P.
  assert (E : 2 ^ (j + 1) = 2 * 2 ^ j) by (rewrite Z.pow_add_r by lia; lia).
  unfold loop_body.
  rewrite !c_shr_ok by (pose proof (width_bounds D); cbv [ty]; cbn; lia).
  cbv [obind]. f_equal.
  cbv [c_and c_sub c_add arith ty val convert]. rewrite common_type_same, Hm.
  rewrite (wrap_id D (ls_frac s)) by (apply in_range_small; lia).
  rewrite (wrap_id D (2 ^ j)) by (apply in_range_small; lia).
  rewrite land_top_bit by lia.
  rewrite (Z.shiftr_div_pow2 (ls_dec_qx s)) by lia. change (2 ^ 1) with 2.
  destruct (ls_frac s <? 2 ^ j) eqn:C.
  - apply Z.ltb_lt in C.
    rewrite (wrap_id D 0) by (apply in_range_small; lia).
    cbn [Z.eqb negb val]. reflexivity.
  - apply Z.ltb_ge in C.
    rewrite (wrap_id D (2 ^ j)) by (apply in_range_small; lia).
    replace (2 ^ j =? 0) with false by (symmetry; apply Z.eqb_neq; lia).
    cbn [negb val].
    set (T := common_type D TUInt).
    rewrite (wrap_id D (ls_frac s - 2 ^ j)), (wrap_id D (ls_frac s - 2 ^ j))
      by (apply in_range_small; lia).
    rewrite (wrap_id T (ls_result s)), (wrap_id T (ls_dec_qx s))
      by (apply in_range_small; lia).
    rewrite (wrap_id T (_ + _)), (wrap_id D (_ + _))
      by (apply in_range_small; lia).
    reflexivity.
Qed.

(** The loop adds to [result] the weighted bits of [frac]: started with
    [frac] below [2^n], the mask on its top bit and [dec_qx] the weight of
    that bit, it ends within [n] passes and falls short of the exact
    [2 * dec_qx * frac / 2^n] by less than [n]. *)
Lemma fracPlaces_loop_sum (D : DataType) (n : nat) :
  forall (fuel : nat) (s : loop_state),
    (n <= fuel)%nat -> Z.of_nat n <= 31 ->
    ls_mask s = Z.shiftr (2 ^ Z.of_nat n) 1 ->
    0 <= ls_frac s < 2 ^ Z.of_nat n ->
    0 <= ls_dec_qx s -> 0 <= ls_result s ->
    ls_result s + 2 * ls_dec_qx s < 2 ^ 31 ->
    exists (s' : loop_state) (k : nat),
      @fracPlaces_loop D fuel s = Some (s', k)
      /\ (k <= n)%nat
      /\ ls_result s <= ls_result s'
      /\ 0 <= 2 * ls_dec_qx s * ls_frac s
              - (ls_result s' - ls_result s) * 2 ^ Z.of_nat n
           <= Z.of_nat n * 2 ^ Z.of_nat n.
Proof.
  induction n as [ | n IH ]; intros fuel s Hfuel Hn Hm Hf Hq Hr Hs.
  - assert (Z0 : ls_frac s = 0) by (cbn in Hf; lia).
    exists s, O. split; [ | split; [ lia | split; [ lia | ] ] ].
    + destruct fuel; cbn; rewrite Z0; reflexivity.
    + rewrite Z0. cbn. lia.
  - assert (P : 0 < 2 ^ Z.of_nat n) by (apply Z.pow_pos_nonneg; lia).
    assert (E : 2 ^ Z.of_nat (S n) = 2 * 2 ^ Z.of_nat n)
      by (rewrite Nat2Z.inj_succ, Z.pow_succ_r by lia; reflexivity).
    destruct (Z.eq_dec (ls_frac s) 0) as [Z0 | NZ].
    + exists s, O. split; [ | split; [ lia | split; [ lia | ] ] ].
      * destruct fuel; cbn; rewrite Z0; reflexivity.
      * rewrite Z0. nia.
    + destruct fuel as [ | fuel ]; [ lia | ].
      assert (Mj : Z.shiftr (2 ^ Z.of_nat (S n)) 1 = 2 ^ Z.of_nat n).
      { rewrite Z.shiftr_div_pow2 by lia. rewrite E.
        change (2 ^ 1) with 2. rewrite Z.mul_comm. apply Z.div_mul. lia. }
      rewrite Mj in Hm.
      pose proof (loop_body_exact D s (Z.of_nat n) ltac:(lia) Hm) as B.
      replace (Z.of_nat n + 1) with (Z.of_nat (S n)) in B by lia.
      specialize (B Hf Hq Hr ltac:(lia)).
      pose proof (Z.div_mod (ls_dec_qx s) 2 ltac:(lia)) as DQ.
      pose proof (Z.mod_pos_bound (ls_dec_qx s) 2 ltac:(lia)) as MQ.
      set (s1 := LS (if ls_frac s <? 2 ^ Z.of_nat n
                     then ls_frac s else ls_frac s - 2 ^ Z.of_nat n)
                    (Z.shiftr (2 ^ Z.of_nat n) 1)
                    (ls_dec_qx s / 2)
                    (if ls_frac s <? 2 ^ Z.of_nat n
                     then ls_result s else ls_result s + ls_dec_qx s)) in *.
      destruct (IH fuel s1) as [s' [k [L [K [G A]]]]].
      * lia.
      * lia.
      * reflexivity.
      * cbn [s1 ls_frac]. destruct (Z.ltb_spec (ls_frac s) (2 ^ Z.of_nat n)); lia.
      * cbn [s1 ls_dec_qx]. lia.
      * cbn [s1 ls_result]. destruct (ls_frac s <? 2 ^ Z.of_nat n); lia.
      * cbn [s1 ls_result ls_dec_qx].
        destruct (ls_frac s <? 2 ^ Z.of_nat n); lia.
      * exists s', (S k). split; [ | split; [ lia | split ] ].
        -- cbn [fracPlaces_loop]. apply Z.eqb_neq in NZ. rewrite NZ, B.
           cbv [obind]. rewrite L. reflexivity.
        -- cbn [s1 ls_result] in G.
           destruct (ls_frac s <? 2 ^ Z.of_nat n); lia.
        -- cbn [s1 ls_frac ls_dec_qx ls_result] in A. rewrite E.
           set (M := 2 ^ Z.of_nat n) in *.
           set (q := ls_dec_qx s) in *. set (q1 := q / 2) in *.
           set (rho := q mod 2) in *.
           set (f := ls_frac s) in *. set (r0 := ls_result s) in *.
           set (r' := ls_result s') in *.
           replace (Z.of_nat (S n)) with (Z.of_nat n + 1) by lia.
           destruct (Z.ltb_spec f M) as [C | C].
           ++ assert (X : 2 * q * f - (r' - r0) * (2 * M)
                          = 2 * ((2 * q1 * f - (r' - r0) * M) + rho * f)) by nia.
              rewrite X. assert (0 <= rho * f < M) by nia. lia.
           ++ assert (X : 2 * q * f - (r' - r0) * (2 * M)
                          = 2 * ((2 * q1 * (f - M) - (r' - (r0 + q)) * M)
                                 + rho * (f - M))) by nia.
              rewrite X. assert (0 <= rho * (f - M) < M) by nia. lia.
Qed.

(** X20. For a value with [1 <= QBits <= 31] fractional bits and at most 8
    decimals, [fracPlaces(decimals)] returns within [QBits] passes an
    integer [r] close to the fraction [f / 2^QBits] scaled by
    [10^decimals], [f] being [absFracPart()]: [r] exceeds it by at most
    [1/2] and falls short of it by at most [(QBits + 7) / 16]. *)
Theorem fracPlaces_accuracy (Q : Z) (D : DataType) (v : tFixedPoint Q D)
  (decimals : Z) (fuel : nat) :
  1 <= Q <= 31 -> 0 <= decimals <= 8 -> (Z.to_nat Q <= fuel)%nat ->
  exists (f r : Z) (k : nat),
    absFracPart v = Some f
    /\ fracPlaces fuel v decimals = Some (r, k)
    /\ Z.of_nat k <= Q
    /\ (16 * r - 8) * 2 ^ Q <= 16 * 10 ^ decimals * f
    /\ 16 * 10 ^ decimals * f <= (16 * r + 7 + Q) * 2 ^ Q.
Proof.
  intros HQ Hdec Hfuel.
  destruct (absFracPart_bound Q D v ltac:(lia)) as [f [Ef Bf]].
  assert (P : 0 < 2 ^ Q) by (apply Z.pow_pos_nonneg; lia).
  assert (P10 : 0 < 10 ^ decimals <= 10 ^ 8).
  { split; [ apply Z.pow_pos_nonneg; lia | apply Z.pow_le_mono_r; lia ]. }
  change (10 ^ 8) with 100000000 in P10.
  set (c := 8 * 10 ^ decimals) in *.
  assert (Init : fracPlaces_init v decimals = Some (LS f (2 ^ (Q - 1)) c 0)).
  { unfold fracPlaces_init. rewrite Ef. cbv [obind].
    rewrite (one_shl (cXBits - 1)) by (cbv [cXBits]; lia).
    rewrite (one_shl (Q - 1)) by lia.
    change (convert TUInt (CV TInt (2 ^ (cXBits - 1)))) with (CV TUInt 8).
    rewrite dec_qx_init by lia. rewrite Z2Nat.id by lia.
    cbv [convert val].
    rewrite (wrap_id D (2 ^ (Q - 1)));
      [ reflexivity | apply in_range_small; pose proof (pow2_le_30 (Q - 1)); lia ]. }
  destruct (fracPlaces_loop_sum D (Z.to_nat Q) fuel (LS f (2 ^ (Q - 1)) c 0))
    as [s' [k [L [K [G A]]]]].
  - exact Hfuel.
  - lia.
  - cbn [ls_mask]. rewrite Z2Nat.id by lia.
    rewrite Z.shiftr_div_pow2 by lia. change (2 ^ 1) with 2.
    replace (2 ^ Q) with (2 ^ (Q - 1) * 2).
    + symmetry. apply Z.div_mul. lia.
    + replace Q with (Z.succ (Q - 1)) at 2 by lia. rewrite Z.pow_succ_r by lia. lia.
  - cbn [ls_frac]. rewrite Z2Nat.id by lia. exact Bf.
  - cbn [ls_dec_qx]. lia.
  - cbn [ls_result]. lia.
  - cbn [ls_result ls_dec_qx]. change (2 ^ 31) with 2147483648. lia.
  - cbn [ls_result ls_dec_qx ls_frac] in A. rewrite Z2Nat.id in A by lia.
    cbn [ls_result] in G.
    set (r' := ls_result s') in *.
    assert (R0 : 0 <= r') by exact G.
    assert (RU : r' < 2 * c) by nia.
    exists f, ((r' + 8) / 16), k.
    split; [ exact Ef | split; [ | split; [ lia | ] ] ].
    + unfold fracPlaces. rewrite Init. cbv [obind]. rewrite L.
      rewrite (one_shl (cXBits - 1)) by (cbv [cXBits]; lia).
      cbn [fst snd]. fold r'.
      rewrite c_shr_ok
        by (cbv [c_add arith ty cXBits]; rewrite common_type_int_r;
            pose proof (width_bounds D); lia).
      cbv [c_add arith convert ty val cXBits]. rewrite common_type_int_r.
      change (2 ^ (4 - 1)) with 8.
      rewrite (wrap_id D r'), (wrap_id D 8), (wrap_id D (r' + 8))
        by (apply in_range_small; lia).
      rewrite Z.shiftr_div_pow2 by lia. change (2 ^ 4) with 16.
      rewrite wrap_id; [ reflexivity | ].
      apply in_range_small.
      pose proof (Z.div_mod (r' + 8) 16 ltac:(lia)).
      pose proof (Z.mod_pos_bound (r' + 8) 16 ltac:(lia)). lia.
    + pose proof (Z.div_mod (r' + 8) 16 ltac:(lia)) as DM.
      pose proof (Z.mod_pos_bound (r' + 8) 16 ltac:(lia)) as MB.
      set (r := (r' + 8) / 16) in *.
      replace (16 * 10 ^ decimals * f) with (2 * c * f) by (unfold c; lia).
      split; nia.
Qed.

Lemma fracPlaces_accuracy_witness :
  exists (f r : Z) (k : nat),
    absFracPart (FP 808 : tFixedPoint 8 TInt) = Some f
    /\ fracPlaces 8 (FP 808 : tFixedPoint 8 TInt) 3 = Some (r, k)
    /\ Z.of_nat k <= 8
    /\ (16 * r - 8) * 2 ^ 8 <= 16 * 10 ^ 3 * f
    /\ 16 * 10 ^ 3 * f <= (16 * r + 7 + 8) * 2 ^ 8.
Proof.
  apply (fracPlaces_accuracy 8 TInt (FP 808) 3 8); [ lia | lia | cbn; lia ].
Defined.

(** X21. Widening a value by the precision of another type and truncating
    back to its own type gives the value back, provided the wider type holds
    the shifted raw value. *)
Theorem increasedBy_truncatedTo2 (Q Q2 : Z) (D D2 : DataType)
  (a : tFixedPoint Q D) (b : tFixedPoint Q2 D2) :
  in_range TInt Q -> in_range TInt (Q + Q2) -> 0 <= Q2 < width D2 ->
  wf a -> in_range D2 (value_ a * 2 ^ Q2) ->
  (w <- increasedBy b a ;; truncatedTo2 Q D w) = Some a.
Proof.
  intros HQ HQ2 H2 Wa R.
  assert (P : 0 < 2 ^ Q2) by (apply Z.pow_pos_nonneg; lia).
  assert (Ra : in_range D2 (value_ a)).
  { unfold in_range in *. pose proof (width_bounds D2).
    assert (min_value D2 <= 0 <= max_value D2)
      by (unfold min_value, max_value; destruct D2; cbn; lia).
    split; nia. }
  unfold increasedBy, truncatedTo2, qValue.
  cbv [convert val]. rewrite (wrap_id D2 (value_ a)) by exact Ra.
  rewrite c_shl_ok by (cbv [ty]; lia). cbv [obind ty val].
  rewrite create_eq by exact HQ2. cbv [val].
  rewrite Z.shiftl_mul_pow2 by lia.
  rewrite !(wrap_id D2 (value_ a * 2 ^ Q2)) by exact R.
  rewrite c_shr_ok by (cbv [ty]; lia). cbv [ty val].
  rewrite create_eq by exact HQ. cbv [val].
  replace (Q + Q2 - Q) with Q2 by lia.
  cbn [value_].
  rewrite Z.shiftr_div_pow2, Z.div_mul by lia.
  rewrite wrap_id by exact Wa. destruct a; reflexivity.
Qed.

Lemma increasedBy_truncatedTo2_witness :
  (w <- increasedBy (FP 5 : tFixedPoint 6 TLongLong) (FP (-808) : tFixedPoint 8 TInt) ;;
   truncatedTo2 8 TInt w) = Some (FP (-808) : tFixedPoint 8 TInt).
Proof.
  apply (increasedBy_truncatedTo2 8 6 TInt TLongLong (FP (-808)) (FP 5));
    unfold wf, in_range; cbn; lia.
Defined.

(** X22. [!x] holds exactly when both the integer part and the fractional
    part of [x] are zero. *)
Theorem operator_not_parts (Q : Z) (D : DataType) (x : tFixedPoint Q D) :
  0 <= Q <= 31 -> wf x ->
  operator_not x = true <-> (intPart x = Some 0 /\ fracPart x = Some 0).
Proof.
  intros HQ W.
  assert (P : 0 < 2 ^ Q) by (apply Z.pow_pos_nonneg; lia).
  rewrite intPart_eq, fracPart_eq by assumption.
  unfold operator_not, c_eq, compare_with, qValue. cbv [ty val].
  rewrite common_type_int_r.
  rewrite (wrap_id D (value_ x)) by exact W.
  rewrite (wrap_id D 0) by (apply in_range_small; lia).
  rewrite Z.eqb_eq. split.
  - intros E. rewrite E. cbn [Z.leb Z.compare]. rewrite Z.div_0_l, Z.mod_0_l by lia.
    split; reflexivity.
  - intros [I F]. injection I as I. injection F as F.
    apply Z.div_small_iff in I; [ | lia ].
    destruct I as [I | I]; [ | lia ].
    replace (0 <=? value_ x) with true in F by (symmetry; apply Z.leb_le; lia).
    rewrite Z.mod_small in F by lia. exact F.
Qed.

Lemma operator_not_parts_witness :
  operator_not (FP 0 : tFixedPoint 8 TInt) = true
  <-> (intPart (FP 0 : tFixedPoint 8 TInt) = Some 0
       /\ fracPart (FP 0 : tFixedPoint 8 TInt) = Some 0).
Proof.
  apply (operator_not_parts 8 TInt (FP 0)); [ lia | unfold wf, in_range; cbn; lia ].
Defined.

(** An integer scaled by a power of two in [double], plus [0.5], converted
    back: exact for a non-negative integer, one more for a negative one. *)
Lemma scaled_plus_half (D : DataType) (n k : Z) :
  0 <= k <= 52 -> Z.abs (n * 2 ^ k) < 2 ^ 52 ->
  in_range D (if 0 <=? n then n * 2 ^ k else n * 2 ^ k + 1) ->
  double_to D (double_add (double_mul (double_of_Z n) (double_of_Z (2 ^ k))) double_half)
  = Some (if 0 <=? n then n * 2 ^ k else n * 2 ^ k + 1).
Proof.
  intros Hk HN HR.
  destruct n as [ | p | p ].
  - unfold double_of_Z. rewrite binary_normalize_pow2 by assumption.
    cbn [binary_normalize Z.leb Z.compare Z.mul] in *.
    apply in_rangeb_spec in HR.
    unfold double_mul, double_add, double_to. cbn. rewrite HR. reflexivity.
  - assert (HP : Zpos p * 2 ^ k < 2 ^ 52) by lia.
    assert (P : 0 < 2 ^ k) by (apply Z.pow_pos_nonneg; lia).
    destruct (double_of_Z_pos p) as [E _].
    { change (2 ^ 53) with (2 * 2 ^ 52). nia. }
    rewrite E. apply (rounded_of_sign false p k D); [ lia | assumption | ].
    exact HR.
  - assert (HP : Zpos p * 2 ^ k < 2 ^ 52).
    { replace (Zneg p * 2 ^ k) with (- (Zpos p * 2 ^ k)) in HN by lia. lia. }
    assert (P : 0 < 2 ^ k) by (apply Z.pow_pos_nonneg; lia).
    destruct (double_of_Z_pos p) as [_ E].
    { change (2 ^ 53) with (2 * 2 ^ 52). nia. }
    rewrite E.
    replace (if 0 <=? Zneg p then Zneg p * 2 ^ k else Zneg p * 2 ^ k + 1)
      with (- (Zpos p * 2 ^ k) + 1) in * by (cbn [Z.leb Z.compare]; lia).
    apply (rounded_of_sign true p k D); [ lia | assumption | exact HR ].
Qed.

(** X23. For a raw value whose product with [2^k] is below [2^52] in
    magnitude (so the [double] arithmetic is exact) and a result that is a
    value of the storage type, multiplying by the [double] of the power of
    two [2^k], [1.0] included, scales a non-negative raw value exactly but
    gives one raw unit more for a negative one: [0.5] is added and the
    conversion truncates toward zero, so [x * 1.0] is not [x] for such a
    negative [x]. *)
Theorem operator_mul_double_pow2 (Q : Z) (D : DataType) (a : tFixedPoint Q D) (k : Z) :
  in_range TInt Q -> 0 <= k <= 52 ->
  Z.abs (value_ a * 2 ^ k) < 2 ^ 52 ->
  in_range D (if 0 <=? value_ a then value_ a * 2 ^ k else value_ a * 2 ^ k + 1) ->
  operator_mul_double a (double_of_Z (2 ^ k))
  = Some (FP (if 0 <=? value_ a then value_ a * 2 ^ k else value_ a * 2 ^ k + 1)).
Proof.
  intros HQ Hk HN HR. unfold operator_mul_double.
  rewrite scaled_plus_half by assumption. cbv [obind].
  rewrite create_eq by exact HQ. cbv [val].
  rewrite wrap_id by exact HR. reflexivity.
Qed.

Lemma operator_mul_double_pow2_witness :
  operator_mul_double (FP (-808) : tFixedPoint 8 TInt) (double_of_Z (2 ^ 0))
  = Some (FP (-807)).
Proof.
  apply (operator_mul_double_pow2 8 TInt (FP (-808)) 0);
    [ unfold in_range; cbn; lia | lia | cbn; lia | unfold in_range; cbn; lia ].
Defined.
